(** * qdl: USB session bootstrap and bulk-transfer primitives

    A shallow embedding of [qdl.c]: the XML file classifier
    ([detect_type]), the USB device walk ([parse_usb_desc], [usb_open]),
    the two transfer primitives ([qdl_read], [qdl_write]) and the
    dispatcher ([main]).

    The program talks to libusb, libxml2, libc and to the loaders and
    protocol engines of the other translation units.  All of these are
    gathered in a record [world] of oracles; every call the program makes
    to them is appended to a chronological trace of [event]s. *)

From Stdlib Require Import ZArith List Ascii String Bool Lia.
From Stdlib Require Strings.Byte.
Import ListNotations.
Open Scope Z_scope.

(** ** C integer types (LP64: 32-bit [int], 64-bit [size_t]) *)

Module CInt.

Definition INT_MAX : Z := 2147483647.
Definition INT_MIN : Z := -2147483648.

(** Conversion to [int]: reduction modulo 2^32 into [INT_MIN, INT_MAX]. *)
Definition to_int (z : Z) : Z := (z + 2147483648) mod 4294967296 - 2147483648.

(** Conversion to [size_t]. *)
Definition to_size_t (z : Z) : Z := z mod 18446744073709551616.

(** Conversion to [unsigned char] (the endpoint parameter of libusb). *)
Definition to_uchar (z : Z) : Z := z mod 256.

(** A C scalar used as a condition. *)
Definition c_true (z : Z) : bool := negb (z =? 0).

End CInt.
Import CInt.

(** ** Constants of the headers the program includes *)

(** errno.h *)
Definition EINVAL : Z := 22.
Definition ENOENT : Z := 2.

(** libusb.h *)
Definition LIBUSB_DT_DEVICE : Z := 1.
Definition LIBUSB_DT_CONFIG : Z := 2.
Definition LIBUSB_DT_INTERFACE : Z := 4.
Definition LIBUSB_DT_ENDPOINT : Z := 5.
Definition LIBUSB_DT_INTERFACE_SIZE : Z := 9.
Definition LIBUSB_ENDPOINT_IN : Z := 128.
Definition LIBUSB_TRANSFER_TYPE_MASK : Z := 3.
Definition LIBUSB_TRANSFER_TYPE_BULK : Z := 2.
Definition LIBUSB_ERROR_NOT_FOUND : Z := -5.

(** The file kinds of the anonymous enum. *)
Definition QDL_FILE_UNKNOWN : Z := 0.
Definition QDL_FILE_PATCH : Z := 1.
Definition QDL_FILE_PROGRAM : Z := 2.
Definition QDL_FILE_UFS : Z := 3.
Definition QDL_FILE_CONTENTS : Z := 4.

(** ** Data *)

(** [struct qdl_device]; the handle is the opaque pointer value. *)
Record qdl_device := mk_qdl {
  handle : Z;
  in_ep : Z;
  out_ep : Z;
  in_maxpktsize : Z;
  out_maxpktsize : Z
}.

(** The fields of the libusb descriptors that the program reads.  The
    arrays [endpoint], [interface] are lists; libusb allocates them with
    [bNumEndpoints] and [bNumInterfaces] entries, so these two counters
    are the lengths of the lists. *)
Record libusb_endpoint_descriptor := mk_endpoint {
  ep_bDescriptorType : Z;
  bEndpointAddress : Z;
  bmAttributes : Z;
  wMaxPacketSize : Z
}.

Record libusb_interface_descriptor := mk_altsetting {
  if_bLength : Z;
  if_bDescriptorType : Z;
  bInterfaceNumber : Z;
  bInterfaceClass : Z;
  bInterfaceSubClass : Z;
  bInterfaceProtocol : Z;
  endpoint : list libusb_endpoint_descriptor
}.

(** [struct libusb_interface]: the program only dereferences
    [interface.altsetting], the first alternate setting. *)
Record libusb_interface := mk_interface {
  altsetting : libusb_interface_descriptor
}.

Record libusb_config_descriptor := mk_config {
  cfg_bDescriptorType : Z;
  interface : list libusb_interface
}.

Record libusb_device_descriptor := mk_device_descriptor {
  dev_bDescriptorType : Z;
  idVendor : Z;
  idProduct : Z;
  bNumConfigurations : Z
}.

(** A [libusb_device]: what the three libusb calls on it answer.
    [dev_ptr] is the pointer found in the device list. *)
Record libusb_device := mk_device {
  dev_ptr : Z;
  get_device_descriptor : Z * libusb_device_descriptor;
  config_descriptors : list (Z * libusb_config_descriptor);
  libusb_open : Z * Z
}.

(** libxml2 trees, as far as [detect_type] looks into them. *)
Inductive xmlElementType :=
| XML_ELEMENT_NODE
| XML_TEXT_NODE
| XML_COMMENT_NODE
| XML_PI_NODE
| XML_CDATA_SECTION_NODE.

#[warnings="-register-all"]
Inductive xmlNode :=
| mk_xmlNode (type : xmlElementType) (name : string) (children : list xmlNode).

Definition node_type (n : xmlNode) : xmlElementType :=
  match n with mk_xmlNode t _ _ => t end.
Definition node_name (n : xmlNode) : string :=
  match n with mk_xmlNode _ s _ => s end.
Definition node_children (n : xmlNode) : list xmlNode :=
  match n with mk_xmlNode _ _ c => c end.

Record xmlDoc := mk_xmlDoc {
  xmlDocGetRootElement : xmlNode
}.

(** ** Events and the outside world *)

Inductive event :=
| EvStderr (msg : string)
| EvUsage
| EvXmlReadFile (path : string)
| EvPatchLoad (path : string)
| EvProgramLoad (path : string)
| EvUfsLoad (path : string) (finalize : bool)
| EvUsbInit
| EvGetDeviceList
| EvGetDeviceDescriptor (dev : Z)
| EvGetConfigDescriptor (dev : Z) (index : Z)
| EvOpen (dev : Z)
| EvFreeDeviceList
| EvClaimInterface (hnd : Z) (intf : Z)
| EvBulkTransfer (hnd : Z) (ep : Z) (data : option Z) (len : Z) (timeout : Z)
| EvSaharaRun (qdl : qdl_device) (prog_mbn : string)
| EvFirehoseRun (qdl : qdl_device) (incdir : option string) (storage : string).

Definition trace := list event.

(** The answers of everything outside [qdl.c].  A bulk transfer may
    answer differently each time, so it sees the trace so far; in
    [EvBulkTransfer] and [libusb_bulk_transfer] the data pointer is an
    offset into the caller's buffer, [None] for [NULL].  [uninit] is the
    indeterminate value held by an automatic variable that was declared
    without initialiser and never assigned. *)
Record world := mk_world {
  xmlReadFile : string -> option xmlDoc;
  patch_load : string -> Z;
  program_load : string -> Z;
  ufs_load : string -> bool -> Z;
  libusb_init : Z;
  libusb_get_device_list : option (list libusb_device);
  libusb_claim_interface : Z -> Z -> Z;
  libusb_bulk_transfer : trace -> Z -> Z -> option Z -> Z -> Z -> Z * Z;
  sahara_run : qdl_device -> string -> Z;
  firehose_run : qdl_device -> option string -> string -> Z;
  uninit : string -> Z
}.

(** ** The monad of the embedding *)

Inductive outcome (A : Type) :=
| Ret (a : A)
| Exit (code : Z)
| Trap
| Diverge.
Arguments Ret {A} a.
Arguments Exit {A} code.
Arguments Trap {A}.
Arguments Diverge {A}.

Definition M (A : Type) : Type := trace -> outcome A * trace.

Definition ret {A} (a : A) : M A := fun h => (Ret a, h).

Definition bind {A B} (m : M A) (f : A -> M B) : M B :=
  fun h =>
    match m h with
    | (Ret a, h') => f a h'
    | (Exit c, h') => (Exit c, h')
    | (Trap, h') => (Trap, h')
    | (Diverge, h') => (Diverge, h')
    end.

Notation "x <- m ;; k" := (bind m (fun x => k))
  (at level 61, m at next level, right associativity).
Notation "m ;;; k" := (bind m (fun _ => k))
  (at level 61, right associativity).

Definition emit (e : event) : M unit := fun h => (Ret tt, h ++ [e]).

(** [err(code, msg)] and [errx(code, msg)]: a diagnostic, then [exit]. *)
Definition err {A} (code : Z) (msg : string) : M A :=
  fun h => (Exit code, h ++ [EvStderr msg]).

Definition trap {A} : M A := fun h => (Trap, h).
Definition diverge {A} : M A := fun h => (Diverge, h).

(** How a loop body is left: on to the next iteration, or [return]. *)
Inductive flow (A R : Type) :=
| Next (a : A)
| Return (r : R).
Arguments Next {A R} a.
Arguments Return {A R} r.

(** ** The program *)

Section Program.

Variable w : world.

(** The libusb call itself: logged, answered by the world. *)
Definition bulk_transfer (hnd ep : Z) (data : option Z) (len timeout : Z)
  : M (Z * Z) :=
  fun h =>
    (Ret (libusb_bulk_transfer w h hnd (to_uchar ep) data len timeout),
     h ++ [EvBulkTransfer hnd (to_uchar ep) data len timeout]).

(** [qdl_read]: [len] is a [size_t], the libusb length an [int]. *)
Definition qdl_read (qdl : qdl_device) (len : Z) (timeout : Z) : M Z :=
  r <- bulk_transfer (handle qdl) (in_ep qdl) (Some 0) (to_int len) timeout ;;
  let '(ret_, transferred) := r in
  ret (if c_true ret_ then ret_ else transferred).

(** The [while (size > 0)] loop of [qdl_write]; [off] is [data - buf]. *)
Fixpoint write_loop (fuel : nat) (qdl : qdl_device) (size writed off : Z)
  : M Z :=
  if size >? 0 then
    match fuel with
    | O => diverge
    | S fuel' =>
        let usize := to_size_t size in
        let xfer :=
          to_int (if usize >? out_maxpktsize qdl
                  then out_maxpktsize qdl else usize) in
        r <- bulk_transfer (handle qdl) (out_ep qdl) (Some off) xfer 0 ;;
        if c_true (fst r) then err 1 "libusb_bulk_transfer error"
        else write_loop fuel' qdl (to_int (size - xfer))
                        (to_int (writed + xfer)) (off + xfer)
    end
  else ret writed.

(** [qdl_write].  Every iteration with a positive packet size lowers
    [size] by at least one, so [size] iterations are enough; with a
    packet size of 0 the C loop does not end.  [len % 0] traps. *)
Definition qdl_write (qdl : qdl_device) (len : Z) (eot : bool) : M Z :=
  let size := to_int len in
  writed <- write_loop (Z.to_nat size) qdl size 0 0 ;;
  (if eot then
     if out_maxpktsize qdl =? 0 then trap
     else if len mod out_maxpktsize qdl =? 0 then
       r <- bulk_transfer (handle qdl) (out_ep qdl) None 0 0 ;;
       if c_true (fst r) then err 1 "libusb_bulk_transfer error"
       else ret tt
     else ret tt
   else ret tt) ;;;
  ret writed.


(** *** File classification *)

(** [xmlStrcmp]: 0 exactly on equal strings. *)
Definition xmlStrcmp (a b : string) : Z :=
  match String.compare a b with
  | Eq => 0
  | Lt => -1
  | Gt => 1
  end.

(** The [for (node = root->children; node; node = node->next)] loop;
    the result is the value of [type] when the loop is left. *)
Fixpoint children_loop (nodes : list xmlNode) (type : Z) : Z :=
  match nodes with
  | [] => type
  | node :: next =>
      match node_type node with
      | XML_ELEMENT_NODE =>
          if negb (c_true (xmlStrcmp (node_name node) "program"))
          then QDL_FILE_PROGRAM
          else if negb (c_true (xmlStrcmp (node_name node) "ufs"))
          then QDL_FILE_UFS
          else children_loop next type
      | _ => children_loop next type
      end
  end.

Definition detect_type (xml_file : string) : M Z :=
  let type := QDL_FILE_UNKNOWN in
  emit (EvXmlReadFile xml_file) ;;;
  match xmlReadFile w xml_file with
  | None =>
      emit (EvStderr ("[PATCH] failed to parse " ++ xml_file)) ;;;
      ret (- EINVAL)
  | Some doc =>
      let root := xmlDocGetRootElement doc in
      ret (if negb (c_true (xmlStrcmp (node_name root) "patches"))
           then QDL_FILE_PATCH
           else if negb (c_true (xmlStrcmp (node_name root) "data"))
           then children_loop (node_children root) type
           else if negb (c_true (xmlStrcmp (node_name root) "contents"))
           then QDL_FILE_CONTENTS
           else type)
  end.

(** *** Device walk *)

(** The automatic variables [in], [out], [in_size], [out_size] of
    [parse_usb_desc]: [None] until first assigned. *)
Record locals := mk_locals {
  v_in : option Z;
  v_in_size : option Z;
  v_out : option Z;
  v_out_size : option Z
}.

Definition no_locals : locals := mk_locals None None None None.

(** Reading an automatic variable. The conversions at the stores into
    the session (unsigned to int, uint16_t to size_t) keep the value of a
    descriptor field and are not written out. *)
Definition read_local (name : string) (v : option Z) : Z :=
  match v with
  | Some z => z
  | None => uninit w name
  end.

(** The endpoint loop; [None] is its [return -EINVAL]. *)
Fixpoint endpoint_loop (eps : list libusb_endpoint_descriptor) (l : locals)
  : option locals :=
  match eps with
  | [] => Some l
  | endpoint :: rest =>
      if negb (ep_bDescriptorType endpoint =? LIBUSB_DT_ENDPOINT) then None
      else if negb (Z.land (bmAttributes endpoint) LIBUSB_TRANSFER_TYPE_MASK
                    =? LIBUSB_TRANSFER_TYPE_BULK)
      then endpoint_loop rest l
      else if c_true (Z.land (bEndpointAddress endpoint) LIBUSB_ENDPOINT_IN)
      then endpoint_loop rest
             (mk_locals (Some (bEndpointAddress endpoint))
                        (Some (wMaxPacketSize endpoint))
                        (v_out l) (v_out_size l))
      else endpoint_loop rest
             (mk_locals (v_in l) (v_in_size l)
                        (Some (bEndpointAddress endpoint))
                        (Some (wMaxPacketSize endpoint)))
  end.

(** The result of [parse_usb_desc]: its return value and the two objects
    it writes through its pointer parameters. *)
Definition parse_result : Type := Z * qdl_device * Z.

(** The interface loop of one configuration. *)
Fixpoint interface_loop (device : libusb_device) (qdl : qdl_device) (intf : Z)
  (ifs : list libusb_interface) (l : locals) : M (flow locals parse_result) :=
  match ifs with
  | [] => ret (Next l)
  | interface :: rest =>
      let alt := altsetting interface in
      if negb (if_bDescriptorType alt =? LIBUSB_DT_INTERFACE)
      then ret (Return (- EINVAL, qdl, intf))
      else if if_bLength alt <? LIBUSB_DT_INTERFACE_SIZE
      then ret (Return (- EINVAL, qdl, intf))
      else
        match endpoint_loop (endpoint alt) l with
        | None => ret (Return (- EINVAL, qdl, intf))
        | Some l' =>
            if negb (bInterfaceClass alt =? 255)
            then interface_loop device qdl intf rest l'
            else if negb (bInterfaceSubClass alt =? 255)
            then interface_loop device qdl intf rest l'
            else if negb (bInterfaceProtocol alt =? 255)
                    && negb (bInterfaceProtocol alt =? 16)
            then interface_loop device qdl intf rest l'
            else
              emit (EvOpen (dev_ptr device)) ;;;
              if c_true (fst (libusb_open device))
              then err 1 "failed to open, errcode: %d"
              else
                ret (Return
                       (0,
                        mk_qdl (snd (libusb_open device))
                               (read_local "in" (v_in l'))
                               (read_local "out" (v_out l'))
                               (read_local "in_size" (v_in_size l'))
                               (read_local "out_size" (v_out_size l')),
                        bInterfaceNumber alt))
        end
  end.

(** [libusb_get_config_descriptor(device, i, &config)]. *)
Definition libusb_get_config_descriptor (device : libusb_device) (i : Z)
  : Z * libusb_config_descriptor :=
  if i <? 0 then (LIBUSB_ERROR_NOT_FOUND, mk_config 0 [])
  else nth (Z.to_nat i) (config_descriptors device)
           (LIBUSB_ERROR_NOT_FOUND, mk_config 0 []).

(** The configuration loop; [n] counts the indices still to visit. *)
Fixpoint config_loop (device : libusb_device) (qdl : qdl_device) (intf : Z)
  (n : nat) (i : Z) (l : locals) : M parse_result :=
  match n with
  | O => ret (- EINVAL, qdl, intf)
  | S n' =>
      emit (EvGetConfigDescriptor (dev_ptr device) i) ;;;
      let r := libusb_get_config_descriptor device i in
      if c_true (fst r) then err 1 "libusb_get_config_descriptor error"
      else
        let config := snd r in
        if negb (cfg_bDescriptorType config =? LIBUSB_DT_CONFIG)
        then ret (- EINVAL, qdl, intf)
        else
          f <- interface_loop device qdl intf (interface config) l ;;
          match f with
          | Return res => ret res
          | Next l' => config_loop device qdl intf n' (i + 1) l'
          end
  end.

(** [parse_usb_desc], compiled without [DEBUG_PARSE]. *)
Definition parse_usb_desc (device : libusb_device) (qdl : qdl_device)
  (intf : Z) : M parse_result :=
  emit (EvGetDeviceDescriptor (dev_ptr device)) ;;;
  let desc := snd (get_device_descriptor device) in
  if c_true (fst (get_device_descriptor device))
  then err 1 "libusb_get_device_descriptor error %d"
  else if negb (idVendor desc =? 1478) || negb (idProduct desc =? 36872)
  then ret (- EINVAL, qdl, intf)
  else if negb (dev_bDescriptorType desc =? LIBUSB_DT_DEVICE)
  then ret (- EINVAL, qdl, intf)
  else config_loop device qdl intf (Z.to_nat (bNumConfigurations desc)) 0
                   no_locals.

(** The device loop of [usb_open]; [Some] is its [goto found]. *)
Fixpoint device_loop (usb : list libusb_device) (qdl : qdl_device) (intf : Z)
  : M (option (qdl_device * Z)) :=
  match usb with
  | [] => ret None
  | device :: rest =>
      res <- parse_usb_desc device qdl intf ;;
      let '(ret_, qdl', intf') := res in
      if negb (c_true ret_) then ret (Some (qdl', intf'))
      else device_loop rest qdl' intf'
  end.

Definition usb_open (qdl : qdl_device) : M (Z * qdl_device) :=
  let intf := -1 in
  emit EvUsbInit ;;;
  if c_true (libusb_init w) then err 1 "failed to initialize libusb %d"
  else
    emit EvGetDeviceList ;;;
    match libusb_get_device_list w with
    | None => err 1 "can't get usb devices."
    | Some usb =>
        found <- device_loop usb qdl intf ;;
        match found with
        | None => ret (- ENOENT, qdl)
        | Some (qdl', intf') =>
            emit EvFreeDeviceList ;;;
            emit (EvClaimInterface (handle qdl') intf') ;;;
            if c_true (libusb_claim_interface w (handle qdl') intf')
            then err 1 "libusb_claim_interface"
            else ret (0, qdl')
        end
    end.

(** *** The dispatcher *)

Definition print_usage : M unit := emit EvUsage.

(** The variables the option loop of [main] sets. *)
Record options := mk_options {
  qdl_debug : bool;
  incdir : option string;
  qdl_finalize_provisioning : bool;
  storage : string
}.

Definition default_options : options := mk_options false None false "ufs".

(** The [while ((opt = getopt_long(...)) != -1)] loop.  [getopt_long]
    belongs to libc: the list [opts] holds, in order, the option
    characters it returns before -1, each with its [optarg]. *)
Fixpoint getopt_loop (opts : list (Ascii.ascii * string)) (o : options)
  : M (flow options Z) :=
  match opts with
  | [] => ret (Next o)
  | (opt, optarg) :: rest =>
      if Ascii.eqb opt "d"%char
      then getopt_loop rest
             (mk_options true (incdir o) (qdl_finalize_provisioning o)
                         (storage o))
      else if Ascii.eqb opt "i"%char
      then getopt_loop rest
             (mk_options (qdl_debug o) (Some optarg)
                         (qdl_finalize_provisioning o) (storage o))
      else if Ascii.eqb opt "l"%char
      then getopt_loop rest
             (mk_options (qdl_debug o) (incdir o) true (storage o))
      else if Ascii.eqb opt "s"%char
      then getopt_loop rest
             (mk_options (qdl_debug o) (incdir o)
                         (qdl_finalize_provisioning o) optarg)
      else print_usage ;;; ret (Return 1)
  end.

(** [argv[i]]; reading past the array is a trap. *)
Definition argv_at (argv : list string) (i : Z) : M string :=
  if i <? 0 then trap
  else match nth_error argv (Z.to_nat i) with
       | Some s => ret s
       | None => trap
       end.

(** The body of the [do ... while] loop for [argv[optind]]. *)
Definition stage_file (finalize : bool) (file : string) : M unit :=
  type <- detect_type file ;;
  if (type <? 0) || (type =? QDL_FILE_UNKNOWN)
  then err 1 ("failed to detect file type of " ++ file)
  else if type =? QDL_FILE_PATCH then
    emit (EvPatchLoad file) ;;;
    if patch_load w file <? 0
    then err 1 ("patch_load " ++ file ++ " failed")
    else ret tt
  else if type =? QDL_FILE_PROGRAM then
    emit (EvProgramLoad file) ;;;
    if program_load w file <? 0
    then err 1 ("program_load " ++ file ++ " failed")
    else ret tt
  else if type =? QDL_FILE_UFS then
    emit (EvUfsLoad file finalize) ;;;
    if ufs_load w file finalize <? 0
    then err 1 ("ufs_load " ++ file ++ " failed")
    else ret tt
  else err 1 (file ++ " type not yet supported").

(** The [do ... while (++optind < argc)] loop; [n] bounds the number of
    further iterations and is [argc - optind] at entry. *)
Fixpoint stage_loop (argv : list string) (finalize : bool) (n : nat)
  (optind : Z) : M unit :=
  file <- argv_at argv optind ;;
  stage_file finalize file ;;;
  let optind' := optind + 1 in
  if optind' <? Z.of_nat (List.length argv) then
    match n with
    | O => diverge
    | S n' => stage_loop argv finalize n' optind'
    end
  else ret tt.

(** [struct qdl_device qdl;] of [main], before [usb_open] fills it. *)
Definition qdl_uninit : qdl_device :=
  mk_qdl (uninit w "qdl.handle") (uninit w "qdl.in_ep")
         (uninit w "qdl.out_ep") (uninit w "qdl.in_maxpktsize")
         (uninit w "qdl.out_maxpktsize").

(** [main].  [argv] is the argument vector as [getopt_long] leaves it,
    [argc] its length, [opts] the options [getopt_long] found and
    [optind] the index of the first positional argument. *)
Definition main (argv : list string) (opts : list (Ascii.ascii * string))
  (optind : Z) : M Z :=
  let argc := Z.of_nat (List.length argv) in
  f <- getopt_loop opts default_options ;;
  match f with
  | Return r => ret r
  | Next o =>
      if optind + 2 >? argc then print_usage ;;; ret 1
      else
        prog_mbn <- argv_at argv optind ;;
        let optind := optind + 1 in
        stage_loop argv (qdl_finalize_provisioning o)
                   (Z.to_nat (argc - optind)) optind ;;;
        r <- usb_open qdl_uninit ;;
        if c_true (fst r) then ret 1
        else
          let qdl := snd r in
          emit (EvSaharaRun qdl prog_mbn) ;;;
          if sahara_run w qdl prog_mbn <? 0 then ret 1
          else
            emit (EvFirehoseRun qdl (incdir o) (storage o)) ;;;
            if firehose_run w qdl (incdir o) (storage o) <? 0 then ret 1
            else ret 0
  end.

End Program.

(** ** Specification-side definitions *)

(** The chunk lengths the specification prescribes for a buffer of [len]
    bytes and packet size [P]: full packets, then the remainder if any. *)
Definition spec_chunks (P len : Z) : list Z :=
  repeat P (Z.to_nat (len / P))
  ++ (if len mod P =? 0 then [] else [len mod P]).

(** Bulk-OUT transfers of the given lengths over consecutive parts of the
    caller's buffer, starting at offset [off]. *)
Fixpoint out_transfers (qdl : qdl_device) (off : Z) (chunks : list Z)
  : trace :=
  match chunks with
  | [] => []
  | c :: cs =>
      EvBulkTransfer (handle qdl) (to_uchar (out_ep qdl)) (Some off) c 0
      :: out_transfers qdl (off + c) cs
  end.

(** The zero-length transfer that ends a transfer. *)
Definition zlp (qdl : qdl_device) : event :=
  EvBulkTransfer (handle qdl) (to_uchar (out_ep qdl)) None 0 0.

(** The bytes of buffer [B] that a transfer carries. *)
Definition payload (B : list Byte.byte) (e : event) : list Byte.byte :=
  match e with
  | EvBulkTransfer _ _ (Some off) len _ =>
      firstn (Z.to_nat len) (skipn (Z.to_nat off) B)
  | _ => []
  end.

(** The requested lengths of the bulk transfers of a trace. *)
Fixpoint bulk_lengths (t : trace) : list Z :=
  match t with
  | [] => []
  | EvBulkTransfer _ _ _ len _ :: t' => len :: bulk_lengths t'
  | _ :: t' => bulk_lengths t'
  end.

Definition sum (l : list Z) : Z := fold_right Z.add 0 l.

(** No bulk transfer reports an error. *)
Definition transfers_ok (w : world) : Prop :=
  forall h hnd ep data len timeout,
    fst (libusb_bulk_transfer w h hnd ep data len timeout) = 0.

(** A world for examples: no device attached, no readable file, every
    transfer accepted but reported as 0 bytes moved. *)
Definition quiet_world : world :=
  mk_world (fun _ => None) (fun _ => 0) (fun _ => 0) (fun _ _ => 0)
           0 (Some []) (fun _ _ => 0)
           (fun _ _ _ _ _ _ => (0, 0))
           (fun _ _ => 0) (fun _ _ _ => 0) (fun _ => 0).

(** A session as a download-mode device gives it. *)
Definition sample_qdl : qdl_device := mk_qdl 1 129 1 512 512.

(** The file kinds of the specification and their codes in the program. *)
Inductive FileKind :=
| Unknown
| Patch
| Program
| StorageProvisioning
| Contents.

Definition kind_code (k : FileKind) : Z :=
  match k with
  | Unknown => QDL_FILE_UNKNOWN
  | Patch => QDL_FILE_PATCH
  | Program => QDL_FILE_PROGRAM
  | StorageProvisioning => QDL_FILE_UFS
  | Contents => QDL_FILE_CONTENTS
  end.

Definition is_element (n : xmlNode) : bool :=
  match node_type n with
  | XML_ELEMENT_NODE => true
  | _ => false
  end.

Definition program_or_ufs (n : xmlNode) : bool :=
  String.eqb (node_name n) "program" || String.eqb (node_name n) "ufs".

(** Classification as the specification words it: by the root tag, and
    for a [data] root by the first element child named [program] or
    [ufs], in document order. *)
Definition classify (doc : xmlDoc) : FileKind :=
  let root := xmlDocGetRootElement doc in
  if String.eqb (node_name root) "patches" then Patch
  else if String.eqb (node_name root) "contents" then Contents
  else if String.eqb (node_name root) "data" then
    match find program_or_ufs (filter is_element (node_children root)) with
    | Some child =>
        if String.eqb (node_name child) "program" then Program
        else StorageProvisioning
    | None => Unknown
    end
  else Unknown.

(** Documents of the specification's examples. *)
Definition elem (name : string) (children : list xmlNode) : xmlNode :=
  mk_xmlNode XML_ELEMENT_NODE name children.
Definition text_node : xmlNode := mk_xmlNode XML_TEXT_NODE "text" [].

Definition sample_files (path : string) : option xmlDoc :=
  if String.eqb path "patch0.xml" then
    Some (mk_xmlDoc (elem "patches" [text_node; elem "patch" []]))
  else if String.eqb path "rawprogram0.xml" then
    Some (mk_xmlDoc (elem "data" [text_node; elem "foo" []; elem "program" []]))
  else if String.eqb path "provision.xml" then
    Some (mk_xmlDoc (elem "data" [text_node; elem "ufs" []; elem "program" []]))
  else if String.eqb path "contents.xml" then
    Some (mk_xmlDoc (elem "contents" []))
  else if String.eqb path "widget.xml" then
    Some (mk_xmlDoc (elem "widget" [elem "program" []]))
  else if String.eqb path "comment.xml" then
    Some (mk_xmlDoc (elem "data" [mk_xmlNode XML_COMMENT_NODE "program" [];
                                  elem "ufs" []]))
  else None.

(** *** Vocabulary for the device walk *)

(** The vendor/product identity of the download mode. *)
Definition identity_ok (d : libusb_device) : bool :=
  (idVendor (snd (get_device_descriptor d)) =? 1478)
  && (idProduct (snd (get_device_descriptor d)) =? 36872).

(** The interface signature: class 0xFF, subclass 0xFF, protocol 0xFF
    or 0x10, read in the first alternate setting. *)
Definition signature_ok (i : libusb_interface) : bool :=
  (bInterfaceClass (altsetting i) =? 255)
  && (bInterfaceSubClass (altsetting i) =? 255)
  && ((bInterfaceProtocol (altsetting i) =? 255)
      || (bInterfaceProtocol (altsetting i) =? 16)).

Definition is_bulk (e : libusb_endpoint_descriptor) : bool :=
  Z.land (bmAttributes e) LIBUSB_TRANSFER_TYPE_MASK
  =? LIBUSB_TRANSFER_TYPE_BULK.

(** The direction bit of the endpoint address. *)
Definition is_in (e : libusb_endpoint_descriptor) : bool :=
  c_true (Z.land (bEndpointAddress e) LIBUSB_ENDPOINT_IN).

Definition bulk_in (e : libusb_endpoint_descriptor) : bool :=
  is_bulk e && is_in e.
Definition bulk_out (e : libusb_endpoint_descriptor) : bool :=
  is_bulk e && negb (is_in e).

(** Descriptors that pass the consistency checks of the walk; for a
    configuration, the read of the descriptor succeeds as well. *)
Definition endpoint_wf (e : libusb_endpoint_descriptor) : bool :=
  ep_bDescriptorType e =? LIBUSB_DT_ENDPOINT.

Definition interface_wf (i : libusb_interface) : bool :=
  (if_bDescriptorType (altsetting i) =? LIBUSB_DT_INTERFACE)
  && (LIBUSB_DT_INTERFACE_SIZE <=? if_bLength (altsetting i))
  && forallb endpoint_wf (endpoint (altsetting i)).


(** All interfaces of a device, configuration by configuration. *)
Definition interfaces_of (cs : list (Z * libusb_config_descriptor))
  : list libusb_interface :=
  flat_map (fun c => interface (snd c)) cs.


(** An interface, a configuration the walk passes over. *)
Definition clean_interface (i : libusb_interface) : bool :=
  interface_wf i && negb (signature_ok i).

Definition clean_config (c : Z * libusb_config_descriptor) : bool :=
  (fst c =? 0)
  && (cfg_bDescriptorType (snd c) =? LIBUSB_DT_CONFIG)
  && forallb clean_interface (interface (snd c)).

(** The automatic variables after the endpoint scans of interfaces that
    are passed over. *)
Definition scan_interfaces (ifs : list libusb_interface) (l : locals)
  : locals :=
  fold_left
    (fun l i =>
       match endpoint_loop (endpoint (altsetting i)) l with
       | Some l' => l'
       | None => l
       end) ifs l.

Definition scan_configs (cs : list (Z * libusb_config_descriptor))
  (l : locals) : locals :=
  scan_interfaces (interfaces_of cs) l.

(** The configuration reads of indices [first .. first + count - 1]. *)
Definition config_reads (d : libusb_device) (first count : nat) : trace :=
  map (fun k => EvGetConfigDescriptor (dev_ptr d) (Z.of_nat k))
      (seq first count).


(** The descriptor faults of the walk, each reached before any interface
    passed the signature filter: a device descriptor that is not of type
    DEVICE, a configuration descriptor not of type CONFIG, an alternate
    setting not of type INTERFACE or shorter than an interface
    descriptor.  The trace is what the walk emits up to the fault. *)
Inductive reaches_fault (d : libusb_device) : trace -> Prop :=
| fault_device :
    dev_bDescriptorType (snd (get_device_descriptor d)) <> LIBUSB_DT_DEVICE ->
    reaches_fault d [EvGetDeviceDescriptor (dev_ptr d)]
| fault_config cpre c cpost :
    dev_bDescriptorType (snd (get_device_descriptor d)) = LIBUSB_DT_DEVICE ->
    config_descriptors d = cpre ++ c :: cpost ->
    (List.length cpre < Z.to_nat (bNumConfigurations
                                    (snd (get_device_descriptor d))))%nat ->
    forallb clean_config cpre = true ->
    fst c = 0 ->
    cfg_bDescriptorType (snd c) <> LIBUSB_DT_CONFIG ->
    reaches_fault d (EvGetDeviceDescriptor (dev_ptr d)
                     :: config_reads d 0 (S (List.length cpre)))
| fault_interface cpre c cpost ipre i ipost :
    dev_bDescriptorType (snd (get_device_descriptor d)) = LIBUSB_DT_DEVICE ->
    config_descriptors d = cpre ++ c :: cpost ->
    (List.length cpre < Z.to_nat (bNumConfigurations
                                    (snd (get_device_descriptor d))))%nat ->
    forallb clean_config cpre = true ->
    fst c = 0 ->
    cfg_bDescriptorType (snd c) = LIBUSB_DT_CONFIG ->
    interface (snd c) = ipre ++ i :: ipost ->
    forallb clean_interface ipre = true ->
    if_bDescriptorType (altsetting i) <> LIBUSB_DT_INTERFACE
    \/ if_bLength (altsetting i) < LIBUSB_DT_INTERFACE_SIZE ->
    reaches_fault d (EvGetDeviceDescriptor (dev_ptr d)
                     :: config_reads d 0 (S (List.length cpre))).

Definition is_open_event (e : event) : bool :=
  match e with
  | EvOpen _ => true
  | _ => false
  end.

(** The two assignments of the endpoint loop. *)
Definition set_in (e : libusb_endpoint_descriptor) (l : locals) : locals :=
  mk_locals (Some (bEndpointAddress e)) (Some (wMaxPacketSize e))
            (v_out l) (v_out_size l).

Definition set_out (e : libusb_endpoint_descriptor) (l : locals) : locals :=
  mk_locals (v_in l) (v_in_size l)
            (Some (bEndpointAddress e)) (Some (wMaxPacketSize e)).

(** The session [parse_usb_desc] fills in once an interface is chosen. *)
Definition session_of (w : world) (device : libusb_device) (l : locals)
  : qdl_device :=
  mk_qdl (snd (libusb_open device))
         (read_local w "in" (v_in l)) (read_local w "out" (v_out l))
         (read_local w "in_size" (v_in_size l))
         (read_local w "out_size" (v_out_size l)).

(** An interface whose endpoint array is cut down to its bulk endpoints. *)
Definition bulk_endpoints_only (i : libusb_interface) : libusb_interface :=
  mk_interface
    (mk_altsetting (if_bLength (altsetting i))
                   (if_bDescriptorType (altsetting i))
                   (bInterfaceNumber (altsetting i))
                   (bInterfaceClass (altsetting i))
                   (bInterfaceSubClass (altsetting i))
                   (bInterfaceProtocol (altsetting i))
                   (filter is_bulk (endpoint (altsetting i)))).

(** *** Sample devices *)

Definition bulk_ep (address size : Z) : libusb_endpoint_descriptor :=
  mk_endpoint LIBUSB_DT_ENDPOINT address 2 size.
Definition interrupt_ep (address size : Z) : libusb_endpoint_descriptor :=
  mk_endpoint LIBUSB_DT_ENDPOINT address 3 size.

(** The download-mode interface, with two bulk endpoints per direction. *)
Definition edl_interface : libusb_interface :=
  mk_interface
    (mk_altsetting 9 LIBUSB_DT_INTERFACE 1 255 255 255
       [interrupt_ep 131 8; bulk_ep 129 512; bulk_ep 1 512;
        bulk_ep 130 64; bulk_ep 2 1024]).

(** A serial interface of another class. *)
Definition serial_interface : libusb_interface :=
  mk_interface
    (mk_altsetting 9 LIBUSB_DT_INTERFACE 0 2 2 1
       [bulk_ep 132 64; bulk_ep 4 64]).

(** The signature of the download mode, but no endpoint at all. *)
Definition bare_interface : libusb_interface :=
  mk_interface (mk_altsetting 9 LIBUSB_DT_INTERFACE 0 255 255 16 []).

(** An alternate setting whose descriptor type is not INTERFACE. *)
Definition broken_interface : libusb_interface :=
  mk_interface (mk_altsetting 9 LIBUSB_DT_ENDPOINT 0 2 2 1 []).

Definition device_with (ptr vendor product hnd : Z)
  (ifs : list libusb_interface) : libusb_device :=
  mk_device ptr
            (0, mk_device_descriptor LIBUSB_DT_DEVICE vendor product 1)
            [(0, mk_config LIBUSB_DT_CONFIG ifs)]
            (0, hnd).

Definition edl_device : libusb_device :=
  device_with 100 1478 36872 7 [serial_interface; edl_interface].

(** The right interfaces behind another vendor's identity. *)
Definition foreign_device : libusb_device :=
  device_with 200 1478 36864 8 [serial_interface; edl_interface].

Definition bare_device : libusb_device :=
  device_with 300 1478 36872 9 [bare_interface].

(** The right identity and a matching interface behind a faulty one. *)
Definition faulty_device : libusb_device :=
  device_with 400 1478 36872 10 [broken_interface; edl_interface].

(** A world with the given devices attached and the sample files. *)
Definition world_with (usb : list libusb_device) (garbage : string -> Z)
  : world :=
  mk_world sample_files (fun _ => 0) (fun _ => 0) (fun _ _ => 0)
           0 (Some usb) (fun _ _ => 0)
           (fun _ _ _ _ _ _ => (0, 0))
           (fun _ _ => 0) (fun _ _ _ => 0) garbage.

(** *** Vocabulary for the dispatcher *)

(** The option characters [main] handles. *)
Definition option_known (o : ascii * string) : bool :=
  Ascii.eqb (fst o) "d" || Ascii.eqb (fst o) "i"
  || Ascii.eqb (fst o) "l" || Ascii.eqb (fst o) "s".

Definition set_option (o : options) (opt : ascii * string) : options :=
  if Ascii.eqb (fst opt) "d"
  then mk_options true (incdir o) (qdl_finalize_provisioning o) (storage o)
  else if Ascii.eqb (fst opt) "i"
  then mk_options (qdl_debug o) (Some (snd opt))
                  (qdl_finalize_provisioning o) (storage o)
  else if Ascii.eqb (fst opt) "l"
  then mk_options (qdl_debug o) (incdir o) true (storage o)
  else if Ascii.eqb (fst opt) "s"
  then mk_options (qdl_debug o) (incdir o) (qdl_finalize_provisioning o)
                  (snd opt)
  else o.

Definition options_after (opts : list (ascii * string)) : options :=
  fold_left set_option opts default_options.

(** The loader call a support file leads to, with the loader's answer:
    none for a file that does not parse or is of no loadable kind. *)
Definition loader_call (w : world) (finalize : bool) (file : string)
  : option (event * Z) :=
  match xmlReadFile w file with
  | None => None
  | Some doc =>
      match classify doc with
      | Patch => Some (EvPatchLoad file, patch_load w file)
      | Program => Some (EvProgramLoad file, program_load w file)
      | StorageProvisioning =>
          Some (EvUfsLoad file finalize, ufs_load w file finalize)
      | Unknown | Contents => None
      end
  end.

(** A support file is staged when it has a loader and the loader does
    not report failure. *)
Definition staged (w : world) (finalize : bool) (file : string) : bool :=
  match loader_call w finalize file with
  | Some (_, r) => 0 <=? r
  | None => false
  end.

(** What staging a file does, diagnostics apart: the file is read, and
    its loader, if it has one, is called once. *)
Definition stage_events (w : world) (finalize : bool) (file : string)
  : trace :=
  EvXmlReadFile file
  :: match loader_call w finalize file with
     | Some (e, _) => [e]
     | None => []
     end.

(** Kinds of events. *)
Definition is_stderr (e : event) : bool :=
  match e with
  | EvStderr _ => true
  | _ => false
  end.

Definition is_usage (e : event) : bool :=
  match e with
  | EvUsage => true
  | _ => false
  end.

Definition is_staging (e : event) : bool :=
  match e with
  | EvXmlReadFile _ | EvPatchLoad _ | EvProgramLoad _ | EvUfsLoad _ _ => true
  | _ => false
  end.

(** libusb calls and the two protocol engines, which drive the device. *)
Definition is_usb (e : event) : bool :=
  match e with
  | EvUsbInit | EvGetDeviceList | EvGetDeviceDescriptor _
  | EvGetConfigDescriptor _ _ | EvOpen _ | EvFreeDeviceList
  | EvClaimInterface _ _ | EvBulkTransfer _ _ _ _ _
  | EvSaharaRun _ _ | EvFirehoseRun _ _ _ => true
  | _ => false
  end.

Definition staging_or_stderr (e : event) : bool := is_staging e || is_stderr e.
Definition usb_or_stderr (e : event) : bool := is_usb e || is_stderr e.

(** A computation only adds events of kind [P] to the trace. *)
Definition emits {A} (P : event -> bool) (m : M A) : Prop :=
  forall h, exists t, snd (m h) = h ++ t /\ forallb P t = true.

(** [main] from [usb_open] on. *)
Definition session_phase (w : world) (o : options) (prog_mbn : string)
  : M Z :=
  r <- usb_open w (qdl_uninit w) ;;
  if c_true (fst r) then ret 1
  else
    emit (EvSaharaRun (snd r) prog_mbn) ;;;
    if sahara_run w (snd r) prog_mbn <? 0 then ret 1
    else
      emit (EvFirehoseRun (snd r) (incdir o) (storage o)) ;;;
      if firehose_run w (snd r) (incdir o) (storage o) <? 0 then ret 1
      else ret 0.

(** The walk of a device reaches interface [i] as the first one that
    passes the signature filter, having read [k] configuration
    descriptors; the descriptors up to there pass their checks, those
    behind are not constrained. *)
Inductive first_match (d : libusb_device) : nat -> libusb_interface -> Prop :=
| first_match_at cpre c cpost ipre i ipost :
    dev_bDescriptorType (snd (get_device_descriptor d)) = LIBUSB_DT_DEVICE ->
    config_descriptors d = cpre ++ c :: cpost ->
    (List.length cpre < Z.to_nat (bNumConfigurations
                                    (snd (get_device_descriptor d))))%nat ->
    forallb clean_config cpre = true ->
    fst c = 0 ->
    cfg_bDescriptorType (snd c) = LIBUSB_DT_CONFIG ->
    interface (snd c) = ipre ++ i :: ipost ->
    forallb clean_interface ipre = true ->
    interface_wf i = true ->
    signature_ok i = true ->
    first_match d (S (List.length cpre)) i.

(** *** Vocabulary for further properties *)

(** libusb's return value for the bulk transfer [e] asked after [h]. *)
Definition answer (w : world) (h : trace) (e : event) : Z :=
  match e with
  | EvBulkTransfer hnd ep data len timeout =>
      fst (libusb_bulk_transfer w h hnd ep data len timeout)
  | _ => 0
  end.

(** Everything a write of [len] bytes issues when nothing fails. *)
Definition write_transfers (qdl : qdl_device) (len : Z) (eot : bool)
  : trace :=
  out_transfers qdl 0 (spec_chunks (out_maxpktsize qdl) len)
  ++ (if eot && (len mod out_maxpktsize qdl =? 0) then [zlp qdl] else []).

(** How a computation can end: it returns a value in [Q] or exits with
    status 1; it neither traps nor runs forever. *)
Definition ends_with {A} (Q : A -> Prop) (m : M A) : Prop :=
  forall h,
    match fst (m h) with
    | Ret a => Q a
    | Exit code => code = 1
    | Trap => False
    | Diverge => False
    end.

(** All endpoints of a run of interfaces, in the order of the scan. *)
Definition endpoints_of (ifs : list libusb_interface)
  : list libusb_endpoint_descriptor :=
  flat_map (fun i => endpoint (altsetting i)) ifs.

(** What [detect_type] can see of a node. *)
Definition node_shape (n : xmlNode) : xmlElementType * string :=
  (node_type n, node_name n).

(** The argument of the last occurrence of option [c], if any. *)
Definition last_optarg (c : ascii) (opts : list (ascii * string))
  : option string :=
  fold_left (fun acc o => if Ascii.eqb (fst o) c then Some (snd o) else acc)
            opts None.

Definition has_option (c : ascii) (opts : list (ascii * string)) : bool :=
  existsb (fun o => Ascii.eqb (fst o) c) opts.

Definition flow_post {A R} (Q : R -> Prop) (f : flow A R) : Prop :=
  match f with
  | Next _ => True
  | Return r => Q r
  end.

(** *** Sample devices and worlds with failing libusb calls *)

(** A device whose device descriptor cannot be read. *)
Definition unreadable_device : libusb_device :=
  mk_device 500 (-1, mk_device_descriptor 0 0 0 0) [] (0, 11).

(** The download-mode device, but it cannot be opened. *)
Definition locked_device : libusb_device :=
  mk_device 600
            (0, mk_device_descriptor LIBUSB_DT_DEVICE 1478 36872 1)
            [(0, mk_config LIBUSB_DT_CONFIG [serial_interface; edl_interface])]
            (-3, 0).

(** A device that announces two configurations and delivers one. *)
Definition short_device : libusb_device :=
  mk_device 700
            (0, mk_device_descriptor LIBUSB_DT_DEVICE 1478 36872 2)
            [(0, mk_config LIBUSB_DT_CONFIG [serial_interface])]
            (0, 12).

(** A world in which no interface can be claimed. *)
Definition busy_world (usb : list libusb_device) : world :=
  mk_world sample_files (fun _ => 0) (fun _ => 0) (fun _ _ => 0)
           0 (Some usb) (fun _ _ => -6)
           (fun _ _ _ _ _ _ => (0, 0))
           (fun _ _ => 0) (fun _ _ _ => 0) (fun _ => 0).

(** A device whose serial interface has bulk endpoints and whose
    download-mode interface has none. *)
Definition split_device : libusb_device :=
  device_with 800 1478 36872 13 [serial_interface; bare_interface].

(** An interface of another class with a malformed endpoint. *)
Definition garbled_interface : libusb_interface :=
  mk_interface
    (mk_altsetting 9 LIBUSB_DT_INTERFACE 0 2 2 1
       [bulk_ep 132 64; mk_endpoint LIBUSB_DT_INTERFACE 4 2 64]).

(** Two documents with the same root name and the same element children
    by name, and different text, comments and nested content. *)
Definition twin_files (path : string) : option xmlDoc :=
  if String.eqb path "plain.xml" then
    Some (mk_xmlDoc (elem "data" [elem "foo" []; elem "program" []]))
  else if String.eqb path "busy.xml" then
    Some (mk_xmlDoc
            (elem "data"
                  [text_node; elem "foo" [elem "ufs" []];
                   mk_xmlNode XML_COMMENT_NODE "ufs" [];
                   elem "program" [text_node]]))
  else None.

(** *** Devices the walk passes over *)

(** The walk leaves device [d] without a choice and goes on to the next
    device, [t] being what it did on [d].  The device descriptor was
    read; then either the identity is another one, and nothing else of
    the device is looked at; or a descriptor fault is reached; or an
    alternate setting that fails its checks or its endpoint scan is
    reached; or all announced configurations were read and no interface
    passed the filter.  Whether the device could be opened plays no
    part, and neither does anything behind the point where the walk
    leaves the device. *)
Inductive passed_over (d : libusb_device) : trace -> Prop :=
| over_identity :
    fst (get_device_descriptor d) = 0 ->
    identity_ok d = false ->
    passed_over d [EvGetDeviceDescriptor (dev_ptr d)]
| over_fault t :
    fst (get_device_descriptor d) = 0 ->
    identity_ok d = true ->
    reaches_fault d t ->
    passed_over d t
| over_malformed cpre c cpost ipre i ipost :
    fst (get_device_descriptor d) = 0 ->
    identity_ok d = true ->
    dev_bDescriptorType (snd (get_device_descriptor d)) = LIBUSB_DT_DEVICE ->
    config_descriptors d = cpre ++ c :: cpost ->
    (List.length cpre < Z.to_nat (bNumConfigurations
                                    (snd (get_device_descriptor d))))%nat ->
    forallb clean_config cpre = true ->
    fst c = 0 ->
    cfg_bDescriptorType (snd c) = LIBUSB_DT_CONFIG ->
    interface (snd c) = ipre ++ i :: ipost ->
    forallb clean_interface ipre = true ->
    interface_wf i = false ->
    passed_over d (EvGetDeviceDescriptor (dev_ptr d)
                   :: config_reads d 0 (S (List.length cpre)))
| over_walked cs rest :
    fst (get_device_descriptor d) = 0 ->
    identity_ok d = true ->
    dev_bDescriptorType (snd (get_device_descriptor d)) = LIBUSB_DT_DEVICE ->
    config_descriptors d = cs ++ rest ->
    List.length cs = Z.to_nat (bNumConfigurations
                                 (snd (get_device_descriptor d))) ->
    forallb clean_config cs = true ->
    passed_over d (EvGetDeviceDescriptor (dev_ptr d)
                   :: config_reads d 0 (List.length cs)).

(** A run of devices that are passed over one after the other. *)
Inductive all_passed_over : list libusb_device -> trace -> Prop :=
| passed_nil : all_passed_over [] []
| passed_cons d t ds ts :
    passed_over d t ->
    all_passed_over ds ts ->
    all_passed_over (d :: ds) (t ++ ts).


(** libusb answered 0 to every transfer of [t], the first asked after
    [h] and each further one after those before it. *)
Fixpoint accepted (w : world) (h t : trace) : bool :=
  match t with
  | [] => true
  | e :: rest => (answer w h e =? 0) && accepted w (h ++ [e]) rest
  end.

(** What [parse_usb_desc] hands back when it selects: 0 with the number
    of the first interface [i] of [d] that passes the filter and a
    session made from [d] alone: the handle of [libusb_open] and the
    automatic variables as the endpoint scans of the interfaces of [d]
    up to and including [i] leave them. *)
Definition selected (w : world) (d : libusb_device) (res : parse_result)
  : Prop :=
  fst (libusb_open d) = 0
  /\ exists cpre c cpost ipre i ipost l,
       config_descriptors d = cpre ++ c :: cpost
       /\ interface (snd c) = ipre ++ i :: ipost
       /\ forallb (fun x => negb (signature_ok x)) (interfaces_of cpre ++ ipre)
          = true
       /\ signature_ok i = true
       /\ endpoint_loop (endpoints_of (interfaces_of cpre ++ ipre ++ [i]))
                        no_locals = Some l
       /\ res = (0, session_of w d l, bInterfaceNumber (altsetting i)).

Definition flow_ends {A R} (N : A -> Prop) (Q : R -> Prop) (f : flow A R)
  : Prop :=
  match f with
  | Next a => N a
  | Return r => Q r
  end.

(** *** Further sample devices *)

(** A device of another identity with consistent descriptors that
    cannot be opened. *)
Definition hub_device : libusb_device :=
  mk_device 900
            (0, mk_device_descriptor LIBUSB_DT_DEVICE 7531 2 1)
            [(0, mk_config LIBUSB_DT_CONFIG [serial_interface])]
            (-3, 0).

(** A device of another identity whose device descriptor has the wrong
    type and whose configuration cannot be read. *)
Definition odd_device : libusb_device :=
  mk_device 950
            (0, mk_device_descriptor LIBUSB_DT_CONFIG 7531 3 1)
            [(-1, mk_config 0 [broken_interface])]
            (0, 14).

(** The fixed identity and a download-mode interface behind an
    interface with a malformed endpoint. *)
Definition garbled_device : libusb_device :=
  device_with 1000 1478 36872 15 [garbled_interface; edl_interface].

(** ** Facts on the integer conversions *)

Lemma to_int_small z : INT_MIN <= z <= INT_MAX -> to_int z = z.
Proof.
  unfold to_int, INT_MIN, INT_MAX. intros H.
  rewrite Z.mod_small by lia. lia.
Qed.

Lemma to_int_le z : 0 <= z -> to_int z <= z.
Proof.
  intros H. unfold to_int.
  pose proof (Z.mod_le (z + 2147483648) 4294967296 ltac:(lia) ltac:(lia)).
  lia.
Qed.

Lemma to_size_t_small z : 0 <= z <= INT_MAX -> to_size_t z = z.
Proof.
  unfold to_size_t, INT_MAX. intros H. apply Z.mod_small. lia.
Qed.

Lemma c_true_iff z : c_true z = true <-> z <> 0.
Proof.
  unfold c_true. rewrite negb_true_iff, Z.eqb_neq. tauto.
Qed.

(** ** The blocking reader *)

(** C6: [qdl_read] issues one bulk transfer on the IN endpoint, asking
    for [len] converted to [int] (never more than [len]) with the
    caller's timeout, and returns the transferred count when libusb
    answers 0, the libusb error code unchanged otherwise; nothing else
    is done, in particular no second transfer. *)
Theorem qdl_read_single_transfer (w : world) (qdl : qdl_device)
  (len timeout : Z) (h : trace) :
  0 <= len ->
  let answer :=
    libusb_bulk_transfer w h (handle qdl) (to_uchar (in_ep qdl)) (Some 0)
                         (to_int len) timeout in
  qdl_read w qdl len timeout h =
    (Ret (if fst answer =? 0 then snd answer else fst answer),
     h ++ [EvBulkTransfer (handle qdl) (to_uchar (in_ep qdl)) (Some 0)
                          (to_int len) timeout])
  /\ to_int len <= len.
Proof.
  intros Hlen answer. split; [| now apply to_int_le].
  unfold qdl_read, bind, bulk_transfer, ret. fold answer.
  destruct answer as [r t]. cbn [fst snd].
  unfold c_true. now destruct (r =? 0).
Qed.

Lemma qdl_read_single_transfer_witness :
  qdl_read quiet_world sample_qdl 64 1000 [] =
    (Ret 0, [EvBulkTransfer 1 129 (Some 0) 64 1000]).
Proof.
  exact (proj1 (qdl_read_single_transfer quiet_world sample_qdl 64 1000 []
                  ltac:(lia))).
Defined.

(** ** The chunked writer *)

Section Chunks.

Variable P : Z.
Hypothesis P_pos : 0 < P.

Lemma spec_chunks_0 : spec_chunks P 0 = [].
Proof.
  unfold spec_chunks. rewrite Z.div_0_l, Z.mod_0_l by lia. reflexivity.
Qed.

Lemma spec_chunks_last size :
  0 < size <= P -> spec_chunks P size = [size].
Proof.
  intros H. unfold spec_chunks.
  destruct (Z.eq_dec size P) as [->|Hne].
  - rewrite Z.div_same, Z.mod_same by lia. reflexivity.
  - rewrite Z.div_small, Z.mod_small by lia.
    destruct (size =? 0) eqn:E; [lia | reflexivity].
Qed.

Lemma spec_chunks_step size :
  P < size -> spec_chunks P size = P :: spec_chunks P (size - P).
Proof.
  intros H. unfold spec_chunks.
  assert (size / P = (size - P) / P + 1) as Ediv.
  { replace size with ((size - P) + 1 * P) at 1 by lia.
    now rewrite Z.div_add by lia. }
  assert (size mod P = (size - P) mod P) as Emod.
  { replace size with ((size - P) + 1 * P) at 1 by lia.
    now rewrite Z.mod_add by lia. }
  assert (0 <= (size - P) / P) by (apply Z.div_pos; lia).
  rewrite Ediv, Emod.
  replace (Z.to_nat ((size - P) / P + 1)) with (S (Z.to_nat ((size - P) / P)))
    by lia.
  reflexivity.
Qed.

Lemma sum_app l1 l2 : sum (l1 ++ l2) = sum l1 + sum l2.
Proof.
  induction l1 as [|a l1 IH]; cbn; [reflexivity | fold (sum (l1 ++ l2))].
  fold (sum l1). lia.
Qed.

Lemma sum_repeat n : sum (repeat P n) = Z.of_nat n * P.
Proof.
  induction n as [|n IH]; [reflexivity |].
  cbn [repeat]. change (sum (P :: repeat P n)) with (P + sum (repeat P n)).
  lia.
Qed.

Lemma spec_chunks_sum len : 0 <= len -> sum (spec_chunks P len) = len.
Proof.
  intros H. unfold spec_chunks. rewrite sum_app, sum_repeat.
  assert (0 <= len / P) by (apply Z.div_pos; lia).
  rewrite Z2Nat.id by assumption.
  pose proof (Z.div_mod len P ltac:(lia)) as E.
  destruct (len mod P =? 0) eqn:M; cbn.
  - apply Z.eqb_eq in M. lia.
  - lia.
Qed.

Lemma spec_chunks_bounds len :
  0 <= len -> Forall (fun c => 0 < c <= P) (spec_chunks P len).
Proof.
  intros H. unfold spec_chunks. apply Forall_app. split.
  - apply Forall_forall. intros c Hc. apply repeat_spec in Hc. lia.
  - pose proof (Z.mod_pos_bound len P P_pos).
    destruct (len mod P =? 0) eqn:M; constructor; [| constructor].
    apply Z.eqb_neq in M. lia.
Qed.

Lemma spec_chunks_full len i :
  (S i < List.length (spec_chunks P len))%nat -> nth i (spec_chunks P len) 0 = P.
Proof.
  unfold spec_chunks. intros H.
  rewrite length_app, repeat_length in H.
  assert (i < Z.to_nat (len / P))%nat as Hi
    by (destruct (len mod P =? 0); cbn in H; lia).
  rewrite app_nth1 by (now rewrite repeat_length).
  now apply nth_repeat_lt.
Qed.

Lemma last_repeat n d : last (repeat P (S n)) d = P.
Proof.
  induction n as [|n IH]; [reflexivity |].
  change (repeat P (S (S n))) with (P :: repeat P (S n)).
  cbn [last]. cbn [repeat] in *. exact IH.
Qed.

Lemma spec_chunks_tail len :
  0 < len ->
  last (spec_chunks P len) 0 = if len mod P =? 0 then P else len mod P.
Proof.
  intros H. unfold spec_chunks.
  destruct (len mod P =? 0) eqn:M.
  - rewrite app_nil_r. apply Z.eqb_eq in M.
    assert (0 < len / P).
    { pose proof (Z.div_mod len P ltac:(lia)).
      assert (0 <= len / P) by (apply Z.div_pos; lia). nia. }
    destruct (Z.to_nat (len / P)) eqn:E; [lia |]. apply last_repeat.
  - apply last_last.
Qed.

End Chunks.

Lemma firstn_then_skipn {A} (n m : nat) (L : list A) :
  firstn n L ++ firstn m (skipn n L) = firstn (n + m) L.
Proof.
  revert L. induction n as [|n IH]; intros L; [reflexivity |].
  destruct L as [|x L]; cbn [firstn skipn Nat.add app].
  - now rewrite firstn_nil.
  - f_equal. apply IH.
Qed.

Lemma sum_nonneg (l : list Z) : Forall (fun c => 0 <= c) l -> 0 <= sum l.
Proof.
  induction 1 as [|a l Ha _ IH]; cbn; [lia |]. fold (sum l). lia.
Qed.

Lemma payload_out_transfers (B : list Byte.byte) (qdl : qdl_device)
  (chunks : list Z) :
  Forall (fun c => 0 <= c) chunks ->
  forall off, 0 <= off ->
  List.concat (map (payload B) (out_transfers qdl off chunks)) =
    firstn (Z.to_nat (sum chunks)) (skipn (Z.to_nat off) B).
Proof.
  induction 1 as [|c cs Hc Hcs IH]; intros off Hoff; [reflexivity |].
  cbn [out_transfers map List.concat payload].
  rewrite IH by lia.
  pose proof (sum_nonneg cs Hcs).
  change (sum (c :: cs)) with (c + sum cs).
  replace (Z.to_nat (c + sum cs)) with (Z.to_nat c + Z.to_nat (sum cs))%nat
    by lia.
  replace (Z.to_nat (off + c)) with (Z.to_nat c + Z.to_nat off)%nat
    by lia.
  rewrite <- skipn_skipn.
  apply firstn_then_skipn.
Qed.

Section Writer.

Variable w : world.
Variable qdl : qdl_device.

(** The transfer length the loop body computes from [size]. *)
Lemma xfer_value size :
  0 < size <= INT_MAX -> 0 <= out_maxpktsize qdl ->
  to_int (if to_size_t size >? out_maxpktsize qdl
          then out_maxpktsize qdl else to_size_t size)
  = Z.min size (out_maxpktsize qdl).
Proof.
  intros Hs HP. rewrite to_size_t_small by lia.
  destruct (size >? out_maxpktsize qdl) eqn:E.
  - apply Z.gtb_lt in E. rewrite to_int_small; unfold INT_MIN, INT_MAX in *; lia.
  - rewrite Z.gtb_ltb in E. apply Z.ltb_ge in E.
    rewrite to_int_small; unfold INT_MIN, INT_MAX in *; lia.
Qed.

Lemma write_loop_run (Hok : transfers_ok w) (HP : 0 < out_maxpktsize qdl) :
  forall fuel size writed off h,
    0 <= size -> 0 <= writed -> writed + size <= INT_MAX ->
    (Z.to_nat size <= fuel)%nat ->
    write_loop w fuel qdl size writed off h =
      (Ret (writed + size),
       h ++ out_transfers qdl off (spec_chunks (out_maxpktsize qdl) size)).
Proof.
  induction fuel as [|fuel IH]; intros size writed off h Hs Hw Hmax Hfuel.
  - assert (size = 0) as -> by lia. cbn [write_loop Z.gtb Z.compare].
    rewrite spec_chunks_0 by assumption. unfold ret.
    now rewrite Z.add_0_r, app_nil_r.
  - cbn [write_loop]. destruct (size >? 0) eqn:E.
    + apply Z.gtb_lt in E.
      rewrite xfer_value by lia.
      unfold bind at 1. unfold bulk_transfer. cbn [fst].
      rewrite Hok. cbn [c_true Z.eqb negb].
      assert (0 < Z.min size (out_maxpktsize qdl) <= size) as Hx by lia.
      rewrite (to_int_small (size - _)), (to_int_small (writed + _))
        by (unfold INT_MIN, INT_MAX in *; lia).
      rewrite IH by lia.
      f_equal; [f_equal; lia |].
      rewrite <- app_assoc. f_equal. cbn [app].
      destruct (Z_lt_le_dec (out_maxpktsize qdl) size) as [Hlt|Hge].
      * rewrite Z.min_r by lia.
        now rewrite (spec_chunks_step _ HP size Hlt).
      * rewrite Z.min_l by lia. rewrite Z.sub_diag.
        rewrite spec_chunks_0 by assumption.
        rewrite (spec_chunks_last _ HP size) by lia. reflexivity.
    + rewrite Z.gtb_ltb in E. apply Z.ltb_ge in E.
      assert (size = 0) as -> by lia.
      rewrite spec_chunks_0 by assumption. unfold ret.
      now rewrite Z.add_0_r, app_nil_r.
Qed.

Lemma write_loop_returns (HP : 0 <= out_maxpktsize qdl) :
  forall fuel size writed off h n h',
    0 <= size -> 0 <= writed -> writed + size <= INT_MAX ->
    write_loop w fuel qdl size writed off h = (Ret n, h') ->
    n = writed + size.
Proof.
  induction fuel as [|fuel IH]; intros size writed off h n h' Hs Hw Hmax;
    cbn [write_loop]; destruct (size >? 0) eqn:E;
    try (rewrite Z.gtb_ltb in E; apply Z.ltb_ge in E;
         unfold ret; intros [= <- <-]; lia).
  - discriminate.
  - apply Z.gtb_lt in E. rewrite xfer_value by lia.
    unfold bind at 1. unfold bulk_transfer. cbn [fst].
    destruct (c_true _); [discriminate |].
    assert (0 <= Z.min size (out_maxpktsize qdl) <= size) as Hx by lia.
    rewrite (to_int_small (size - _)), (to_int_small (writed + _))
      by (unfold INT_MIN, INT_MAX in *; lia).
    intros Hrun. apply IH in Hrun; lia.
Qed.

(** Whatever libusb answers: a loop that is left normally has issued
    the prescribed transfers. *)
Lemma write_loop_trace (HP : 0 < out_maxpktsize qdl) :
  forall fuel size writed off h n h',
    0 <= size -> 0 <= writed -> writed + size <= INT_MAX ->
    write_loop w fuel qdl size writed off h = (Ret n, h') ->
    h' = h ++ out_transfers qdl off (spec_chunks (out_maxpktsize qdl) size).
Proof.
  induction fuel as [|fuel IH]; intros size writed off h n h' Hs Hw Hmax;
    cbn [write_loop]; destruct (size >? 0) eqn:E;
    try (rewrite Z.gtb_ltb in E; apply Z.ltb_ge in E;
         assert (size = 0) as -> by lia;
         rewrite spec_chunks_0 by assumption;
         unfold ret; intros [= _ <-]; now rewrite app_nil_r).
  - discriminate.
  - apply Z.gtb_lt in E. rewrite xfer_value by lia.
    unfold bind at 1. unfold bulk_transfer. cbn [fst].
    destruct (c_true _); [discriminate |].
    assert (0 < Z.min size (out_maxpktsize qdl) <= size) as Hx by lia.
    rewrite (to_int_small (size - _)), (to_int_small (writed + _))
      by (unfold INT_MIN, INT_MAX in *; lia).
    intros Hrun. apply IH in Hrun; try lia. rewrite Hrun.
    rewrite <- app_assoc. f_equal. cbn [app].
    destruct (Z_lt_le_dec (out_maxpktsize qdl) size) as [Hlt|Hge].
    + rewrite Z.min_r by lia.
      now rewrite (spec_chunks_step _ HP size Hlt).
    + rewrite Z.min_l by lia. rewrite Z.sub_diag.
      rewrite spec_chunks_0 by assumption.
      rewrite (spec_chunks_last _ HP size) by lia. reflexivity.
Qed.

End Writer.

Lemma qdl_write_run (w : world) (qdl : qdl_device) (len : Z) (eot : bool)
  (h : trace) :
  0 <= len <= INT_MAX ->
  0 < out_maxpktsize qdl ->
  transfers_ok w ->
  qdl_write w qdl len eot h =
    (Ret len,
     h ++ out_transfers qdl 0 (spec_chunks (out_maxpktsize qdl) len)
       ++ (if eot && (len mod out_maxpktsize qdl =? 0)
           then [zlp qdl] else [])).
Proof.
  intros Hlen HP Hok.
  unfold qdl_write. rewrite to_int_small by (unfold INT_MIN; lia).
  unfold bind at 1.
  rewrite (write_loop_run w qdl Hok HP) by lia.
  rewrite Z.add_0_l. unfold bind at 1.
  destruct eot; cbn [andb].
  - destruct (out_maxpktsize qdl =? 0) eqn:E0;
      [apply Z.eqb_eq in E0; lia |].
    destruct (len mod out_maxpktsize qdl =? 0).
    + unfold bind at 1. unfold bulk_transfer. cbn [fst].
      rewrite Hok. cbn [c_true Z.eqb negb]. unfold ret, zlp.
      now rewrite <- app_assoc.
    + unfold ret. now rewrite app_nil_r.
  - unfold ret. now rewrite app_nil_r.
Qed.

Lemma qdl_write_returned (w : world) (qdl : qdl_device) (len : Z)
  (eot : bool) (h : trace) (n : Z) (h' : trace) :
  0 <= len <= INT_MAX ->
  0 < out_maxpktsize qdl ->
  qdl_write w qdl len eot h = (Ret n, h') ->
  n = len
  /\ h' = h ++ out_transfers qdl 0 (spec_chunks (out_maxpktsize qdl) len)
            ++ (if eot && (len mod out_maxpktsize qdl =? 0)
                then [zlp qdl] else []).
Proof.
  intros Hlen HP. unfold qdl_write.
  rewrite to_int_small by (unfold INT_MIN; lia).
  unfold bind at 1.
  destruct (write_loop w _ qdl len 0 0 h) as [[a| | |] h1] eqn:Hloop;
    try discriminate.
  assert (a = 0 + len) as Ha
    by (apply (write_loop_returns w qdl) in Hloop; lia).
  apply (write_loop_trace w qdl HP) in Hloop; try lia. subst a h1.
  rewrite Z.add_0_l. unfold bind at 1.
  destruct eot; cbn [andb].
  - destruct (out_maxpktsize qdl =? 0); [discriminate |].
    destruct (len mod out_maxpktsize qdl =? 0).
    + unfold bind at 1. unfold bulk_transfer. cbn [fst].
      destruct (c_true _); [discriminate |].
      unfold ret, zlp. intros [= <- <-]. now rewrite <- app_assoc.
    + unfold ret. intros [= <- <-]. now rewrite app_nil_r.
  - unfold ret. intros [= <- <-]. now rewrite app_nil_r.
Qed.

(** C1 (amended): for a buffer [B] of at most [INT_MAX] bytes and a
    packet size [P > 0], a [qdl_write] that returns has returned [len(B)]
    after a run of bulk-OUT transfers over consecutive parts of [B],
    followed by one zero-length transfer exactly when [eot] is set and
    [P] divides [len(B)]; and it does return when no transfer reports an
    error.  The lengths of the data transfers are positive and sum to
    [len(B)]; all but the last are [P]; the last is [len(B) mod P], or
    [P] when that is 0; together they carry [B]. *)
Theorem qdl_write_chunks (w : world) (qdl : qdl_device)
  (B : list Byte.byte) (len : Z) (eot : bool) (h : trace) :
  len = Z.of_nat (List.length B) ->
  0 < out_maxpktsize qdl ->
  len <= INT_MAX ->
  exists chunks : list Z,
    (forall n h',
       qdl_write w qdl len eot h = (Ret n, h') ->
       n = len
       /\ h' = h ++ out_transfers qdl 0 chunks
                 ++ (if eot && (len mod out_maxpktsize qdl =? 0)
                     then [zlp qdl] else []))
    /\ (transfers_ok w ->
        qdl_write w qdl len eot h =
          (Ret len,
           h ++ out_transfers qdl 0 chunks
             ++ (if eot && (len mod out_maxpktsize qdl =? 0)
                 then [zlp qdl] else [])))
    /\ sum chunks = len
    /\ Forall (fun c => 0 < c <= out_maxpktsize qdl) chunks
    /\ (forall i, (S i < List.length chunks)%nat ->
                  nth i chunks 0 = out_maxpktsize qdl)
    /\ (0 < len ->
        last chunks 0 = if len mod out_maxpktsize qdl =? 0
                        then out_maxpktsize qdl
                        else len mod out_maxpktsize qdl)
    /\ List.concat (map (payload B) (out_transfers qdl 0 chunks)) = B.
Proof.
  intros HB HP Hmax.
  assert (0 <= len) as Hlen by lia.
  exists (spec_chunks (out_maxpktsize qdl) len).
  split; [| split; [| repeat split]].
  - intros n h' Hrun.
    apply (qdl_write_returned w qdl len eot h n h'); [lia | | ]; assumption.
  - intros Hok. apply qdl_write_run; [lia | assumption | assumption].
  - now apply spec_chunks_sum.
  - now apply spec_chunks_bounds.
  - intros i. now apply spec_chunks_full.
  - intros Hpos. now apply spec_chunks_tail.
  - rewrite payload_out_transfers.
    + rewrite spec_chunks_sum by assumption. subst len.
      rewrite Nat2Z.id. cbn [Z.to_nat skipn]. apply firstn_all.
    + eapply Forall_impl; [| apply spec_chunks_bounds; eassumption].
      cbn. intros; lia.
    + lia.
Qed.

Lemma qdl_write_chunks_witness :
  exists chunks : list Z,
    qdl_write quiet_world (mk_qdl 1 129 1 2 2) 5 true [] =
      (Ret 5, out_transfers (mk_qdl 1 129 1 2 2) 0 chunks)
    /\ sum chunks = 5.
Proof.
  destruct (qdl_write_chunks quiet_world (mk_qdl 1 129 1 2 2)
              (repeat Byte.x00 5) 5 true [])
    as (chunks & _ & Hrun & Hsum & _);
    [reflexivity | cbn; lia | unfold INT_MAX; lia |].
  exists chunks. split; [| exact Hsum].
  rewrite Hrun by (intros ? ? ? ? ? ?; reflexivity).
  cbn [andb Z.eqb out_maxpktsize Z.modulo]. cbn.
  now rewrite app_nil_r.
Defined.

(** C1 as stated fails beyond [INT_MAX]: [size] is an [int], so for a
    buffer of 2^31 bytes it starts negative and nothing is sent. *)
Lemma qdl_write_large_buffer :
  qdl_write quiet_world sample_qdl 2147483648 false [] = (Ret 0, [])
  /\ sum (bulk_lengths
            (snd (qdl_write quiet_world sample_qdl 2147483648 false [])))
     <> 2147483648.
Proof.
  split; [reflexivity | vm_compute; discriminate].
Qed.

(** C10 (amended): for a buffer of at most [INT_MAX] bytes, whatever
    [qdl_write] returns is [len], whatever byte counts libusb reported;
    and it does return [len] when no transfer reports an error and the
    packet size is positive. *)
Theorem qdl_write_returns_len (w : world) (qdl : qdl_device) (len : Z)
  (eot : bool) (h : trace) :
  0 <= len <= INT_MAX ->
  0 <= out_maxpktsize qdl ->
  (forall n h', qdl_write w qdl len eot h = (Ret n, h') -> n = len)
  /\ (transfers_ok w -> 0 < out_maxpktsize qdl ->
      fst (qdl_write w qdl len eot h) = Ret len).
Proof.
  intros Hlen HP. split.
  - intros n h'. unfold qdl_write.
    rewrite to_int_small by (unfold INT_MIN; lia).
    unfold bind at 1.
    destruct (write_loop w _ qdl len 0 0 h) as [[a| | |] h1] eqn:Hloop;
      try discriminate.
    apply (write_loop_returns w qdl HP) in Hloop; try lia.
    unfold bind at 1.
    destruct eot.
    + destruct (out_maxpktsize qdl =? 0); [discriminate |].
      destruct (len mod out_maxpktsize qdl =? 0).
      * unfold bind at 1. unfold bulk_transfer. cbn [fst].
        destruct (c_true _); [discriminate |].
        unfold ret. intros [= <- _]. lia.
      * unfold ret. intros [= <- _]. lia.
    + unfold ret. intros [= <- _]. lia.
  - intros Hok HP'.
    now rewrite qdl_write_run by assumption.
Qed.

Lemma qdl_write_returns_len_witness :
  fst (qdl_write quiet_world sample_qdl 1000 false []) = Ret 1000.
Proof.
  apply (qdl_write_returns_len quiet_world sample_qdl 1000 false []);
    [unfold INT_MAX; lia | cbn; lia | intros ? ? ? ? ? ?; reflexivity
    | cbn; lia].
Defined.

(** C10 as stated fails beyond [INT_MAX]: of a buffer of 2^32 + 5 bytes
    the writer sends 5 and returns 5. *)
Lemma qdl_write_wrapped_count :
  qdl_write quiet_world sample_qdl 4294967301 false [] =
    (Ret 5, [EvBulkTransfer 1 1 (Some 0) 5 0])
  /\ 5 <> 4294967301.
Proof.
  split; [reflexivity | discriminate].
Qed.

(** ** The file classifier *)

Lemma xmlStrcmp_eqb (a b : string) :
  negb (c_true (xmlStrcmp a b)) = String.eqb a b.
Proof.
  unfold xmlStrcmp, c_true. rewrite negb_involutive.
  destruct (String.eqb_spec a b) as [->|Hne].
  - pose proof (String.compare_antisym b b) as H.
    destruct (String.compare b b); (discriminate || reflexivity).
  - destruct (String.compare a b) eqn:E; try reflexivity.
    apply String.compare_eq_iff in E. contradiction.
Qed.

Lemma children_loop_find (nodes : list xmlNode) (type : Z) :
  children_loop nodes type =
    match find program_or_ufs (filter is_element nodes) with
    | Some child =>
        if String.eqb (node_name child) "program" then QDL_FILE_PROGRAM
        else QDL_FILE_UFS
    | None => type
    end.
Proof.
  induction nodes as [|node next IH]; [reflexivity |].
  cbn [children_loop filter]. unfold is_element at 1.
  destruct (node_type node); try exact IH.
  cbn [find]. unfold program_or_ufs at 1.
  rewrite !xmlStrcmp_eqb.
  destruct (String.eqb (node_name node) "program") eqn:Ep; cbn [orb].
  - now rewrite Ep.
  - destruct (String.eqb (node_name node) "ufs"); [now rewrite Ep | exact IH].
Qed.

Lemma root_tags_distinct (s : string) :
  String.eqb s "patches" = true \/ String.eqb s "data" = true ->
  String.eqb s "contents" = false.
Proof.
  intros [H|H]; apply String.eqb_eq in H; subst; reflexivity.
Qed.

Lemma detect_type_run (w : world) (f : string) (h : trace) :
  detect_type w f h =
    match xmlReadFile w f with
    | None =>
        (Ret (- EINVAL),
         h ++ [EvXmlReadFile f; EvStderr ("[PATCH] failed to parse " ++ f)])
    | Some doc => (Ret (kind_code (classify doc)), h ++ [EvXmlReadFile f])
    end.
Proof.
  unfold detect_type, bind, emit, ret.
  destruct (xmlReadFile w f) as [doc|]; [| now rewrite <- app_assoc].
  f_equal. f_equal. unfold classify.
  rewrite !xmlStrcmp_eqb, children_loop_find.
  destruct (String.eqb (node_name (xmlDocGetRootElement doc)) "patches")
    eqn:Ep; [reflexivity |].
  destruct (String.eqb (node_name (xmlDocGetRootElement doc)) "data") eqn:Ed.
  - rewrite root_tags_distinct by (now right).
    destruct (find _ _) as [child|]; [| reflexivity].
    now destruct (String.eqb (node_name child) "program").
  - now destruct
      (String.eqb (node_name (xmlDocGetRootElement doc)) "contents").
Qed.

(** C4: [detect_type] answers [-EINVAL] exactly when [xmlReadFile] gives
    no document (file unreadable or not well-formed); on a document it
    always returns normally, with the code of the kind the specification
    assigns: by root tag, and for a [data] root by the first element
    child named [program] or [ufs]; [Unknown] is an ordinary result. *)
Theorem detect_type_classify (w : world) (xml_file : string) (h : trace) :
  detect_type w xml_file h =
    match xmlReadFile w xml_file with
    | None =>
        (Ret (- EINVAL),
         h ++ [EvXmlReadFile xml_file;
               EvStderr ("[PATCH] failed to parse " ++ xml_file)])
    | Some doc =>
        (Ret (kind_code (classify doc)), h ++ [EvXmlReadFile xml_file])
    end
  /\ (fst (detect_type w xml_file h) = Ret (- EINVAL)
      <-> xmlReadFile w xml_file = None).
Proof.
  split; [apply detect_type_run |].
  rewrite detect_type_run.
  destruct (xmlReadFile w xml_file) as [doc|]; cbn [fst].
  - split; [| discriminate].
    intros [= H]. now destruct (classify doc).
  - tauto.
Qed.

(** The examples of the specification's list of testable properties. *)
Example detect_type_examples :
  map (fun f => fst (detect_type (world_with [] (fun _ => 0)) f []))
      ["patch0.xml"; "rawprogram0.xml"; "provision.xml"; "contents.xml";
       "widget.xml"; "comment.xml"; "missing.xml"]%string
  = [Ret QDL_FILE_PATCH; Ret QDL_FILE_PROGRAM; Ret QDL_FILE_UFS;
     Ret QDL_FILE_CONTENTS; Ret QDL_FILE_UNKNOWN; Ret QDL_FILE_UFS;
     Ret (- EINVAL)].
Proof. reflexivity. Qed.

(** ** The endpoint scan *)

Lemma endpoint_loop_cons e rest l :
  endpoint_loop (e :: rest) l =
    if negb (endpoint_wf e) then None
    else if negb (is_bulk e) then endpoint_loop rest l
    else if is_in e then endpoint_loop rest (set_in e l)
    else endpoint_loop rest (set_out e l).
Proof. reflexivity. Qed.

Lemma endpoint_loop_app eps1 eps2 l :
  endpoint_loop (eps1 ++ eps2) l =
    match endpoint_loop eps1 l with
    | Some l1 => endpoint_loop eps2 l1
    | None => None
    end.
Proof.
  revert l. induction eps1 as [|e eps1 IH]; intros l; [reflexivity |].
  rewrite <- app_comm_cons, !endpoint_loop_cons.
  destruct (negb (endpoint_wf e)); [reflexivity |].
  destruct (negb (is_bulk e)); [apply IH |].
  destruct (is_in e); apply IH.
Qed.

Lemma endpoint_loop_wf eps l :
  forallb endpoint_wf eps = true -> exists l', endpoint_loop eps l = Some l'.
Proof.
  revert l. induction eps as [|e eps IH]; intros l H.
  - now exists l.
  - cbn [forallb] in H. apply andb_true_iff in H as [He H].
    rewrite endpoint_loop_cons, He. cbn [negb].
    destruct (negb (is_bulk e)); [now apply IH |].
    destruct (is_in e); now apply IH.
Qed.

Lemma endpoint_loop_keeps_in eps l l' :
  forallb (fun e => negb (bulk_in e)) eps = true ->
  endpoint_loop eps l = Some l' ->
  v_in l' = v_in l /\ v_in_size l' = v_in_size l.
Proof.
  revert l. induction eps as [|e eps IH]; intros l H.
  - now intros [= <-].
  - cbn [forallb] in H. apply andb_true_iff in H as [He H].
    rewrite endpoint_loop_cons. unfold bulk_in in He.
    destruct (negb (endpoint_wf e)); [discriminate |].
    destruct (is_bulk e); cbn [negb]; [| now apply IH].
    destruct (is_in e); [discriminate |].
    intros Hrun. now apply IH in Hrun.
Qed.

Lemma endpoint_loop_keeps_out eps l l' :
  forallb (fun e => negb (bulk_out e)) eps = true ->
  endpoint_loop eps l = Some l' ->
  v_out l' = v_out l /\ v_out_size l' = v_out_size l.
Proof.
  revert l. induction eps as [|e eps IH]; intros l H.
  - now intros [= <-].
  - cbn [forallb] in H. apply andb_true_iff in H as [He H].
    rewrite endpoint_loop_cons. unfold bulk_out in He.
    destruct (negb (endpoint_wf e)); [discriminate |].
    destruct (is_bulk e); cbn [negb]; [| now apply IH].
    destruct (is_in e); [| discriminate].
    intros Hrun. now apply IH in Hrun.
Qed.

Lemma endpoint_loop_bulk_only eps l l' :
  endpoint_loop eps l = Some l' ->
  endpoint_loop (filter is_bulk eps) l = Some l'.
Proof.
  revert l. induction eps as [|e eps IH]; intros l; [easy |].
  rewrite endpoint_loop_cons. cbn [filter].
  destruct (endpoint_wf e) eqn:Hwf; cbn [negb]; [| discriminate].
  destruct (is_bulk e) eqn:Hb; cbn [negb]; [| apply IH].
  rewrite endpoint_loop_cons, Hwf, Hb. cbn [negb].
  destruct (is_in e); apply IH.
Qed.

(** The last bulk endpoint of a direction is the one the scan keeps. *)
Lemma endpoint_loop_last_in before e after l l' :
  bulk_in e = true ->
  forallb (fun x => negb (bulk_in x)) after = true ->
  endpoint_loop (before ++ e :: after) l = Some l' ->
  v_in l' = Some (bEndpointAddress e)
  /\ v_in_size l' = Some (wMaxPacketSize e).
Proof.
  intros He Hafter. rewrite endpoint_loop_app.
  destruct (endpoint_loop before l) as [l1|]; [| discriminate].
  rewrite endpoint_loop_cons. unfold bulk_in in He.
  apply andb_true_iff in He as [-> ->].
  destruct (negb (endpoint_wf e)); [discriminate |]. cbn [negb].
  intros Hrun. now apply endpoint_loop_keeps_in in Hrun.
Qed.

Lemma endpoint_loop_last_out before e after l l' :
  bulk_out e = true ->
  forallb (fun x => negb (bulk_out x)) after = true ->
  endpoint_loop (before ++ e :: after) l = Some l' ->
  v_out l' = Some (bEndpointAddress e)
  /\ v_out_size l' = Some (wMaxPacketSize e).
Proof.
  intros He Hafter. rewrite endpoint_loop_app.
  destruct (endpoint_loop before l) as [l1|]; [| discriminate].
  rewrite endpoint_loop_cons. unfold bulk_out in He.
  apply andb_true_iff in He as [-> Hdir].
  apply negb_true_iff in Hdir. rewrite Hdir.
  destruct (negb (endpoint_wf e)); [discriminate |]. cbn [negb].
  intros Hrun. now apply endpoint_loop_keeps_out in Hrun.
Qed.

Lemma endpoint_loop_malformed eps l :
  forallb endpoint_wf eps = false -> endpoint_loop eps l = None.
Proof.
  revert l. induction eps as [|e eps IH]; intros l; [discriminate |].
  cbn [forallb]. rewrite endpoint_loop_cons.
  destruct (endpoint_wf e); cbn [andb negb]; [| reflexivity].
  intros H. destruct (negb (is_bulk e)); [now apply IH |].
  destruct (is_in e); now apply IH.
Qed.

(** ** The interface and configuration loops *)

Section Walk.

Variable w : world.
Variable device : libusb_device.
Variable qdl : qdl_device.
Variable intf : Z.

Lemma interface_loop_cons i rest l :
  interface_loop w device qdl intf (i :: rest) l =
    if negb (if_bDescriptorType (altsetting i) =? LIBUSB_DT_INTERFACE)
    then ret (Return (- EINVAL, qdl, intf))
    else if if_bLength (altsetting i) <? LIBUSB_DT_INTERFACE_SIZE
    then ret (Return (- EINVAL, qdl, intf))
    else
      match endpoint_loop (endpoint (altsetting i)) l with
      | None => ret (Return (- EINVAL, qdl, intf))
      | Some l' =>
          if signature_ok i then
            emit (EvOpen (dev_ptr device)) ;;;
            if c_true (fst (libusb_open device))
            then err 1 "failed to open, errcode: %d"
            else ret (Return (0, session_of w device l', bInterfaceNumber (altsetting i)))
          else interface_loop w device qdl intf rest l'
      end.
Proof.
  cbn [interface_loop]. unfold signature_ok, session_of.
  destruct (negb (if_bDescriptorType (altsetting i) =? LIBUSB_DT_INTERFACE));
    [reflexivity |].
  destruct (if_bLength (altsetting i) <? LIBUSB_DT_INTERFACE_SIZE);
    [reflexivity |].
  destruct (endpoint_loop (endpoint (altsetting i)) l) as [l'|];
    [| reflexivity].
  destruct (bInterfaceClass (altsetting i) =? 255); [| reflexivity].
  destruct (bInterfaceSubClass (altsetting i) =? 255); [| reflexivity].
  destruct (bInterfaceProtocol (altsetting i) =? 255); [reflexivity |].
  destruct (bInterfaceProtocol (altsetting i) =? 16); reflexivity.
Qed.

Lemma interface_wf_loop i l :
  interface_wf i = true ->
  (if_bDescriptorType (altsetting i) =? LIBUSB_DT_INTERFACE) = true
  /\ (if_bLength (altsetting i) <? LIBUSB_DT_INTERFACE_SIZE) = false
  /\ exists l', endpoint_loop (endpoint (altsetting i)) l = Some l'.
Proof.
  unfold interface_wf. rewrite !andb_true_iff. intros [[Ht Hl] He].
  repeat split; [exact Ht | | now apply endpoint_loop_wf].
  apply Z.leb_le in Hl. apply Z.ltb_ge. exact Hl.
Qed.

(** Interfaces that are passed over only move the automatic variables. *)
Lemma interface_loop_skip ipre rest l h :
  forallb clean_interface ipre = true ->
  interface_loop w device qdl intf (ipre ++ rest) l h =
    interface_loop w device qdl intf rest (scan_interfaces ipre l) h.
Proof.
  revert l. induction ipre as [|i ipre IH]; intros l H; [reflexivity |].
  cbn [forallb] in H. apply andb_true_iff in H as [Hi H].
  unfold clean_interface in Hi. apply andb_true_iff in Hi as [Hwf Hsig].
  apply negb_true_iff in Hsig.
  destruct (interface_wf_loop i l Hwf) as (Ht & Hl & l' & Hscan).
  rewrite <- app_comm_cons, interface_loop_cons, Ht, Hl, Hscan, Hsig.
  cbn [negb]. rewrite IH by assumption.
  cbn [scan_interfaces fold_left]. now rewrite Hscan.
Qed.

Lemma interface_loop_clean ifs l h :
  forallb clean_interface ifs = true ->
  interface_loop w device qdl intf ifs l h =
    (Ret (Next (scan_interfaces ifs l)), h).
Proof.
  intros H. rewrite <- (app_nil_r ifs) at 1.
  now rewrite interface_loop_skip.
Qed.

(** The first interface that passes the filter is chosen. *)
Lemma interface_loop_select ipre i ipost l h :
  forallb clean_interface ipre = true ->
  interface_wf i = true ->
  signature_ok i = true ->
  fst (libusb_open device) = 0 ->
  exists l',
    endpoint_loop (endpoint (altsetting i)) (scan_interfaces ipre l) = Some l'
    /\ interface_loop w device qdl intf (ipre ++ i :: ipost) l h =
         (Ret (Return (0, session_of w device l', bInterfaceNumber (altsetting i))),
          h ++ [EvOpen (dev_ptr device)]).
Proof.
  intros Hpre Hwf Hsig Hopen.
  destruct (interface_wf_loop i (scan_interfaces ipre l) Hwf)
    as (Ht & Hl & l' & Hscan).
  exists l'. split; [exact Hscan |].
  rewrite interface_loop_skip by assumption.
  rewrite interface_loop_cons, Ht, Hl, Hscan, Hsig. cbn [negb].
  unfold bind, emit. now rewrite Hopen.
Qed.

(** A faulty alternate setting ends the walk of the device. *)
Lemma interface_loop_fault ipre i ipost l h :
  forallb clean_interface ipre = true ->
  if_bDescriptorType (altsetting i) <> LIBUSB_DT_INTERFACE
  \/ if_bLength (altsetting i) < LIBUSB_DT_INTERFACE_SIZE ->
  interface_loop w device qdl intf (ipre ++ i :: ipost) l h =
    (Ret (Return (- EINVAL, qdl, intf)), h).
Proof.
  intros Hpre Hbad. rewrite interface_loop_skip by assumption.
  rewrite interface_loop_cons.
  destruct (if_bDescriptorType (altsetting i) =? LIBUSB_DT_INTERFACE) eqn:Et;
    [| reflexivity].
  cbn [negb]. apply Z.eqb_eq in Et.
  destruct Hbad as [Hbad|Hbad]; [contradiction |].
  apply Z.ltb_lt in Hbad. now rewrite Hbad.
Qed.

(** An alternate setting that fails a check or its endpoint scan ends
    the walk of the device as well. *)
Lemma interface_loop_malformed ipre i ipost l h :
  forallb clean_interface ipre = true ->
  interface_wf i = false ->
  interface_loop w device qdl intf (ipre ++ i :: ipost) l h =
    (Ret (Return (- EINVAL, qdl, intf)), h).
Proof.
  intros Hpre Hbad. rewrite interface_loop_skip by assumption.
  rewrite interface_loop_cons. unfold interface_wf in Hbad.
  destruct (if_bDescriptorType (altsetting i) =? LIBUSB_DT_INTERFACE);
    [| reflexivity].
  cbn [negb andb] in *.
  destruct (if_bLength (altsetting i) <? LIBUSB_DT_INTERFACE_SIZE) eqn:El;
    [reflexivity |].
  apply Z.ltb_ge in El. apply Z.leb_le in El. rewrite El in Hbad.
  cbn [andb] in Hbad. now rewrite endpoint_loop_malformed.
Qed.

End Walk.

Section Configurations.

Variable w : world.
Variable device : libusb_device.
Variable qdl : qdl_device.
Variable intf : Z.

Lemma get_config_at done c rest :
  config_descriptors device = done ++ c :: rest ->
  libusb_get_config_descriptor device (Z.of_nat (List.length done)) = c.
Proof.
  intros H. unfold libusb_get_config_descriptor.
  destruct (Z.of_nat (List.length done) <? 0) eqn:E;
    [apply Z.ltb_lt in E; lia |].
  rewrite Nat2Z.id, H. apply nth_middle.
Qed.

Lemma scan_interfaces_app ifs1 ifs2 l :
  scan_interfaces (ifs1 ++ ifs2) l =
    scan_interfaces ifs2 (scan_interfaces ifs1 l).
Proof. apply fold_left_app. Qed.

Lemma config_reads_cons first count :
  config_reads device first (S count) =
    EvGetConfigDescriptor (dev_ptr device) (Z.of_nat first)
    :: config_reads device (S first) count.
Proof. reflexivity. Qed.

Lemma config_reads_snoc first count :
  config_reads device first (S count) =
    config_reads device first count
    ++ [EvGetConfigDescriptor (dev_ptr device) (Z.of_nat (first + count))].
Proof.
  unfold config_reads. now rewrite seq_S, map_app.
Qed.

(** One iteration of the configuration loop on a readable configuration
    descriptor of the right type. *)
Lemma config_loop_step done c rest n l h :
  config_descriptors device = done ++ c :: rest ->
  fst c = 0 ->
  cfg_bDescriptorType (snd c) = LIBUSB_DT_CONFIG ->
  config_loop w device qdl intf (S n) (Z.of_nat (List.length done)) l h =
    match interface_loop w device qdl intf (interface (snd c)) l
            (h ++ [EvGetConfigDescriptor (dev_ptr device)
                                         (Z.of_nat (List.length done))]) with
    | (Ret (Return res), h') => (Ret res, h')
    | (Ret (Next l'), h') =>
        config_loop w device qdl intf n (Z.of_nat (List.length (done ++ [c])))
                    l' h'
    | (Exit code, h') => (Exit code, h')
    | (Trap, h') => (Trap, h')
    | (Diverge, h') => (Diverge, h')
    end.
Proof.
  intros Hcfg Hret Htype. cbn [config_loop].
  rewrite (get_config_at done c rest Hcfg), Hret, Htype.
  cbn [c_true Z.eqb negb]. rewrite Z.eqb_refl. cbn [negb].
  unfold bind at 1. unfold emit at 1. unfold bind at 1.
  destruct (interface_loop w device qdl intf (interface (snd c)) l _)
    as [[[l'|res]| | |] h']; try reflexivity.
  rewrite length_app. cbn [List.length].
  now replace (Z.of_nat (List.length done + 1))
    with (Z.of_nat (List.length done) + 1) by lia.
Qed.

(** Configurations that are passed over. *)
Lemma config_loop_skip cpre :
  forall done rest n l h,
    config_descriptors device = done ++ cpre ++ rest ->
    forallb clean_config cpre = true ->
    config_loop w device qdl intf (List.length cpre + n)
                (Z.of_nat (List.length done)) l h =
      config_loop w device qdl intf n
                  (Z.of_nat (List.length (done ++ cpre)))
                  (scan_configs cpre l)
                  (h ++ config_reads device (List.length done)
                                     (List.length cpre)).
Proof.
  induction cpre as [|c cpre IH]; intros done rest n l h Hcfg Hclean.
  - cbn. now rewrite !app_nil_r.
  - cbn [forallb] in Hclean. apply andb_true_iff in Hclean as [Hc Hclean].
    unfold clean_config in Hc. rewrite !andb_true_iff in Hc.
    destruct Hc as [[Hret Htype] Hifs].
    apply Z.eqb_eq in Hret, Htype.
    cbn [List.length Nat.add]. rewrite <- app_comm_cons in Hcfg.
    rewrite (config_loop_step done c (cpre ++ rest)) by assumption.
    rewrite interface_loop_clean by assumption.
    rewrite (IH (done ++ [c]) rest)
      by (now rewrite <- app_assoc || assumption).
    rewrite <- !app_assoc. cbn [app].
    unfold scan_configs, interfaces_of. cbn [flat_map].
    rewrite scan_interfaces_app. f_equal.
    rewrite config_reads_cons. rewrite length_app. cbn [List.length].
    now replace (List.length done + 1)%nat with (S (List.length done)) by lia.
Qed.

End Configurations.

(** ** One device *)

Section Device.

Variable w : world.
Variable d : libusb_device.
Variable qdl : qdl_device.
Variable intf : Z.

Lemma parse_wrong_identity h :
  fst (get_device_descriptor d) = 0 ->
  identity_ok d = false ->
  parse_usb_desc w d qdl intf h =
    (Ret (- EINVAL, qdl, intf), h ++ [EvGetDeviceDescriptor (dev_ptr d)]).
Proof.
  intros Hret Hid. unfold parse_usb_desc, bind, emit.
  rewrite Hret. cbn [c_true Z.eqb negb].
  unfold identity_ok in Hid. rewrite <- negb_andb, Hid. reflexivity.
Qed.

Lemma parse_wrong_type h :
  fst (get_device_descriptor d) = 0 ->
  identity_ok d = true ->
  dev_bDescriptorType (snd (get_device_descriptor d)) <> LIBUSB_DT_DEVICE ->
  parse_usb_desc w d qdl intf h =
    (Ret (- EINVAL, qdl, intf), h ++ [EvGetDeviceDescriptor (dev_ptr d)]).
Proof.
  intros Hret Hid Htype. unfold parse_usb_desc, bind, emit.
  rewrite Hret. cbn [c_true Z.eqb negb].
  unfold identity_ok in Hid. rewrite <- negb_andb, Hid. cbn [negb].
  apply Z.eqb_neq in Htype. now rewrite Htype.
Qed.

Lemma parse_walk h :
  fst (get_device_descriptor d) = 0 ->
  identity_ok d = true ->
  dev_bDescriptorType (snd (get_device_descriptor d)) = LIBUSB_DT_DEVICE ->
  parse_usb_desc w d qdl intf h =
    config_loop w d qdl intf
                (Z.to_nat (bNumConfigurations (snd (get_device_descriptor d))))
                0 no_locals (h ++ [EvGetDeviceDescriptor (dev_ptr d)]).
Proof.
  intros Hret Hid Htype. unfold parse_usb_desc, bind, emit.
  rewrite Hret. cbn [c_true Z.eqb negb].
  unfold identity_ok in Hid. rewrite <- negb_andb, Hid. cbn [negb].
  rewrite Htype, Z.eqb_refl. reflexivity.
Qed.


End Device.






Section DeviceWalk.

Variable w : world.
Variable d : libusb_device.
Variable qdl : qdl_device.
Variable intf : Z.

(** The first interface that passes the filter is chosen and the device
    is opened; nothing behind it is read. *)
Lemma parse_selects h k i :
  fst (get_device_descriptor d) = 0 ->
  identity_ok d = true ->
  fst (libusb_open d) = 0 ->
  first_match d k i ->
  exists l,
    parse_usb_desc w d qdl intf h =
      (Ret (0, session_of w d l, bInterfaceNumber (altsetting i)),
       h ++ EvGetDeviceDescriptor (dev_ptr d)
         :: config_reads d 0 k ++ [EvOpen (dev_ptr d)]).
Proof.
  intros Hret Hid Hopen Hmatch.
  destruct Hmatch
    as [cpre c cpost ipre i ipost Htype Hcfg Hn Hclean Hcret Hctype Hifs
          Hipre Hwf Hsig].
  destruct (interface_loop_select w d qdl intf ipre i ipost
              (scan_configs cpre no_locals)
              (h ++ EvGetDeviceDescriptor (dev_ptr d)
                 :: config_reads d 0 (S (List.length cpre)))
              Hipre Hwf Hsig Hopen)
    as (l & _ & Hrun).
  exists l.
  rewrite parse_walk by assumption.
  replace (Z.to_nat (bNumConfigurations (snd (get_device_descriptor d))))
    with (List.length cpre
          + S (Z.to_nat (bNumConfigurations (snd (get_device_descriptor d)))
               - S (List.length cpre)))%nat by lia.
  pose proof (config_loop_skip w d qdl intf cpre [] (c :: cpost)) as Hskip.
  cbn [List.length app] in Hskip. change (Z.of_nat 0) with 0 in Hskip.
  rewrite Hskip by assumption.
  rewrite (config_loop_step w d qdl intf cpre c cpost) by assumption.
  rewrite Hifs. rewrite <- !app_assoc. cbn [app].
  rewrite <- config_reads_snoc. cbn [Nat.add].
  rewrite Hrun. rewrite <- app_assoc. reflexivity.
Qed.


(** A descriptor fault ends the walk of the device without a choice. *)
Lemma parse_fault h t :
  fst (get_device_descriptor d) = 0 ->
  identity_ok d = true ->
  reaches_fault d t ->
  parse_usb_desc w d qdl intf h = (Ret (- EINVAL, qdl, intf), h ++ t).
Proof.
  intros Hret Hid Hfault.
  destruct Hfault
    as [Htype
       | cpre c cpost Htype Hcfg Hn Hclean Hcret Hctype
       | cpre c cpost ipre i ipost Htype Hcfg Hn Hclean Hcret Hctype Hifs
           Hipre Hbad].
  - now apply parse_wrong_type.
  - rewrite parse_walk by assumption.
    replace (Z.to_nat (bNumConfigurations (snd (get_device_descriptor d))))
      with (List.length cpre
            + S (Z.to_nat (bNumConfigurations (snd (get_device_descriptor d)))
                 - S (List.length cpre)))%nat by lia.
    pose proof (config_loop_skip w d qdl intf cpre [] (c :: cpost)) as Hskip.
    cbn [List.length app] in Hskip. change (Z.of_nat 0) with 0 in Hskip.
    rewrite Hskip by assumption.
    cbn [config_loop]. rewrite (get_config_at d cpre c cpost Hcfg), Hcret.
    cbn [c_true Z.eqb negb]. apply Z.eqb_neq in Hctype. rewrite Hctype.
    cbn [negb]. unfold bind, emit, ret. rewrite <- !app_assoc. cbn [app].
    now rewrite <- config_reads_snoc.
  - rewrite parse_walk by assumption.
    replace (Z.to_nat (bNumConfigurations (snd (get_device_descriptor d))))
      with (List.length cpre
            + S (Z.to_nat (bNumConfigurations (snd (get_device_descriptor d)))
                 - S (List.length cpre)))%nat by lia.
    pose proof (config_loop_skip w d qdl intf cpre [] (c :: cpost)) as Hskip.
    cbn [List.length app] in Hskip. change (Z.of_nat 0) with 0 in Hskip.
    rewrite Hskip by assumption.
    rewrite (config_loop_step w d qdl intf cpre c cpost) by assumption.
    rewrite Hifs, interface_loop_fault by assumption.
    rewrite <- !app_assoc. cbn [app]. now rewrite <- config_reads_snoc.
Qed.

(** A device that is passed over hands back [-EINVAL] and leaves the
    session and the interface number as they were. *)
Lemma parse_passed_over h t :
  passed_over d t ->
  parse_usb_desc w d qdl intf h = (Ret (- EINVAL, qdl, intf), h ++ t).
Proof.
  intros Hover.
  destruct Hover
    as [Hret Hid
       | t Hret Hid Hfault
       | cpre c cpost ipre i ipost Hret Hid Htype Hcfg Hn Hclean Hcret Hctype
           Hifs Hipre Hbad
       | cs rest Hret Hid Htype Hcfg Hn Hclean].
  - now apply parse_wrong_identity.
  - now apply parse_fault.
  - rewrite parse_walk by assumption.
    replace (Z.to_nat (bNumConfigurations (snd (get_device_descriptor d))))
      with (List.length cpre
            + S (Z.to_nat (bNumConfigurations (snd (get_device_descriptor d)))
                 - S (List.length cpre)))%nat by lia.
    pose proof (config_loop_skip w d qdl intf cpre [] (c :: cpost)) as Hskip.
    cbn [List.length app] in Hskip. change (Z.of_nat 0) with 0 in Hskip.
    rewrite Hskip by assumption.
    rewrite (config_loop_step w d qdl intf cpre c cpost) by assumption.
    rewrite Hifs, interface_loop_malformed by assumption.
    rewrite <- !app_assoc. cbn [app]. now rewrite <- config_reads_snoc.
  - rewrite parse_walk by assumption. rewrite <- Hn.
    pose proof (config_loop_skip w d qdl intf cs [] rest 0 no_locals
                  (h ++ [EvGetDeviceDescriptor (dev_ptr d)])) as Hskip.
    rewrite Nat.add_0_r in Hskip. cbn [List.length app] in Hskip.
    change (Z.of_nat 0) with 0 in Hskip.
    rewrite Hskip by assumption.
    cbn [config_loop]. unfold ret. now rewrite <- app_assoc.
Qed.


End DeviceWalk.

(** ** The device list *)

Section DeviceList.

Variable w : world.

Lemma device_loop_next d rest qdl intf h r h' :
  parse_usb_desc w d qdl intf h = (Ret (r, qdl, intf), h') ->
  r <> 0 ->
  device_loop w (d :: rest) qdl intf h = device_loop w rest qdl intf h'.
Proof.
  intros Hrun Hr. cbn [device_loop]. unfold bind at 1. rewrite Hrun.
  apply c_true_iff in Hr. now rewrite Hr.
Qed.

Lemma device_loop_found d rest qdl intf h qdl' intf' h' :
  parse_usb_desc w d qdl intf h = (Ret (0, qdl', intf'), h') ->
  device_loop w (d :: rest) qdl intf h = (Ret (Some (qdl', intf')), h').
Proof.
  intros Hrun. cbn [device_loop]. unfold bind at 1. now rewrite Hrun.
Qed.

Lemma EINVAL_nonzero : - EINVAL <> 0.
Proof. discriminate. Qed.

(** Devices that are passed over leave the loop as it was, the trace
    apart. *)
Lemma device_loop_passed pre t rest qdl intf h :
  all_passed_over pre t ->
  device_loop w (pre ++ rest) qdl intf h =
    device_loop w rest qdl intf (h ++ t).
Proof.
  intros Hover. revert h.
  induction Hover as [|d t ds ts Hd Hds IH]; intros h.
  - cbn. now rewrite app_nil_r.
  - rewrite <- app_comm_cons.
    rewrite (device_loop_next d _ qdl intf h (- EINVAL) (h ++ t))
      by (now apply parse_passed_over || apply EINVAL_nonzero).
    rewrite IH. now rewrite app_assoc.
Qed.



Lemma usb_open_run qdl h usb :
  libusb_init w = 0 ->
  libusb_get_device_list w = Some usb ->
  usb_open w qdl h =
    match device_loop w usb qdl (-1) (h ++ [EvUsbInit; EvGetDeviceList]) with
    | (Ret None, h') => (Ret (- ENOENT, qdl), h')
    | (Ret (Some (qdl', intf')), h') =>
        if c_true (libusb_claim_interface w (handle qdl') intf')
        then (Exit 1, h' ++ [EvFreeDeviceList;
                             EvClaimInterface (handle qdl') intf';
                             EvStderr "libusb_claim_interface"])
        else (Ret (0, qdl'),
              h' ++ [EvFreeDeviceList; EvClaimInterface (handle qdl') intf'])
    | (Exit c, h') => (Exit c, h')
    | (Trap, h') => (Trap, h')
    | (Diverge, h') => (Diverge, h')
    end.
Proof.
  intros Hinit Hlist. unfold usb_open. rewrite Hinit, Hlist.
  cbn [c_true Z.eqb negb]. unfold bind at 1. unfold emit at 1.
  unfold bind at 1. unfold emit at 1. rewrite <- app_assoc. cbn [app].
  unfold bind at 1.
  destruct (device_loop w usb qdl (-1) _) as [[[[qdl' intf']|]| | |] h'];
    try reflexivity.
  unfold bind, emit, err, ret.
  destruct (c_true _); rewrite <- !app_assoc; reflexivity.
Qed.

End DeviceList.


(** ** Interface selection *)

(** C3: when the walk reaches an interface that passes its checks and
    the signature filter, the session records, for each direction, the
    address and packet size of the last bulk endpoint of that direction
    in the interface's endpoint array; endpoints that are not bulk play
    no part, the outcome is the same without them. *)
Theorem last_bulk_endpoint_recorded (w : world) (device : libusb_device)
  (qdl : qdl_device) (intf : Z) (i : libusb_interface)
  (rest : list libusb_interface) (l : locals) (h : trace) :
  interface_wf i = true ->
  signature_ok i = true ->
  fst (libusb_open device) = 0 ->
  exists session,
    interface_loop w device qdl intf (i :: rest) l h =
      (Ret (Return (0, session, bInterfaceNumber (altsetting i))),
       h ++ [EvOpen (dev_ptr device)])
    /\ (forall before e after,
          endpoint (altsetting i) = before ++ e :: after ->
          bulk_in e = true ->
          forallb (fun x => negb (bulk_in x)) after = true ->
          in_ep session = bEndpointAddress e
          /\ in_maxpktsize session = wMaxPacketSize e)
    /\ (forall before e after,
          endpoint (altsetting i) = before ++ e :: after ->
          bulk_out e = true ->
          forallb (fun x => negb (bulk_out x)) after = true ->
          out_ep session = bEndpointAddress e
          /\ out_maxpktsize session = wMaxPacketSize e)
    /\ interface_loop w device qdl intf (bulk_endpoints_only i :: rest) l h =
         (Ret (Return (0, session, bInterfaceNumber (altsetting i))),
          h ++ [EvOpen (dev_ptr device)]).
Proof.
  intros Hwf Hsig Hopen.
  destruct (interface_loop_select w device qdl intf [] i rest l h
              eq_refl Hwf Hsig Hopen) as (l' & Hscan & Hrun).
  cbn [scan_interfaces fold_left app] in Hscan, Hrun.
  exists (session_of w device l'). split; [exact Hrun |].
  split; [| split].
  - intros before e after Heps He Hafter. rewrite Heps in Hscan.
    destruct (endpoint_loop_last_in _ _ _ _ _ He Hafter Hscan) as [Ha Hs].
    cbn [session_of in_ep in_maxpktsize]. now rewrite Ha, Hs.
  - intros before e after Heps He Hafter. rewrite Heps in Hscan.
    destruct (endpoint_loop_last_out _ _ _ _ _ He Hafter Hscan) as [Ha Hs].
    cbn [session_of out_ep out_maxpktsize]. now rewrite Ha, Hs.
  - destruct (interface_wf_loop i l Hwf) as (Ht & Hl & _).
    rewrite interface_loop_cons.
    cbn [bulk_endpoints_only altsetting if_bDescriptorType if_bLength
         endpoint bInterfaceNumber].
    rewrite Ht, Hl, (endpoint_loop_bulk_only _ _ _ Hscan). cbn [negb].
    replace (signature_ok (bulk_endpoints_only i)) with true
      by (now rewrite <- Hsig).
    unfold bind, emit. now rewrite Hopen.
Qed.

Lemma last_bulk_endpoint_recorded_witness :
  exists session,
    interface_loop (world_with [edl_device] (fun _ => 0)) edl_device
                   sample_qdl (-1) [edl_interface] no_locals [] =
      (Ret (Return (0, session, 1)), [EvOpen 100])
    /\ (in_ep session = 130 /\ in_maxpktsize session = 64)
    /\ (out_ep session = 2 /\ out_maxpktsize session = 1024).
Proof.
  destruct (last_bulk_endpoint_recorded
              (world_with [edl_device] (fun _ => 0)) edl_device sample_qdl
              (-1) edl_interface [] no_locals [] eq_refl eq_refl eq_refl)
    as (session & Hrun & Hin & Hout & _).
  exists session. split; [exact Hrun |]. split.
  - exact (Hin [interrupt_ep 131 8; bulk_ep 129 512; bulk_ep 1 512]
               (bulk_ep 130 64) [bulk_ep 2 1024] eq_refl eq_refl eq_refl).
  - exact (Hout [interrupt_ep 131 8; bulk_ep 129 512; bulk_ep 1 512;
                 bulk_ep 130 64]
                (bulk_ep 2 1024) [] eq_refl eq_refl eq_refl).
Defined.

Lemma config_reads_no_open (d : libusb_device) (first count : nat) :
  forallb (fun e => negb (is_open_event e)) (config_reads d first count)
  = true.
Proof.
  unfold config_reads. revert first.
  induction count as [|n IH]; intros first; [reflexivity |].
  cbn [seq map forallb is_open_event negb andb]. apply IH.
Qed.

(** C7 (amended): a descriptor fault (device descriptor not of type
    DEVICE, configuration descriptor not of type CONFIG, alternate
    setting not of type INTERFACE or too short) ends the walk of that
    device only: [parse_usb_desc] returns [-EINVAL] without opening the
    device or touching the session, and the device loop of [usb_open]
    goes on with the next device of the list. *)
Theorem descriptor_fault_skips_device (w : world) (d : libusb_device)
  (t : trace) (rest : list libusb_device) (qdl : qdl_device) (intf : Z)
  (h : trace) :
  fst (get_device_descriptor d) = 0 ->
  identity_ok d = true ->
  reaches_fault d t ->
  parse_usb_desc w d qdl intf h = (Ret (- EINVAL, qdl, intf), h ++ t)
  /\ forallb (fun e => negb (is_open_event e)) t = true
  /\ device_loop w (d :: rest) qdl intf h =
       device_loop w rest qdl intf (h ++ t).
Proof.
  intros Hret Hid Hfault.
  pose proof (parse_fault w d qdl intf h t Hret Hid Hfault) as Hrun.
  split; [exact Hrun |]. split.
  - destruct Hfault; cbn [forallb is_open_event negb andb];
      try reflexivity; apply config_reads_no_open.
  - exact (device_loop_next w d rest qdl intf h (- EINVAL) (h ++ t) Hrun
             EINVAL_nonzero).
Qed.

Lemma faulty_device_fault :
  reaches_fault faulty_device
                [EvGetDeviceDescriptor 400; EvGetConfigDescriptor 400 0].
Proof.
  apply (fault_interface faulty_device []
           (0, mk_config LIBUSB_DT_CONFIG [broken_interface; edl_interface])
           [] [] broken_interface [edl_interface]);
    try reflexivity.
  - cbn. lia.
  - left. discriminate.
Qed.

Lemma descriptor_fault_skips_device_witness :
  parse_usb_desc (world_with [faulty_device; edl_device] (fun _ => 0))
                 faulty_device sample_qdl (-1) [] =
    (Ret (- EINVAL, sample_qdl, -1),
     [EvGetDeviceDescriptor 400; EvGetConfigDescriptor 400 0])
  /\ device_loop (world_with [faulty_device; edl_device] (fun _ => 0))
                 [faulty_device; edl_device] sample_qdl (-1) [] =
       device_loop (world_with [faulty_device; edl_device] (fun _ => 0))
                   [edl_device] sample_qdl (-1)
                   [EvGetDeviceDescriptor 400; EvGetConfigDescriptor 400 0].
Proof.
  destruct (descriptor_fault_skips_device
              (world_with [faulty_device; edl_device] (fun _ => 0))
              faulty_device
              [EvGetDeviceDescriptor 400; EvGetConfigDescriptor 400 0]
              [edl_device] sample_qdl (-1) [] eq_refl eq_refl
              faulty_device_fault) as (Hrun & _ & Hnext).
  split; [exact Hrun | exact Hnext].
Defined.

(** C7 as stated fails: behind a device with a faulty descriptor the
    next device is still read, and it is the one selected. *)
Lemma usb_open_continues_after_fault :
  usb_open (world_with [faulty_device; edl_device] (fun _ => 0))
           sample_qdl [] =
    (Ret (0, mk_qdl 7 130 2 64 1024),
     [EvUsbInit; EvGetDeviceList;
      EvGetDeviceDescriptor 400; EvGetConfigDescriptor 400 0;
      EvGetDeviceDescriptor 100; EvGetConfigDescriptor 100 0; EvOpen 100;
      EvFreeDeviceList; EvClaimInterface 7 1])
  /\ if_bDescriptorType (altsetting broken_interface) <> LIBUSB_DT_INTERFACE.
Proof.
  split; [reflexivity | discriminate].
Qed.

(** C8: a device with the right identity whose matching interface has no
    endpoint is selected all the same; the four endpoint fields of the
    session are then read from variables that were never assigned. *)
Theorem usb_open_unassigned_endpoints (garbage : string -> Z) :
  usb_open (world_with [bare_device] garbage) sample_qdl [] =
    (Ret (0, mk_qdl 9 (garbage "in"%string) (garbage "out"%string)
                    (garbage "in_size"%string) (garbage "out_size"%string)),
     [EvUsbInit; EvGetDeviceList;
      EvGetDeviceDescriptor 300; EvGetConfigDescriptor 300 0; EvOpen 300;
      EvFreeDeviceList; EvClaimInterface 9 0]).
Proof. reflexivity. Qed.

(** ** How the functions can end *)

Section EndsWith.

Context {A : Type}.

Lemma ends_ret (Q : A -> Prop) (a : A) : Q a -> ends_with Q (ret a).
Proof. intros H h. exact H. Qed.

Lemma ends_err (Q : A -> Prop) (msg : string) : ends_with Q (err 1 msg).
Proof. intros h. reflexivity. Qed.

Lemma ends_bind {B} (Q : B -> Prop) (R : A -> Prop) (m : M B)
  (f : B -> M A) :
  ends_with Q m -> (forall b, Q b -> ends_with R (f b)) ->
  ends_with R (bind m f).
Proof.
  intros Hm Hf h. specialize (Hm h). unfold bind.
  destruct (m h) as [[b| | |] h1]; cbn [fst] in *;
    try assumption.
  apply (Hf b Hm).
Qed.

Lemma ends_weaken (Q R : A -> Prop) (m : M A) :
  (forall a, Q a -> R a) -> ends_with Q m -> ends_with R m.
Proof.
  intros HQR Hm h. specialize (Hm h).
  destruct (fst (m h)); auto.
Qed.

End EndsWith.

Lemma ends_emit (e : event) : ends_with (fun _ => True) (emit e).
Proof. intros h. exact I. Qed.

Ltac ends_step :=
  lazymatch goal with
  | |- ends_with _ (bind (emit _) _) =>
      apply (ends_bind (fun _ => True)); [apply ends_emit | intros _ _]
  | |- ends_with _ (ret _) => apply ends_ret
  | |- ends_with _ (err 1 _) => apply ends_err
  | |- ends_with _ (if ?b then _ else _) => destruct b eqn:?
  | |- ends_with _ (match ?x with _ => _ end) => destruct x eqn:?
  end.

Section EndsDevice.

Variable w : world.
Variable d : libusb_device.
Variable qdl : qdl_device.
Variable intf : Z.

Lemma endpoints_of_app (ifs1 ifs2 : list libusb_interface) :
  endpoints_of (ifs1 ++ ifs2) = endpoints_of ifs1 ++ endpoints_of ifs2.
Proof. apply flat_map_app. Qed.

Lemma interfaces_of_snoc (cs : list (Z * libusb_config_descriptor))
  (c : Z * libusb_config_descriptor) :
  interfaces_of (cs ++ [c]) = interfaces_of cs ++ interface (snd c).
Proof.
  unfold interfaces_of. rewrite flat_map_app. cbn [flat_map].
  now rewrite app_nil_r.
Qed.

Lemma c_true_false (z : Z) : c_true z = false -> z = 0.
Proof.
  unfold c_true. intros H. apply negb_false_iff in H. now apply Z.eqb_eq.
Qed.

(** The interface loop of configuration [c], entered at its interfaces
    [ifs] with the automatic variables as the scans of all interfaces
    before them have left them. *)
Lemma interface_loop_ends cpre c cpost ifs :
  config_descriptors d = cpre ++ c :: cpost ->
  forall seen l,
    interface (snd c) = seen ++ ifs ->
    forallb (fun x => negb (signature_ok x)) (interfaces_of cpre ++ seen)
    = true ->
    endpoint_loop (endpoints_of (interfaces_of cpre ++ seen)) no_locals
    = Some l ->
    ends_with
      (flow_ends
         (fun l' =>
            forallb (fun x => negb (signature_ok x))
                    (interfaces_of (cpre ++ [c])) = true
            /\ endpoint_loop (endpoints_of (interfaces_of (cpre ++ [c])))
                             no_locals = Some l')
         (fun res => res = (- EINVAL, qdl, intf) \/ selected w d res))
      (interface_loop w d qdl intf ifs l).
Proof.
  intros Hcfg.
  induction ifs as [|i ifs IH]; intros seen l Hifs Hnone Hscan.
  - apply ends_ret. cbn [flow_ends].
    rewrite interfaces_of_snoc, Hifs, app_nil_r. now split.
  - rewrite interface_loop_cons.
    destruct (negb (if_bDescriptorType (altsetting i) =? LIBUSB_DT_INTERFACE));
      [apply ends_ret; now left |].
    destruct (if_bLength (altsetting i) <? LIBUSB_DT_INTERFACE_SIZE);
      [apply ends_ret; now left |].
    destruct (endpoint_loop (endpoint (altsetting i)) l) as [l'|] eqn:Hep;
      [| apply ends_ret; now left].
    assert (endpoint_loop
              (endpoints_of (interfaces_of cpre ++ seen ++ [i])) no_locals
            = Some l') as Hscan'.
    { rewrite app_assoc, endpoints_of_app, endpoint_loop_app, Hscan.
      unfold endpoints_of. cbn [flat_map]. now rewrite app_nil_r. }
    destruct (signature_ok i) eqn:Hsig.
    + ends_step.
      destruct (c_true (fst (libusb_open d))) eqn:Hopen;
        [apply ends_err |].
      apply ends_ret. cbn [flow_ends]. right.
      split; [now apply c_true_false |].
      now exists cpre, c, cpost, seen, i, ifs, l'.
    + apply (IH (seen ++ [i]) l').
      * now rewrite <- app_assoc.
      * rewrite app_assoc, forallb_app, Hnone. cbn [forallb].
        now rewrite Hsig.
      * exact Hscan'.
Qed.

Lemma get_config_beyond :
  libusb_get_config_descriptor d (Z.of_nat (List.length (config_descriptors d)))
  = (LIBUSB_ERROR_NOT_FOUND, mk_config 0 []).
Proof.
  unfold libusb_get_config_descriptor.
  destruct (Z.of_nat _ <? 0); [reflexivity |].
  rewrite Nat2Z.id. now apply nth_overflow.
Qed.

Lemma config_loop_ends n :
  forall done rest l,
    config_descriptors d = done ++ rest ->
    forallb (fun x => negb (signature_ok x)) (interfaces_of done) = true ->
    endpoint_loop (endpoints_of (interfaces_of done)) no_locals = Some l ->
    ends_with (fun res => res = (- EINVAL, qdl, intf) \/ selected w d res)
              (config_loop w d qdl intf n (Z.of_nat (List.length done)) l).
Proof.
  induction n as [|n IH]; intros done rest l Hcfg Hnone Hscan;
    cbn [config_loop].
  - apply ends_ret. now left.
  - ends_step. cbv zeta. destruct rest as [|c rest].
    + rewrite app_nil_r in Hcfg. rewrite <- Hcfg, get_config_beyond.
      apply ends_err.
    + rewrite (get_config_at d done c rest Hcfg).
      destruct (c_true (fst c)); [apply ends_err |].
      destruct (negb (cfg_bDescriptorType (snd c) =? LIBUSB_DT_CONFIG));
        [apply ends_ret; now left |].
      eapply ends_bind.
      * apply (interface_loop_ends done c rest (interface (snd c)) Hcfg
                 [] l eq_refl); now rewrite app_nil_r.
      * intros [l'|res] Hres; cbn [flow_ends] in Hres.
        -- replace (Z.of_nat (List.length done) + 1)
             with (Z.of_nat (List.length (done ++ [c])))
             by (rewrite length_app; cbn [List.length]; lia).
           destruct Hres as [Hnone' Hscan'].
           apply (IH (done ++ [c]) rest l'); try assumption.
           now rewrite <- app_assoc.
        -- apply ends_ret. exact Hres.
Qed.

End EndsDevice.

Lemma parse_usb_desc_ends (w : world) (d : libusb_device)
  (qdl : qdl_device) (intf : Z) :
  ends_with (fun res =>
               res = (- EINVAL, qdl, intf)
               \/ (fst (get_device_descriptor d) = 0
                   /\ identity_ok d = true /\ selected w d res))
            (parse_usb_desc w d qdl intf).
Proof.
  unfold parse_usb_desc. ends_step. cbv zeta.
  destruct (c_true (fst (get_device_descriptor d))) eqn:Hret;
    [apply ends_err |].
  destruct (negb (idVendor (snd (get_device_descriptor d)) =? 1478)
            || negb (idProduct (snd (get_device_descriptor d)) =? 36872))
    eqn:Hid; [apply ends_ret; now left |].
  destruct (negb (dev_bDescriptorType (snd (get_device_descriptor d))
                  =? LIBUSB_DT_DEVICE)); [apply ends_ret; now left |].
  apply (ends_weaken
           (fun res => res = (- EINVAL, qdl, intf) \/ selected w d res)).
  - intros res [Hres|Hres]; [now left | right].
    split; [now apply c_true_false |]. split; [| exact Hres].
    unfold identity_ok. rewrite <- negb_andb in Hid.
    now apply negb_false_iff in Hid.
  - apply (config_loop_ends w d qdl intf _ [] (config_descriptors d) no_locals);
      reflexivity.
Qed.

Section FoundDevice.

Variable w : world.


End FoundDevice.

Section Selection.

Variable w : world.
Variable usb : list libusb_device.
Hypothesis init_ok : libusb_init w = 0.
Hypothesis list_ok : libusb_get_device_list w = Some usb.


Lemma usb_open_none qdl h t :
  all_passed_over usb t ->
  usb_open w qdl h =
    (Ret (- ENOENT, qdl), h ++ [EvUsbInit; EvGetDeviceList] ++ t).
Proof.
  intros Hover.
  rewrite (usb_open_run w qdl h usb init_ok list_ok).
  rewrite <- (app_nil_r usb) at 1.
  rewrite (device_loop_passed w usb t) by assumption.
  cbn [device_loop]. unfold ret. now rewrite <- app_assoc.
Qed.


End Selection.


Lemma edl_device_first_match : first_match edl_device 1 edl_interface.
Proof.
  apply (first_match_at edl_device []
           (0, mk_config LIBUSB_DT_CONFIG [serial_interface; edl_interface])
           [] [serial_interface] edl_interface []);
    try reflexivity.
  cbn. lia.
Qed.

Lemma garbled_device_passed_over :
  passed_over garbled_device
              [EvGetDeviceDescriptor 1000; EvGetConfigDescriptor 1000 0].
Proof.
  apply (over_malformed garbled_device []
           (0, mk_config LIBUSB_DT_CONFIG [garbled_interface; edl_interface])
           [] [] garbled_interface [edl_interface]);
    try reflexivity.
  cbn. lia.
Qed.

(** Four devices that are passed over: one that cannot be opened, one
    with broken descriptors behind another identity, two with the fixed
    identity and a fault ahead of the matching interface. *)
Lemma sample_devices_passed_over :
  all_passed_over
    [hub_device; odd_device; faulty_device; garbled_device]
    [EvGetDeviceDescriptor 900; EvGetDeviceDescriptor 950;
     EvGetDeviceDescriptor 400; EvGetConfigDescriptor 400 0;
     EvGetDeviceDescriptor 1000; EvGetConfigDescriptor 1000 0].
Proof.
  apply (passed_cons hub_device [EvGetDeviceDescriptor 900]
           [odd_device; faulty_device; garbled_device]
           [EvGetDeviceDescriptor 950;
            EvGetDeviceDescriptor 400; EvGetConfigDescriptor 400 0;
            EvGetDeviceDescriptor 1000; EvGetConfigDescriptor 1000 0]);
    [now apply over_identity |].
  apply (passed_cons odd_device [EvGetDeviceDescriptor 950]
           [faulty_device; garbled_device]
           [EvGetDeviceDescriptor 400; EvGetConfigDescriptor 400 0;
            EvGetDeviceDescriptor 1000; EvGetConfigDescriptor 1000 0]);
    [now apply over_identity |].
  apply (passed_cons faulty_device
           [EvGetDeviceDescriptor 400; EvGetConfigDescriptor 400 0]
           [garbled_device]
           [EvGetDeviceDescriptor 1000; EvGetConfigDescriptor 1000 0]);
    [apply over_fault; [reflexivity | reflexivity | apply faulty_device_fault]
    |].
  apply (passed_cons garbled_device
           [EvGetDeviceDescriptor 1000; EvGetConfigDescriptor 1000 0] [] []);
    [apply garbled_device_passed_over | constructor].
Qed.



(** ** Kinds of events a computation adds *)

Section Emits.

Context {A : Type}.
Variable P : event -> bool.

Lemma emits_ret (a : A) : emits P (ret a).
Proof. intros h. exists []. now rewrite app_nil_r. Qed.

Lemma emits_trap : emits P (@trap A).
Proof. intros h. exists []. now rewrite app_nil_r. Qed.

Lemma emits_diverge : emits P (@diverge A).
Proof. intros h. exists []. now rewrite app_nil_r. Qed.

Lemma emits_err code msg :
  P (EvStderr msg) = true -> emits P (@err A code msg).
Proof. intros H h. exists [EvStderr msg]. cbn. now rewrite H. Qed.

Lemma emits_bind {B} (m : M B) (f : B -> M A) :
  emits P m -> (forall b, emits P (f b)) -> emits P (bind m f).
Proof.
  intros Hm Hf h. destruct (Hm h) as (t1 & E1 & F1). unfold bind.
  destruct (m h) as [[b| | |] h1]; cbn [snd] in E1; subst h1;
    try (now exists t1).
  destruct (Hf b (h ++ t1)) as (t2 & E2 & F2).
  exists (t1 ++ t2). rewrite E2, app_assoc, forallb_app, F1, F2. now split.
Qed.

End Emits.

Lemma emits_emit (P : event -> bool) (e : event) :
  P e = true -> emits P (emit e).
Proof. intros H h. exists [e]. cbn. now rewrite H. Qed.

Lemma emits_weaken {A} (P Q : event -> bool) (m : M A) :
  (forall e, P e = true -> Q e = true) -> emits P m -> emits Q m.
Proof.
  intros HPQ Hm h. destruct (Hm h) as (t & E & F). exists t.
  split; [exact E |]. rewrite forallb_forall in *. auto.
Qed.

Ltac emits_step :=
  lazymatch goal with
  | |- emits _ (bind _ _) => apply emits_bind; [| intros ?]
  | |- emits _ (ret _) => apply emits_ret
  | |- emits _ (emit _) => apply emits_emit; reflexivity
  | |- emits _ (err _ _) => apply emits_err; reflexivity
  | |- emits _ trap => apply emits_trap
  | |- emits _ diverge => apply emits_diverge
  | |- emits _ (if ?b then _ else _) => destruct b
  | |- emits _ (match ?x with _ => _ end) => destruct x
  end.

Section EmitsProgram.

Variable w : world.

Lemma detect_type_emits f : emits staging_or_stderr (detect_type w f).
Proof. unfold detect_type. repeat emits_step. Qed.

Lemma stage_file_emits finalize f :
  emits staging_or_stderr (stage_file w finalize f).
Proof.
  unfold stage_file. apply emits_bind; [apply detect_type_emits | intros t].
  repeat emits_step.
Qed.

Lemma argv_at_emits P argv i : emits P (argv_at argv i).
Proof. unfold argv_at. repeat emits_step. Qed.

Lemma stage_loop_emits argv finalize n :
  forall optind, emits staging_or_stderr (stage_loop w argv finalize n optind).
Proof.
  induction n as [|n IH]; intros optind; cbn [stage_loop];
    (apply emits_bind; [apply argv_at_emits | intros f]);
    (apply emits_bind; [apply stage_file_emits | intros _]);
    repeat emits_step; apply IH.
Qed.

Lemma interface_loop_emits device qdl intf ifs :
  forall l, emits usb_or_stderr (interface_loop w device qdl intf ifs l).
Proof.
  induction ifs as [|i ifs IH]; intros l; cbn [interface_loop];
    repeat emits_step; apply IH.
Qed.

Lemma config_loop_emits device qdl intf n :
  forall i l, emits usb_or_stderr (config_loop w device qdl intf n i l).
Proof.
  induction n as [|n IH]; intros i l; cbn [config_loop];
    [repeat emits_step |].
  apply emits_bind; [repeat emits_step | intros _].
  destruct (c_true _); [repeat emits_step |].
  cbv zeta. destruct (negb _); [repeat emits_step |].
  apply emits_bind; [apply interface_loop_emits | intros [l'|res]];
    [apply IH | repeat emits_step].
Qed.

Lemma parse_usb_desc_emits device qdl intf :
  emits usb_or_stderr (parse_usb_desc w device qdl intf).
Proof.
  unfold parse_usb_desc.
  apply emits_bind; [repeat emits_step | intros _].
  cbv zeta. destruct (c_true _); [repeat emits_step |].
  destruct (_ || _); [repeat emits_step |].
  destruct (negb _); [repeat emits_step |].
  apply config_loop_emits.
Qed.

Lemma device_loop_emits usb :
  forall qdl intf, emits usb_or_stderr (device_loop w usb qdl intf).
Proof.
  induction usb as [|d usb IH]; intros qdl intf; cbn [device_loop];
    [repeat emits_step |].
  apply emits_bind; [apply parse_usb_desc_emits | intros [[r qdl'] intf']].
  destruct (negb _); [repeat emits_step | apply IH].
Qed.

Lemma usb_open_emits qdl : emits usb_or_stderr (usb_open w qdl).
Proof.
  unfold usb_open. cbv zeta.
  apply emits_bind; [repeat emits_step | intros _].
  destruct (c_true _); [repeat emits_step |].
  apply emits_bind; [repeat emits_step | intros _].
  destruct (libusb_get_device_list w) as [usb|]; [| repeat emits_step].
  apply emits_bind; [apply device_loop_emits | intros [[qdl' intf']|]];
    repeat emits_step.
Qed.

Lemma session_phase_emits o prog_mbn :
  emits usb_or_stderr (session_phase w o prog_mbn).
Proof.
  unfold session_phase.
  apply emits_bind; [apply usb_open_emits | intros r].
  repeat emits_step.
Qed.

End EmitsProgram.

(** ** The dispatcher *)

Section Dispatcher.

Variable w : world.

Lemma getopt_loop_known opts :
  forall o h,
    forallb option_known opts = true ->
    getopt_loop opts o h = (Ret (Next (fold_left set_option opts o)), h).
Proof.
  induction opts as [|[opt optarg] opts IH]; intros o h H; [reflexivity |].
  cbn [forallb] in H. apply andb_true_iff in H as [Hk H].
  cbn [getopt_loop fold_left]. unfold set_option at 2. cbn [fst snd].
  unfold option_known in Hk. cbn [fst] in Hk.
  destruct (Ascii.eqb opt "d"); [now apply IH |].
  destruct (Ascii.eqb opt "i"); [now apply IH |].
  destruct (Ascii.eqb opt "l"); [now apply IH |].
  destruct (Ascii.eqb opt "s"); [now apply IH | discriminate].
Qed.

Lemma kind_code_cases k :
  (kind_code k <? 0) = false
  /\ (kind_code k =? QDL_FILE_UNKNOWN)
     = match k with Unknown => true | _ => false end
  /\ (kind_code k =? QDL_FILE_PATCH)
     = match k with Patch => true | _ => false end
  /\ (kind_code k =? QDL_FILE_PROGRAM)
     = match k with Program => true | _ => false end
  /\ (kind_code k =? QDL_FILE_UFS)
     = match k with StorageProvisioning => true | _ => false end.
Proof. destruct k; repeat split. Qed.

(** A file that is staged: read, loaded once, no diagnostic. *)
Lemma stage_file_staged finalize f h :
  staged w finalize f = true ->
  stage_file w finalize f h = (Ret tt, h ++ stage_events w finalize f).
Proof.
  unfold staged, stage_events, loader_call, stage_file.
  unfold bind at 1. rewrite detect_type_run.
  destruct (xmlReadFile w f) as [doc|]; [| discriminate].
  destruct (kind_code_cases (classify doc)) as (E0 & E1 & E2 & E3 & E4).
  rewrite E0, E1, E2, E3, E4.
  destruct (classify doc); try discriminate; cbn [orb];
    intros Hr; apply Z.leb_le in Hr; unfold bind, emit, ret;
    match goal with
    | |- context [?r <? 0] =>
        destruct (r <? 0) eqn:E; [apply Z.ltb_lt in E; lia |]
    end;
    now rewrite <- app_assoc.
Qed.

(** A file that is not staged ends the run with exit code 1: after the
    read, and the one loader call if the file has a loader, only
    diagnostics follow. *)
Lemma stage_file_not_staged finalize f h :
  staged w finalize f = false ->
  exists msgs,
    stage_file w finalize f h =
      (Exit 1, h ++ stage_events w finalize f ++ msgs)
    /\ forallb is_stderr msgs = true.
Proof.
  unfold staged, stage_events, loader_call, stage_file.
  unfold bind at 1. rewrite detect_type_run.
  destruct (xmlReadFile w f) as [doc|].
  - destruct (kind_code_cases (classify doc)) as (E0 & E1 & E2 & E3 & E4).
    rewrite E0, E1, E2, E3, E4.
    destruct (classify doc); cbn [orb]; intros Hr;
      try (apply Z.leb_gt in Hr; apply Z.ltb_lt in Hr;
           unfold bind, emit, err; rewrite Hr);
      unfold err; eexists; (split; [rewrite <- !app_assoc; reflexivity |]);
      reflexivity.
  - intros _. cbn [Z.ltb Z.compare EINVAL Z.opp orb]. unfold err.
    eexists. split; [rewrite <- !app_assoc; reflexivity | reflexivity].
Qed.

Lemma argv_at_middle front f rest h :
  argv_at (front ++ f :: rest) (Z.of_nat (List.length front)) h = (Ret f, h).
Proof.
  unfold argv_at.
  destruct (Z.of_nat (List.length front) <? 0) eqn:E;
    [apply Z.ltb_lt in E; lia |].
  rewrite Nat2Z.id, nth_error_app2, Nat.sub_diag by lia. reflexivity.
Qed.

Lemma more_arguments front f (rest : list string) :
  (Z.of_nat (List.length front) + 1
   <? Z.of_nat (List.length (front ++ f :: rest)))
  = negb (Nat.eqb (List.length rest) 0).
Proof.
  rewrite length_app. cbn [List.length].
  destruct rest as [|g rest]; cbn [List.length Nat.eqb negb].
  - apply Z.ltb_ge. lia.
  - apply Z.ltb_lt. lia.
Qed.

(** The staging loop over files that are all staged. *)
Lemma stage_loop_staged finalize files :
  forall front f n h,
    forallb (staged w finalize) (f :: files) = true ->
    (List.length files <= n)%nat ->
    stage_loop w (front ++ f :: files) finalize n
               (Z.of_nat (List.length front)) h =
      (Ret tt, h ++ flat_map (stage_events w finalize) (f :: files)).
Proof.
  induction files as [|g files IH]; intros front f n h Hok Hn;
    cbn [forallb] in Hok; apply andb_true_iff in Hok as [Hf Hok].
  - destruct n; cbn [stage_loop]; unfold bind at 1;
      rewrite argv_at_middle; unfold bind at 1;
      rewrite stage_file_staged by assumption;
      rewrite more_arguments; cbn; unfold ret; now rewrite app_nil_r.
  - destruct n as [|n]; [cbn in Hn; lia |].
    cbn [stage_loop]. unfold bind at 1. rewrite argv_at_middle.
    unfold bind at 1. rewrite stage_file_staged by assumption.
    rewrite more_arguments. cbn [List.length Nat.eqb negb].
    replace (Z.of_nat (List.length front) + 1)
      with (Z.of_nat (List.length (front ++ [f])))
      by (rewrite length_app; cbn; lia).
    replace (front ++ f :: g :: files) with ((front ++ [f]) ++ g :: files)
      by now rewrite <- app_assoc.
    rewrite IH by (assumption || cbn in Hn; lia).
    cbn [flat_map]. now rewrite <- app_assoc.
Qed.

(** The staging loop up to the first file that is not staged. *)
Lemma stage_loop_first_failure finalize pre :
  forall front bad post n h,
    forallb (staged w finalize) pre = true ->
    staged w finalize bad = false ->
    (List.length pre <= n)%nat ->
    exists msgs,
      stage_loop w (front ++ pre ++ bad :: post) finalize n
                 (Z.of_nat (List.length front)) h =
        (Exit 1,
         h ++ flat_map (stage_events w finalize) pre
           ++ stage_events w finalize bad ++ msgs)
      /\ forallb is_stderr msgs = true.
Proof.
  induction pre as [|f pre IH]; intros front bad post n h Hok Hbad Hn.
  - destruct (stage_file_not_staged finalize bad h Hbad) as (msgs & Hrun & Hm).
    exists msgs. split; [| exact Hm].
    cbn [app flat_map].
    destruct n; cbn [stage_loop]; unfold bind at 1;
      rewrite argv_at_middle; unfold bind at 1; now rewrite Hrun.
  - cbn [forallb] in Hok. apply andb_true_iff in Hok as [Hf Hok].
    destruct n as [|n]; [cbn in Hn; lia |].
    destruct (IH (front ++ [f]) bad post n
                 (h ++ stage_events w finalize f) Hok Hbad
                 ltac:(cbn in Hn; lia)) as (msgs & Hrun & Hm).
    exists msgs. split; [| exact Hm].
    rewrite <- app_comm_cons.
    cbn [stage_loop]. unfold bind at 1. rewrite argv_at_middle.
    unfold bind at 1. rewrite stage_file_staged by assumption.
    rewrite more_arguments.
    replace (negb (Nat.eqb (List.length (pre ++ bad :: post)) 0)) with true
      by (rewrite length_app; cbn [List.length];
          now rewrite Nat.add_succ_r).
    replace (Z.of_nat (List.length front) + 1)
      with (Z.of_nat (List.length (front ++ [f])))
      by (rewrite length_app; cbn; lia).
    replace (front ++ f :: pre ++ bad :: post)
      with ((front ++ [f]) ++ pre ++ bad :: post)
      by now rewrite <- app_assoc.
    rewrite Hrun. cbn [flat_map]. now rewrite <- !app_assoc.
Qed.

End Dispatcher.

Section Main.

Variable w : world.

(** [main] with accepted options and at least one support file: the
    staging loop, then the session. *)
Lemma main_run front prog_mbn support opts h :
  forallb option_known opts = true ->
  support <> [] ->
  main w (front ++ prog_mbn :: support) opts (Z.of_nat (List.length front)) h =
    bind (stage_loop w (front ++ prog_mbn :: support)
                     (qdl_finalize_provisioning (options_after opts))
                     (List.length support)
                     (Z.of_nat (List.length (front ++ [prog_mbn]))))
         (fun _ => session_phase w (options_after opts) prog_mbn) h.
Proof.
  intros Hopts Hsupport. unfold main. unfold bind at 1.
  rewrite getopt_loop_known by assumption.
  fold (options_after opts).
  assert (List.length support <> 0)%nat as Hlen
    by (destruct support; [contradiction | discriminate]).
  rewrite !length_app. cbn [List.length].
  destruct (Z.of_nat (List.length front) + 2
            >? Z.of_nat (List.length front + S (List.length support))) eqn:E;
    [apply Z.gtb_lt in E; lia |].
  unfold bind at 1. rewrite argv_at_middle.
  replace (Z.to_nat (Z.of_nat (List.length front + S (List.length support))
                     - (Z.of_nat (List.length front) + 1)))
    with (List.length support) by lia.
  replace (Z.of_nat (List.length front + 1))
    with (Z.of_nat (List.length front) + 1) by lia.
  reflexivity.
Qed.

Lemma main_usage argv opts optind h :
  forallb option_known opts = true ->
  Z.of_nat (List.length argv) < optind + 2 ->
  main w argv opts optind h = (Ret 1, h ++ [EvUsage]).
Proof.
  intros Hopts Hfew. unfold main. unfold bind at 1.
  rewrite getopt_loop_known by assumption.
  apply Z.gtb_lt in Hfew. now rewrite Hfew.
Qed.

Lemma stage_events_staging finalize files :
  forallb is_staging (flat_map (stage_events w finalize) files) = true.
Proof.
  induction files as [|f files IH]; [reflexivity |].
  cbn [flat_map]. rewrite forallb_app, IH, andb_true_r.
  unfold stage_events, loader_call.
  destruct (xmlReadFile w f) as [doc|]; [| reflexivity].
  now destruct (classify doc).
Qed.

Lemma main_no_usage front prog_mbn support opts h :
  forallb option_known opts = true ->
  support <> [] ->
  exists t,
    snd (main w (front ++ prog_mbn :: support) opts
              (Z.of_nat (List.length front)) h) = h ++ t
    /\ forallb (fun e => negb (is_usage e)) t = true.
Proof.
  intros Hopts Hsupport. rewrite main_run by assumption.
  revert h. apply emits_bind; [| intros _].
  - eapply emits_weaken; [| apply stage_loop_emits].
    intros e. now destruct e.
  - eapply emits_weaken; [| apply session_phase_emits].
    intros e. now destruct e.
Qed.

End Main.

(** C5: with accepted options, a programmer image and support files
    behind it, [main] stages the support files one by one in argument
    order (each is read and classified, then its loader is called once)
    before anything else.  If all are staged, these events come first
    and no file is read or loaded afterwards, when the session is
    opened and driven.  If a file is not staged (it does not parse, is
    of an unknown or unloadable kind, or its loader answers a negative
    value), the run ends with exit code 1: every file before it has been
    staged once, the failing file has been read and, if it has a loader,
    loaded once, only diagnostics follow, no later file is touched and
    no libusb call or protocol engine has run. *)
Theorem staging_before_session (w : world) (front : list string)
  (prog_mbn : string) (support : list string)
  (opts : list (ascii * string)) (finalize : bool) (h : trace) :
  forallb option_known opts = true ->
  finalize = qdl_finalize_provisioning (options_after opts) ->
  (support <> [] ->
   forallb (staged w finalize) support = true ->
   exists t,
     snd (main w (front ++ prog_mbn :: support) opts
               (Z.of_nat (List.length front)) h) =
       h ++ flat_map (stage_events w finalize) support ++ t
     /\ forallb is_staging (flat_map (stage_events w finalize) support) = true
     /\ forallb (fun e => negb (is_staging e)) t = true)
  /\ (forall pre bad post,
        support = pre ++ bad :: post ->
        forallb (staged w finalize) pre = true ->
        staged w finalize bad = false ->
        exists msgs,
          main w (front ++ prog_mbn :: support) opts
               (Z.of_nat (List.length front)) h =
            (Exit 1,
             h ++ flat_map (stage_events w finalize) pre
               ++ stage_events w finalize bad ++ msgs)
          /\ forallb is_stderr msgs = true).
Proof.
  intros Hopts ->. split.
  - intros Hne Hstaged. rewrite main_run by assumption.
    destruct support as [|f files]; [contradiction |].
    replace (front ++ prog_mbn :: f :: files)
      with ((front ++ [prog_mbn]) ++ f :: files) by now rewrite <- app_assoc.
    unfold bind at 1.
    rewrite stage_loop_staged by (assumption || cbn; lia).
    destruct (session_phase_emits w (options_after opts) prog_mbn
                (h ++ flat_map
                        (stage_events w (qdl_finalize_provisioning
                                           (options_after opts)))
                        (f :: files)))
      as (t & Ht & Hkind).
    exists t. rewrite Ht, <- app_assoc.
    split; [reflexivity |]. split; [apply stage_events_staging |].
    rewrite forallb_forall in *. intros e He.
    specialize (Hkind e He). unfold usb_or_stderr in Hkind.
    now destruct e.
  - intros pre bad post -> Hpre Hbad.
    rewrite main_run by (assumption || now destruct pre).
    replace (front ++ prog_mbn :: pre ++ bad :: post)
      with ((front ++ [prog_mbn]) ++ pre ++ bad :: post)
      by now rewrite <- app_assoc.
    destruct (stage_loop_first_failure w _ pre (front ++ [prog_mbn]) bad post
                (List.length (pre ++ bad :: post)) h Hpre Hbad)
      as (msgs & Hrun & Hm);
      [rewrite length_app; lia |].
    exists msgs. split; [| exact Hm].
    unfold bind at 1. now rewrite Hrun.
Qed.

Lemma staging_before_session_witness :
  exists msgs,
    main (world_with [edl_device] (fun _ => 0))
         ["qdl"; "prog.mbn"; "rawprogram0.xml"; "widget.xml"; "patch0.xml"]%string
         [] 1 [] =
      (Exit 1,
       [EvXmlReadFile "rawprogram0.xml"; EvProgramLoad "rawprogram0.xml";
        EvXmlReadFile "widget.xml"] ++ msgs)
    /\ forallb is_stderr msgs = true.
Proof.
  destruct (staging_before_session
              (world_with [edl_device] (fun _ => 0)) ["qdl"%string]
              "prog.mbn" ["rawprogram0.xml"; "widget.xml"; "patch0.xml"]%string
              [] false [] eq_refl eq_refl) as [_ Hfail].
  exact (Hfail ["rawprogram0.xml"%string] "widget.xml"%string
               ["patch0.xml"%string] eq_refl eq_refl eq_refl).
Defined.

(** C9 (amended): with accepted options, an invocation with fewer than
    two positional arguments, in particular one that names only the
    programmer image, prints the usage text and returns 1 with nothing
    else done; with a programmer image and at least one support file the
    usage text is never printed. *)
Theorem usage_below_two_positionals (w : world) (argv : list string)
  (opts : list (ascii * string)) (optind : Z) (h : trace) :
  forallb option_known opts = true ->
  0 <= optind ->
  (Z.of_nat (List.length argv) < optind + 2 ->
   main w argv opts optind h = (Ret 1, h ++ [EvUsage]))
  /\ (optind + 2 <= Z.of_nat (List.length argv) ->
      exists t,
        snd (main w argv opts optind h) = h ++ t
        /\ forallb (fun e => negb (is_usage e)) t = true).
Proof.
  intros Hopts Hind. split; [now apply main_usage |].
  intros Hlen.
  destruct (nth_split argv EmptyString (n := Z.to_nat optind) ltac:(lia))
    as (front & rest & Hargv & Hfront).
  assert (optind = Z.of_nat (List.length front)) as -> by lia.
  rewrite Hargv. rewrite Hargv, length_app in Hlen. cbn [List.length] in Hlen.
  apply main_no_usage; [assumption |].
  destruct rest; [cbn in Hlen; lia | discriminate].
Qed.

Lemma usage_below_two_positionals_witness :
  main quiet_world ["qdl"; "--debug"; "prog.mbn"]%string
       [("d"%char, EmptyString)] 2 [] = (Ret 1, [EvUsage]).
Proof.
  apply (usage_below_two_positionals quiet_world
           ["qdl"; "--debug"; "prog.mbn"]%string [("d"%char, EmptyString)] 2 []);
    [reflexivity | lia | cbn; lia].
Defined.

(** C9 as stated fails: naming only the programmer image is a usage
    error. *)
Lemma main_programmer_image_only :
  main quiet_world ["qdl"; "prog.mbn"]%string [] 1 [] = (Ret 1, [EvUsage])
  /\ skipn 2 ["qdl"; "prog.mbn"]%string = [].
Proof.
  split; reflexivity.
Qed.

(** A whole run: two support files staged, the download-mode device
    found behind a foreign one, both protocol engines run. *)
Example main_full_run :
  main (world_with [foreign_device; edl_device] (fun _ => 0))
       ["qdl"; "--storage"; "emmc"; "prog.mbn"; "rawprogram0.xml";
        "patch0.xml"]%string
       [("s"%char, "emmc"%string)] 3 [] =
    (Ret 0,
     [EvXmlReadFile "rawprogram0.xml"; EvProgramLoad "rawprogram0.xml";
      EvXmlReadFile "patch0.xml"; EvPatchLoad "patch0.xml";
      EvUsbInit; EvGetDeviceList; EvGetDeviceDescriptor 200;
      EvGetDeviceDescriptor 100; EvGetConfigDescriptor 100 0; EvOpen 100;
      EvFreeDeviceList; EvClaimInterface 7 1;
      EvSaharaRun (mk_qdl 7 130 2 64 1024) "prog.mbn";
      EvFirehoseRun (mk_qdl 7 130 2 64 1024) None "emmc"]).
Proof. reflexivity. Qed.

(** ** Further properties of the writer *)

Lemma accepted_app (w : world) (t1 t2 : trace) :
  forall h,
    accepted w h (t1 ++ t2) = accepted w h t1 && accepted w (h ++ t1) t2.
Proof.
  induction t1 as [|e t1 IH]; intros h; cbn [app accepted].
  - now rewrite app_nil_r.
  - rewrite IH, <- app_assoc. cbn [app]. now rewrite andb_assoc.
Qed.

Section WriterFaults.

Variable w : world.
Variable qdl : qdl_device.
Hypothesis P_pos : 0 < out_maxpktsize qdl.

(** The loop either issues all prescribed transfers, each answered 0, or
    stops at the first one libusb answers with an error. *)
Lemma write_loop_outcomes :
  forall fuel size writed off h,
    0 <= size -> 0 <= writed -> writed + size <= INT_MAX ->
    (Z.to_nat size <= fuel)%nat ->
    (write_loop w fuel qdl size writed off h =
       (Ret (writed + size),
        h ++ out_transfers qdl off (spec_chunks (out_maxpktsize qdl) size))
     /\ accepted w h
          (out_transfers qdl off (spec_chunks (out_maxpktsize qdl) size))
        = true)
    \/ exists done failed rest,
         out_transfers qdl off (spec_chunks (out_maxpktsize qdl) size)
         = done ++ failed :: rest
         /\ accepted w h done = true
         /\ answer w (h ++ done) failed <> 0
         /\ write_loop w fuel qdl size writed off h =
              (Exit 1,
               h ++ done ++ [failed; EvStderr "libusb_bulk_transfer error"]).
Proof.
  induction fuel as [|fuel IH]; intros size writed off h Hs Hw Hmax Hfuel.
  - left. assert (size = 0) as -> by lia.
    cbn [write_loop Z.gtb Z.compare].
    rewrite spec_chunks_0 by assumption. unfold ret.
    now rewrite Z.add_0_r, app_nil_r.
  - cbn [write_loop]. destruct (size >? 0) eqn:E.
    + apply Z.gtb_lt in E. rewrite xfer_value by lia.
      assert (0 < Z.min size (out_maxpktsize qdl) <= size) as Hx by lia.
      assert (spec_chunks (out_maxpktsize qdl) size =
              Z.min size (out_maxpktsize qdl)
              :: spec_chunks (out_maxpktsize qdl)
                   (size - Z.min size (out_maxpktsize qdl))) as Hchunks.
      { destruct (Z_lt_le_dec (out_maxpktsize qdl) size) as [Hlt|Hge].
        - rewrite Z.min_r by lia. now apply spec_chunks_step.
        - rewrite Z.min_l by lia. rewrite Z.sub_diag.
          rewrite spec_chunks_0 by assumption.
          now apply spec_chunks_last. }
      rewrite Hchunks. cbn [out_transfers accepted answer].
      unfold bind, bulk_transfer. cbn [fst].
      destruct (c_true _) eqn:Hans.
      * right. eexists [], _, _. split; [reflexivity |].
        split; [reflexivity |]. split.
        -- rewrite app_nil_r. cbn [answer]. now apply c_true_iff.
        -- unfold err. cbv beta. now rewrite <- app_assoc.
      * assert (fst (libusb_bulk_transfer w h (handle qdl)
                       (to_uchar (out_ep qdl)) (Some off)
                       (Z.min size (out_maxpktsize qdl)) 0) = 0) as Hzero.
        { unfold c_true in Hans. apply negb_false_iff in Hans.
          now apply Z.eqb_eq. }
        rewrite Hzero. cbn [Z.eqb andb].
        rewrite (to_int_small (size - _)), (to_int_small (writed + _))
          by (unfold INT_MIN, INT_MAX in *; lia).
        destruct (IH (size - Z.min size (out_maxpktsize qdl))
                     (writed + Z.min size (out_maxpktsize qdl))
                     (off + Z.min size (out_maxpktsize qdl))
                     (h ++ [EvBulkTransfer (handle qdl)
                                           (to_uchar (out_ep qdl)) (Some off)
                                           (Z.min size (out_maxpktsize qdl))
                                           0])
                     ltac:(lia) ltac:(lia) ltac:(lia) ltac:(lia))
          as [[Hrun Hacc]
             | (done & failed & rest & Hsplit & Hacc & Hfail & Hrun)].
        -- left. split; [| exact Hacc]. rewrite Hrun. rewrite <- app_assoc.
           f_equal. f_equal. lia.
        -- right. eexists (_ :: done), failed, rest.
           split; [cbn [app]; now rewrite Hsplit |]. split; [| split].
           ++ cbn [accepted answer]. rewrite Hzero. exact Hacc.
           ++ now rewrite <- app_assoc in Hfail.
           ++ rewrite Hrun. now rewrite <- !app_assoc.
    + left. rewrite Z.gtb_ltb in E. apply Z.ltb_ge in E.
      assert (size = 0) as -> by lia.
      rewrite spec_chunks_0 by assumption. unfold ret.
      now rewrite Z.add_0_r, app_nil_r.
Qed.

End WriterFaults.

(** X1: for a buffer of at most [INT_MAX] bytes and a positive packet
    size, [qdl_write] ends in one of two ways, whatever libusb answers.
    Either libusb answered 0 to every prescribed transfer, and
    [qdl_write] returns [len] after all of them.  Or the process exits
    with status 1 right after the first transfer that libusb answered
    with an error: the transfers before it are the prescribed ones, each
    of them was answered 0, and nothing is sent after it. *)
Theorem qdl_write_failure_is_fatal (w : world) (qdl : qdl_device) (len : Z)
  (eot : bool) (h : trace) :
  0 <= len <= INT_MAX ->
  0 < out_maxpktsize qdl ->
  (qdl_write w qdl len eot h = (Ret len, h ++ write_transfers qdl len eot)
   /\ accepted w h (write_transfers qdl len eot) = true)
  \/ exists done failed rest,
       write_transfers qdl len eot = done ++ failed :: rest
       /\ accepted w h done = true
       /\ answer w (h ++ done) failed <> 0
       /\ qdl_write w qdl len eot h =
            (Exit 1,
             h ++ done ++ [failed; EvStderr "libusb_bulk_transfer error"]).
Proof.
  intros Hlen HP. unfold qdl_write, write_transfers, bind.
  rewrite to_int_small by (unfold INT_MIN; lia).
  destruct (write_loop_outcomes w qdl HP (Z.to_nat len) len 0 0 h
              ltac:(lia) ltac:(lia) ltac:(lia) ltac:(lia))
    as [[Hrun Hacc] | (done & failed & rest & Hsplit & Hacc & Hfail & Hrun)];
    rewrite Hrun.
  - rewrite Z.add_0_l. rewrite accepted_app, Hacc. cbn [andb].
    destruct eot; cbn [andb].
    + destruct (out_maxpktsize qdl =? 0) eqn:E0;
        [apply Z.eqb_eq in E0; lia |].
      destruct (len mod out_maxpktsize qdl =? 0).
      * unfold bulk_transfer. cbn [fst].
        destruct (c_true _) eqn:Hans.
        -- right. eexists _, (zlp qdl), []. split; [reflexivity |].
           split; [exact Hacc |]. split.
           ++ cbn [answer zlp]. now apply c_true_iff.
           ++ unfold err, zlp. now rewrite <- !app_assoc.
        -- left. split.
           ++ unfold ret, zlp. now rewrite <- app_assoc.
           ++ cbn [accepted answer zlp].
              unfold c_true in Hans. apply negb_false_iff in Hans.
              now rewrite Hans.
      * left. split; [| reflexivity]. unfold ret. now rewrite app_nil_r.
    + left. split; [| reflexivity]. unfold ret. now rewrite app_nil_r.
  - right.
    exists done, failed,
      (rest ++ (if eot && (len mod out_maxpktsize qdl =? 0)
                then [zlp qdl] else [])).
    split; [now rewrite Hsplit, <- app_assoc |]. now repeat split.
Qed.

Lemma qdl_write_failure_is_fatal_witness :
  (qdl_write quiet_world sample_qdl 1024 true [] =
     (Ret 1024, write_transfers sample_qdl 1024 true)
   /\ accepted quiet_world [] (write_transfers sample_qdl 1024 true) = true)
  \/ exists done failed rest,
       write_transfers sample_qdl 1024 true = done ++ failed :: rest
       /\ accepted quiet_world [] done = true
       /\ answer quiet_world ([] ++ done) failed <> 0
       /\ qdl_write quiet_world sample_qdl 1024 true [] =
            (Exit 1, [] ++ done
                     ++ [failed; EvStderr "libusb_bulk_transfer error"]).
Proof.
  apply (qdl_write_failure_is_fatal quiet_world sample_qdl 1024 true []);
    [unfold INT_MAX; lia | cbn; lia].
Defined.

Lemma write_loop_spins (w : world) (qdl : qdl_device) (size : Z) :
  out_maxpktsize qdl = 0 ->
  transfers_ok w ->
  0 < size <= INT_MAX ->
  forall fuel writed off h,
    INT_MIN <= writed <= INT_MAX ->
    write_loop w fuel qdl size writed off h =
      (Diverge,
       h ++ repeat (EvBulkTransfer (handle qdl) (to_uchar (out_ep qdl))
                                   (Some off) 0 0) fuel).
Proof.
  intros HP Hok Hs.
  assert ((size >? 0) = true) as Hpos by (apply Z.gtb_lt; lia).
  induction fuel as [|fuel IH]; intros writed off h Hw;
    cbn [write_loop repeat]; rewrite Hpos.
  - unfold diverge. now rewrite app_nil_r.
  - rewrite HP, to_size_t_small by lia. rewrite Hpos.
    change (to_int 0) with 0.
    unfold bind at 1. unfold bulk_transfer. cbn [fst].
    rewrite Hok. cbn [c_true Z.eqb negb].
    rewrite Z.sub_0_r, !Z.add_0_r, !to_int_small
      by (unfold INT_MIN, INT_MAX in *; lia).
    rewrite IH by assumption. now rewrite <- app_assoc.
Qed.

(** X2: with a packet size of 0 and a transport that accepts everything,
    [qdl_write] of a non-empty buffer of at most [INT_MAX] bytes (the
    length the [int] counter of the loop holds unchanged) never comes
    back: however many iterations the loop is given, it has only issued
    that many zero-length transfers at the start of the buffer and is
    still running.  Of an empty buffer it returns 0 without a transfer
    when [eot] is clear, and divides by zero when [eot] is set. *)
Theorem qdl_write_zero_packet_size (w : world) (qdl : qdl_device) (len : Z)
  (eot : bool) (h : trace) :
  out_maxpktsize qdl = 0 ->
  transfers_ok w ->
  0 <= len <= INT_MAX ->
  (0 < len ->
   (forall fuel,
      write_loop w fuel qdl len 0 0 h =
        (Diverge,
         h ++ repeat (EvBulkTransfer (handle qdl) (to_uchar (out_ep qdl))
                                     (Some 0) 0 0) fuel))
   /\ fst (qdl_write w qdl len eot h) = Diverge)
  /\ (len = 0 ->
      qdl_write w qdl len eot h = (if eot then Trap else Ret 0, h)).
Proof.
  intros HP Hok Hlen. split.
  - intros Hpos. split.
    + intros fuel. apply write_loop_spins; try assumption;
        unfold INT_MIN, INT_MAX in *; lia.
    + unfold qdl_write. rewrite to_int_small by (unfold INT_MIN; lia).
      unfold bind at 1.
      rewrite (write_loop_spins w qdl len HP Hok)
        by (unfold INT_MIN, INT_MAX in *; lia).
      reflexivity.
  - intros ->. unfold qdl_write, bind. cbn [to_int Z.to_nat write_loop].
    change (to_int 0) with 0. cbn [Z.to_nat write_loop Z.gtb Z.compare].
    unfold ret. rewrite HP. now destruct eot.
Qed.

Lemma qdl_write_zero_packet_size_witness :
  fst (qdl_write quiet_world (mk_qdl 1 129 1 0 0) 4 true []) = Diverge
  /\ qdl_write quiet_world (mk_qdl 1 129 1 0 0) 0 true [] = (Trap, []).
Proof.
  split.
  - apply (qdl_write_zero_packet_size quiet_world (mk_qdl 1 129 1 0 0) 4
             true []);
      [reflexivity | intros ? ? ? ? ? ?; reflexivity
      | unfold INT_MAX; lia | lia].
  - apply (qdl_write_zero_packet_size quiet_world (mk_qdl 1 129 1 0 0) 0
             true []);
      [reflexivity | intros ? ? ? ? ? ?; reflexivity
      | unfold INT_MAX; lia | reflexivity].
Defined.

Lemma spec_chunks_add (P len1 len2 : Z) :
  0 < P -> 0 <= len1 -> 0 <= len2 -> len1 mod P = 0 ->
  spec_chunks P (len1 + len2) = spec_chunks P len1 ++ spec_chunks P len2.
Proof.
  intros HP H1 H2 Hmod. unfold spec_chunks. rewrite Hmod. cbn [Z.eqb].
  rewrite app_nil_r, app_assoc, <- repeat_app.
  pose proof (Z.div_mod len1 P ltac:(lia)) as Hdiv. rewrite Hmod in Hdiv.
  assert (0 <= len1 / P) by (apply Z.div_pos; lia).
  assert (0 <= len2 / P) by (apply Z.div_pos; lia).
  replace (len1 + len2) with (len2 + (len1 / P) * P) by lia.
  rewrite Z.div_add, Z.mod_add by lia.
  replace (Z.to_nat (len2 / P + len1 / P))
    with (Z.to_nat (len1 / P) + Z.to_nat (len2 / P))%nat by lia.
  reflexivity.
Qed.

Lemma bulk_lengths_app (t1 t2 : trace) :
  bulk_lengths (t1 ++ t2) = bulk_lengths t1 ++ bulk_lengths t2.
Proof.
  induction t1 as [|e t1 IH]; [reflexivity |].
  destruct e; cbn [app bulk_lengths]; now rewrite IH.
Qed.

Lemma bulk_lengths_out_transfers (qdl : qdl_device) (chunks : list Z) :
  forall off, bulk_lengths (out_transfers qdl off chunks) = chunks.
Proof.
  induction chunks as [|c cs IH]; intros off; [reflexivity |].
  cbn [out_transfers bulk_lengths]. now rewrite IH.
Qed.

(** X3: a buffer written in two calls, the first a whole number of
    packets long and without [eot], goes out in transfers of the same
    lengths as the buffer written in one call: splitting a write at a
    packet boundary does not change the framing. *)
Theorem qdl_write_split_at_packet_boundary (w : world) (qdl : qdl_device)
  (len1 len2 : Z) (eot : bool) (h : trace) :
  transfers_ok w ->
  0 < out_maxpktsize qdl ->
  0 <= len1 -> 0 <= len2 -> len1 + len2 <= INT_MAX ->
  len1 mod out_maxpktsize qdl = 0 ->
  exists t1 t2 t,
    qdl_write w qdl len1 false h = (Ret len1, h ++ t1)
    /\ qdl_write w qdl len2 eot (h ++ t1) = (Ret len2, (h ++ t1) ++ t2)
    /\ qdl_write w qdl (len1 + len2) eot h = (Ret (len1 + len2), h ++ t)
    /\ bulk_lengths (t1 ++ t2) = bulk_lengths t.
Proof.
  intros Hok HP H1 H2 Hmax Hmod.
  exists (write_transfers qdl len1 false), (write_transfers qdl len2 eot),
         (write_transfers qdl (len1 + len2) eot).
  repeat split; try (apply qdl_write_run; (assumption || lia)).
  unfold write_transfers. cbn [andb]. rewrite app_nil_r.
  rewrite !bulk_lengths_app, !bulk_lengths_out_transfers.
  rewrite spec_chunks_add by assumption. rewrite <- app_assoc.
  replace ((len1 + len2) mod out_maxpktsize qdl)
    with (len2 mod out_maxpktsize qdl); [reflexivity |].
  pose proof (Z.div_mod len1 (out_maxpktsize qdl) ltac:(lia)) as Hdiv.
  rewrite Hmod in Hdiv.
  replace (len1 + len2)
    with (len2 + (len1 / out_maxpktsize qdl) * out_maxpktsize qdl) by lia.
  now rewrite Z.mod_add by lia.
Qed.

Lemma qdl_write_split_at_packet_boundary_witness :
  exists t1 t2 t,
    qdl_write quiet_world sample_qdl 1024 false [] = (Ret 1024, [] ++ t1)
    /\ qdl_write quiet_world sample_qdl 700 true ([] ++ t1)
       = (Ret 700, ([] ++ t1) ++ t2)
    /\ qdl_write quiet_world sample_qdl (1024 + 700) true []
       = (Ret (1024 + 700), [] ++ t)
    /\ bulk_lengths (t1 ++ t2) = bulk_lengths t.
Proof.
  apply (qdl_write_split_at_packet_boundary quiet_world sample_qdl 1024 700
           true []);
    [intros ? ? ? ? ? ?; reflexivity | cbn; lia | lia | lia
    | unfold INT_MAX; lia | reflexivity].
Defined.

(** ** How the walk of a device and the program can end *)

(** X4: whatever the device and whatever libusb answers,
    [parse_usb_desc] ends in one of three ways.  It returns [-EINVAL]
    with the session and the interface number exactly as they were
    passed in.  Or it returns 0: then the device descriptor was read,
    the device has the fixed identity and was opened, the interface
    number is that of the first interface of the device, configuration by
    configuration, that passes the class filter, and the session is made
    from this device alone, all five
    fields at once: the handle is the one of [libusb_open], the
    endpoint fields are the automatic variables as the endpoint scans of
    the interfaces of the device up to and including the selected one
    leave them (a variable never assigned is read as it is); nothing of
    the session passed in is kept.  Or the process exits with
    status 1. *)
Theorem parse_usb_desc_all_or_nothing (w : world) (d : libusb_device)
  (qdl : qdl_device) (intf : Z) (h : trace) :
  match fst (parse_usb_desc w d qdl intf h) with
  | Ret res =>
      res = (- EINVAL, qdl, intf)
      \/ (fst (get_device_descriptor d) = 0
          /\ identity_ok d = true
          /\ fst (libusb_open d) = 0
          /\ exists cpre c cpost ipre i ipost l,
               config_descriptors d = cpre ++ c :: cpost
               /\ interface (snd c) = ipre ++ i :: ipost
               /\ forallb (fun x => negb (signature_ok x))
                          (interfaces_of cpre ++ ipre) = true
               /\ signature_ok i = true
               /\ endpoint_loop
                    (endpoints_of (interfaces_of cpre ++ ipre ++ [i]))
                    no_locals = Some l
               /\ res = (0,
                         mk_qdl (snd (libusb_open d))
                                (read_local w "in" (v_in l))
                                (read_local w "out" (v_out l))
                                (read_local w "in_size" (v_in_size l))
                                (read_local w "out_size" (v_out_size l)),
                         bInterfaceNumber (altsetting i)))
  | Exit code => code = 1
  | Trap => False
  | Diverge => False
  end.
Proof.
  exact (parse_usb_desc_ends w d qdl intf h).
Qed.

(** ** The devices that are passed over, exactly *)

Lemma endpoint_loop_some eps l l' :
  endpoint_loop eps l = Some l' -> forallb endpoint_wf eps = true.
Proof.
  intros H. destruct (forallb endpoint_wf eps) eqn:E; [reflexivity |].
  rewrite (endpoint_loop_malformed eps l E) in H. discriminate.
Qed.

Section PassedOverExact.

Variable w : world.
Variable d : libusb_device.
Variable qdl : qdl_device.
Variable intf : Z.

(** How the interface loop can come back: with all interfaces passed
    over, with a choice, or at the first interface that fails a check or
    its endpoint scan. *)
Lemma interface_loop_outcome ifs :
  forall l h0,
    match interface_loop w d qdl intf ifs l h0 with
    | (Ret (Next _), h1) => forallb clean_interface ifs = true /\ h1 = h0
    | (Ret (Return res), h1) =>
        fst (fst res) = 0
        \/ exists ipre i ipost,
             ifs = ipre ++ i :: ipost
             /\ forallb clean_interface ipre = true
             /\ interface_wf i = false
             /\ h1 = h0
    | _ => True
    end.
Proof.
  induction ifs as [|i ifs IH]; intros l h0; [now split |].
  rewrite interface_loop_cons.
  destruct (if_bDescriptorType (altsetting i) =? LIBUSB_DT_INTERFACE) eqn:Et;
    cbn [negb].
  2:{ right. exists [], i, ifs. repeat split.
      unfold interface_wf. now rewrite Et. }
  destruct (if_bLength (altsetting i) <? LIBUSB_DT_INTERFACE_SIZE) eqn:El.
  { right. exists [], i, ifs. repeat split.
    unfold interface_wf. apply Z.ltb_lt in El.
    assert ((LIBUSB_DT_INTERFACE_SIZE <=? if_bLength (altsetting i)) = false)
      as -> by (apply Z.leb_gt; exact El).
    now rewrite andb_false_r. }
  destruct (endpoint_loop (endpoint (altsetting i)) l) as [l'|] eqn:Hep.
  2:{ right. exists [], i, ifs. repeat split.
      unfold interface_wf.
      destruct (forallb endpoint_wf (endpoint (altsetting i))) eqn:E;
        [| now rewrite andb_false_r].
      destruct (endpoint_loop_wf _ l E) as [l' Hl']. congruence. }
  destruct (signature_ok i) eqn:Hsig.
  - unfold bind, emit.
    destruct (c_true (fst (libusb_open d))); [exact I | now left].
  - assert (clean_interface i = true) as Hclean.
    { unfold clean_interface, interface_wf.
      rewrite Et, Hsig, (endpoint_loop_some _ _ _ Hep).
      apply Z.ltb_ge in El. apply Z.leb_le in El. now rewrite El. }
    specialize (IH l' h0).
    destruct (interface_loop w d qdl intf ifs l' h0)
      as [[[l''|res]| | |] h1]; try exact I.
    + destruct IH as [IH ->]. cbn [forallb]. now rewrite Hclean, IH.
    + destruct IH as [IH|(ipre & i' & ipost & -> & Hpre & Hbad & ->)];
        [now left | right].
      exists (i :: ipre), i', ipost. repeat split; try assumption.
      cbn [forallb]. now rewrite Hclean, Hpre.
Qed.

Hypothesis desc_read : fst (get_device_descriptor d) = 0.
Hypothesis identity : identity_ok d = true.
Hypothesis desc_type :
  dev_bDescriptorType (snd (get_device_descriptor d)) = LIBUSB_DT_DEVICE.

Lemma config_loop_outcome n :
  forall done rest l h,
    config_descriptors d = done ++ rest ->
    forallb clean_config done = true ->
    (List.length done + n
     = Z.to_nat (bNumConfigurations (snd (get_device_descriptor d))))%nat ->
    match config_loop w d qdl intf n (Z.of_nat (List.length done)) l
            (h ++ EvGetDeviceDescriptor (dev_ptr d)
               :: config_reads d 0 (List.length done)) with
    | (Ret res, h1) =>
        fst (fst res) = 0 \/ exists t, passed_over d t /\ h1 = h ++ t
    | _ => True
    end.
Proof.
  induction n as [|n IH]; intros done rest l h Hcfg Hclean Hn;
    cbn [config_loop].
  - right. eexists. split; [| reflexivity].
    apply (over_walked d done rest); try assumption. lia.
  - unfold bind at 1. unfold emit at 1. destruct rest as [|c rest].
    + rewrite app_nil_r in Hcfg. rewrite <- Hcfg, get_config_beyond.
      exact I.
    + rewrite (get_config_at d done c rest Hcfg).
      destruct (c_true (fst c)) eqn:Hcret; [exact I |].
      apply c_true_false in Hcret.
      assert ((h ++ EvGetDeviceDescriptor (dev_ptr d)
                 :: config_reads d 0 (List.length done))
              ++ [EvGetConfigDescriptor (dev_ptr d)
                                        (Z.of_nat (List.length done))]
              = h ++ EvGetDeviceDescriptor (dev_ptr d)
                  :: config_reads d 0 (S (List.length done))) as Hh.
      { rewrite config_reads_snoc. cbn [Nat.add].
        now rewrite <- !app_assoc. }
      rewrite Hh.
      destruct (cfg_bDescriptorType (snd c) =? LIBUSB_DT_CONFIG) eqn:Et;
        cbn [negb].
      2:{ right. eexists. split; [| reflexivity].
          apply over_fault; try assumption.
          apply (fault_config d done c rest); try assumption; [lia |].
          now apply Z.eqb_neq. }
      apply Z.eqb_eq in Et. unfold bind.
      pose proof (interface_loop_outcome (interface (snd c)) l
                    (h ++ EvGetDeviceDescriptor (dev_ptr d)
                       :: config_reads d 0 (S (List.length done)))) as Hifs.
      destruct (interface_loop w d qdl intf (interface (snd c)) l _)
        as [[[l'|res]| | |] h1]; try exact I.
      * destruct Hifs as [Hifs ->].
        replace (Z.of_nat (List.length done) + 1)
          with (Z.of_nat (List.length (done ++ [c])))
          by (rewrite length_app; cbn [List.length]; lia).
        replace (S (List.length done)) with (List.length (done ++ [c]))
          by (rewrite length_app; cbn [List.length]; lia).
        apply (IH (done ++ [c]) rest l' h).
        -- now rewrite <- app_assoc.
        -- rewrite forallb_app, Hclean. cbn [forallb andb].
           unfold clean_config. rewrite Hcret, Et, Hifs. reflexivity.
        -- rewrite length_app. cbn [List.length]. lia.
      * unfold ret.
        destruct Hifs as [Hz|(ipre & i & ipost & Hsplit & Hpre & Hbad & ->)];
          [now left | right].
        eexists. split; [| reflexivity].
        apply (over_malformed d done c rest ipre i ipost);
          try assumption. lia.
Qed.

End PassedOverExact.

(** [passed_over] leaves nothing out: whenever [parse_usb_desc] hands
    back a value other than 0, the device is passed over in the sense
    above, with the trace that was emitted. *)
Lemma passed_over_exact (w : world) (d : libusb_device) (qdl : qdl_device)
  (intf : Z) (h : trace) :
  match parse_usb_desc w d qdl intf h with
  | (Ret res, h1) =>
      fst (fst res) = 0 \/ exists t, passed_over d t /\ h1 = h ++ t
  | _ => True
  end.
Proof.
  destruct (c_true (fst (get_device_descriptor d))) eqn:Hret.
  - unfold parse_usb_desc, bind, emit. now rewrite Hret.
  - apply c_true_false in Hret.
    destruct (identity_ok d) eqn:Hid.
    + destruct (Z.eq_dec (dev_bDescriptorType (snd (get_device_descriptor d)))
                         LIBUSB_DT_DEVICE) as [Htype|Htype].
      * rewrite parse_walk by assumption.
        apply (config_loop_outcome w d qdl intf Hret Hid Htype _ []
                 (config_descriptors d) no_locals h);
          reflexivity.
      * rewrite parse_wrong_type by assumption.
        right. eexists. split; [| reflexivity].
        apply over_fault; try assumption. now apply fault_device.
    + rewrite parse_wrong_identity by assumption.
      right. eexists. split; [| reflexivity]. now apply over_identity.
Qed.

Section EndsProgram.

Variable w : world.

Lemma device_loop_ends usb :
  forall qdl intf, ends_with (fun _ => True) (device_loop w usb qdl intf).
Proof.
  induction usb as [|d usb IH]; intros qdl intf; cbn [device_loop].
  - now apply ends_ret.
  - eapply ends_bind; [apply parse_usb_desc_ends | intros [[r q] i] _].
    destruct (negb (c_true r)); [now apply ends_ret | apply IH].
Qed.

Lemma usb_open_ends qdl :
  ends_with (fun r => fst r = 0 \/ fst r = - ENOENT) (usb_open w qdl).
Proof.
  unfold usb_open. cbv zeta. repeat ends_step.
  apply (ends_bind (fun _ => True)); [apply device_loop_ends | intros found _].
  repeat ends_step; now (left + right).
Qed.

Lemma session_phase_ends o prog_mbn :
  ends_with (fun r => r = 0 \/ r = 1) (session_phase w o prog_mbn).
Proof.
  unfold session_phase.
  apply (ends_bind (fun r => fst r = 0 \/ fst r = - ENOENT));
    [apply usb_open_ends | intros r _].
  repeat ends_step; now (left + right).
Qed.

Lemma detect_type_ends f : ends_with (fun _ => True) (detect_type w f).
Proof. unfold detect_type. repeat ends_step; exact I. Qed.

Lemma stage_file_ends finalize f :
  ends_with (fun _ => True) (stage_file w finalize f).
Proof.
  unfold stage_file.
  apply (ends_bind (fun _ => True)); [apply detect_type_ends | intros t _].
  repeat ends_step; exact I.
Qed.

Lemma argv_at_ends (argv : list string) (i : Z) :
  0 <= i < Z.of_nat (List.length argv) ->
  ends_with (fun _ => True) (argv_at argv i).
Proof.
  intros Hi. unfold argv_at.
  destruct (i <? 0) eqn:E; [apply Z.ltb_lt in E; lia |].
  destruct (nth_error argv (Z.to_nat i)) eqn:En; [now apply ends_ret |].
  apply nth_error_None in En. lia.
Qed.

Lemma stage_loop_ends argv finalize n :
  forall optind,
    0 <= optind < Z.of_nat (List.length argv) ->
    (Z.to_nat (Z.of_nat (List.length argv) - optind) <= S n)%nat ->
    ends_with (fun _ => True) (stage_loop w argv finalize n optind).
Proof.
  induction n as [|n IH]; intros optind Hind Hn; cbn [stage_loop];
    (apply (ends_bind (fun _ => True));
       [now apply argv_at_ends | intros f _]);
    (apply (ends_bind (fun _ => True));
       [apply stage_file_ends | intros _ _]);
    destruct (optind + 1 <? Z.of_nat (List.length argv)) eqn:E;
    try (now apply ends_ret); apply Z.ltb_lt in E.
  - lia.
  - apply IH; lia.
Qed.

Lemma getopt_loop_ends opts :
  forall o, ends_with (flow_post (fun r => r = 1)) (getopt_loop opts o).
Proof.
  induction opts as [|[opt optarg] opts IH]; intros o; cbn [getopt_loop];
    repeat ends_step; try apply IH; cbn [flow_post]; auto.
  unfold print_usage. ends_step. now apply ends_ret.
Qed.

End EndsProgram.

Lemma main_ends (w : world) (argv : list string)
  (opts : list (ascii * string)) (optind : Z) :
  0 <= optind ->
  ends_with (fun r => r = 0 \/ r = 1) (main w argv opts optind).
Proof.
  intros Hind. unfold main. cbv zeta.
  apply (ends_bind (flow_post (fun r => r = 1)));
    [apply getopt_loop_ends | intros [o|r] Hf].
  - destruct (optind + 2 >? Z.of_nat (List.length argv)) eqn:E.
    + unfold print_usage. ends_step. apply ends_ret. now right.
    + rewrite Z.gtb_ltb in E. apply Z.ltb_ge in E.
      apply (ends_bind (fun _ => True));
        [apply argv_at_ends; lia | intros prog_mbn _].
      apply (ends_bind (fun _ => True));
        [apply stage_loop_ends; lia | intros _ _].
      apply (session_phase_ends w o prog_mbn).
  - apply ends_ret. right. exact Hf.
Qed.

(** X5: what [main] itself adds to the calls it makes.  The loaders,
    libusb and the two protocol engines are other units; they are taken
    to return (they are total functions of the outside world here), and
    under that reading, with [optind >= 0]: every read of [argv] by
    [main] is in bounds, since the usage guard and the condition of the
    do-while loop keep the index below [argc]; the staging loop stops
    at [argc]; and the exit status is 0 or 1, by a return of 0 or 1 or
    by an [err]/[errx] call with status 1. *)
Theorem main_exit_status (w : world) (argv : list string)
  (opts : list (ascii * string)) (optind : Z) (h : trace) :
  0 <= optind ->
  match fst (main w argv opts optind h) with
  | Ret r => r = 0 \/ r = 1
  | Exit code => code = 1
  | Trap => False
  | Diverge => False
  end.
Proof. intros Hind. exact (main_ends w argv opts optind Hind h). Qed.

Lemma main_exit_status_witness :
  match fst (main (world_with [edl_device] (fun _ => 0))
                  ["qdl"; "prog.mbn"; "widget.xml"]%string [] 1 []) with
  | Ret r => r = 0 \/ r = 1
  | Exit code => code = 1
  | Trap => False
  | Diverge => False
  end.
Proof.
  exact (main_exit_status (world_with [edl_device] (fun _ => 0))
           ["qdl"; "prog.mbn"; "widget.xml"]%string [] 1 [] ltac:(lia)).
Defined.

(** ** Failing libusb calls *)

Section HardFaults.

Variable w : world.
Variable usb : list libusb_device.
Hypothesis init_ok : libusb_init w = 0.
Hypothesis list_ok : libusb_get_device_list w = Some usb.

Lemma device_loop_exit d rest qdl intf h code h' :
  parse_usb_desc w d qdl intf h = (Exit code, h') ->
  device_loop w (d :: rest) qdl intf h = (Exit code, h').
Proof.
  intros Hrun. cbn [device_loop]. unfold bind at 1. now rewrite Hrun.
Qed.

(** An exit during the walk of a device ends [usb_open]. *)
Lemma usb_open_exit qdl h pre tpre d post code h' :
  usb = pre ++ d :: post ->
  all_passed_over pre tpre ->
  parse_usb_desc w d qdl (-1)
                 ((h ++ [EvUsbInit; EvGetDeviceList]) ++ tpre)
  = (Exit code, h') ->
  usb_open w qdl h = (Exit code, h').
Proof.
  intros Husb Hpre Hrun.
  rewrite (usb_open_run w qdl h usb init_ok list_ok), Husb.
  rewrite (device_loop_passed w pre tpre) by assumption.
  now rewrite (device_loop_exit d post qdl (-1) _ code h' Hrun).
Qed.

Lemma parse_read_failure d qdl intf h :
  fst (get_device_descriptor d) <> 0 ->
  parse_usb_desc w d qdl intf h =
    (Exit 1,
     h ++ [EvGetDeviceDescriptor (dev_ptr d);
           EvStderr "libusb_get_device_descriptor error %d"]).
Proof.
  intros Hret. unfold parse_usb_desc, bind, emit, err.
  apply c_true_iff in Hret. rewrite Hret. now rewrite <- app_assoc.
Qed.

Lemma parse_config_failure d qdl intf h cpre rest :
  fst (get_device_descriptor d) = 0 ->
  identity_ok d = true ->
  dev_bDescriptorType (snd (get_device_descriptor d)) = LIBUSB_DT_DEVICE ->
  config_descriptors d = cpre ++ rest ->
  forallb clean_config cpre = true ->
  (List.length cpre < Z.to_nat (bNumConfigurations
                                  (snd (get_device_descriptor d))))%nat ->
  fst (libusb_get_config_descriptor d (Z.of_nat (List.length cpre))) <> 0 ->
  parse_usb_desc w d qdl intf h =
    (Exit 1,
     h ++ EvGetDeviceDescriptor (dev_ptr d)
       :: config_reads d 0 (S (List.length cpre))
       ++ [EvStderr "libusb_get_config_descriptor error"]).
Proof.
  intros Hret Hid Htype Hcfg Hclean Hn Hfail.
  rewrite parse_walk by assumption.
  replace (Z.to_nat (bNumConfigurations (snd (get_device_descriptor d))))
    with (List.length cpre
          + S (Z.to_nat (bNumConfigurations (snd (get_device_descriptor d)))
               - S (List.length cpre)))%nat by lia.
  pose proof (config_loop_skip w d qdl intf cpre [] rest) as Hskip.
  cbn [List.length app] in Hskip. change (Z.of_nat 0) with 0 in Hskip.
  rewrite Hskip by assumption.
  cbn [config_loop]. apply c_true_iff in Hfail. rewrite Hfail.
  unfold bind, emit, err. rewrite config_reads_snoc. cbn [Nat.add].
  rewrite <- !app_assoc. reflexivity.
Qed.

Lemma interface_loop_open_fails d qdl intf ipre i ipost l h :
  forallb clean_interface ipre = true ->
  interface_wf i = true ->
  signature_ok i = true ->
  fst (libusb_open d) <> 0 ->
  interface_loop w d qdl intf (ipre ++ i :: ipost) l h =
    (Exit 1,
     h ++ [EvOpen (dev_ptr d); EvStderr "failed to open, errcode: %d"]).
Proof.
  intros Hpre Hwf Hsig Hopen.
  destruct (interface_wf_loop i (scan_interfaces ipre l) Hwf)
    as (Ht & Hl & l' & Hscan).
  rewrite interface_loop_skip by assumption.
  rewrite interface_loop_cons, Ht, Hl, Hscan, Hsig. cbn [negb].
  unfold bind, emit, err. apply c_true_iff in Hopen. rewrite Hopen.
  now rewrite <- app_assoc.
Qed.

Lemma parse_open_failure d qdl intf h k i :
  fst (get_device_descriptor d) = 0 ->
  identity_ok d = true ->
  first_match d k i ->
  fst (libusb_open d) <> 0 ->
  parse_usb_desc w d qdl intf h =
    (Exit 1,
     h ++ EvGetDeviceDescriptor (dev_ptr d) :: config_reads d 0 k
       ++ [EvOpen (dev_ptr d); EvStderr "failed to open, errcode: %d"]).
Proof.
  intros Hret Hid Hmatch Hopen.
  destruct Hmatch
    as [cpre c cpost ipre i ipost Htype Hcfg Hn Hclean Hcret Hctype Hifs
          Hipre Hwf Hsig].
  rewrite parse_walk by assumption.
  replace (Z.to_nat (bNumConfigurations (snd (get_device_descriptor d))))
    with (List.length cpre
          + S (Z.to_nat (bNumConfigurations (snd (get_device_descriptor d)))
               - S (List.length cpre)))%nat by lia.
  pose proof (config_loop_skip w d qdl intf cpre [] (c :: cpost)) as Hskip.
  cbn [List.length app] in Hskip. change (Z.of_nat 0) with 0 in Hskip.
  rewrite Hskip by assumption.
  rewrite (config_loop_step w d qdl intf cpre c cpost) by assumption.
  rewrite Hifs, interface_loop_open_fails by assumption.
  rewrite config_reads_snoc. cbn [Nat.add].
  rewrite <- !app_assoc. reflexivity.
Qed.

End HardFaults.

(** X6: a device descriptor that libusb fails to read ends the whole
    run with exit status 1 once the walk gets to the device, that is,
    after any run of earlier devices that are passed over (for another
    identity, for a descriptor fault or for want of a matching
    interface; whether they could be opened plays no part), whatever
    the identity of the device and whatever devices follow it in the
    list: unlike a descriptor that was read and is inconsistent, a
    failed read is not passed over. *)
Theorem usb_open_descriptor_read_failure (w : world) (qdl : qdl_device)
  (h : trace) (pre : list libusb_device) (tpre : trace) (d : libusb_device)
  (post : list libusb_device) :
  libusb_init w = 0 ->
  libusb_get_device_list w = Some (pre ++ d :: post) ->
  all_passed_over pre tpre ->
  fst (get_device_descriptor d) <> 0 ->
  usb_open w qdl h =
    (Exit 1,
     h ++ [EvUsbInit; EvGetDeviceList] ++ tpre
       ++ [EvGetDeviceDescriptor (dev_ptr d);
           EvStderr "libusb_get_device_descriptor error %d"]).
Proof.
  intros Hinit Hlist Hpre Hfail.
  rewrite (usb_open_exit w (pre ++ d :: post) Hinit Hlist qdl h pre tpre d
             post 1 _ eq_refl Hpre (parse_read_failure w d qdl (-1) _ Hfail)).
  now rewrite <- !app_assoc.
Qed.

Lemma usb_open_descriptor_read_failure_witness :
  usb_open (world_with [hub_device; odd_device; faulty_device;
                        garbled_device; unreadable_device; edl_device]
                       (fun _ => 0)) sample_qdl [] =
    (Exit 1,
     [EvUsbInit; EvGetDeviceList;
      EvGetDeviceDescriptor 900; EvGetDeviceDescriptor 950;
      EvGetDeviceDescriptor 400; EvGetConfigDescriptor 400 0;
      EvGetDeviceDescriptor 1000; EvGetConfigDescriptor 1000 0;
      EvGetDeviceDescriptor 500;
      EvStderr "libusb_get_device_descriptor error %d"]).
Proof.
  apply (usb_open_descriptor_read_failure
           (world_with [hub_device; odd_device; faulty_device;
                        garbled_device; unreadable_device; edl_device]
                       (fun _ => 0))
           sample_qdl []
           [hub_device; odd_device; faulty_device; garbled_device] _
           unreadable_device [edl_device] eq_refl eq_refl
           sample_devices_passed_over).
  discriminate.
Defined.

(** X7: a configuration descriptor that libusb fails to read, for
    instance because the device announces more configurations than
    libusb delivers, ends the run with exit status 1 once the walk of a
    device with the fixed identity gets to it, the configurations
    before it having been read and passed over, and the earlier devices
    having been passed over (whether they could be opened plays no
    part). *)
Theorem usb_open_config_read_failure (w : world) (qdl : qdl_device)
  (h : trace) (pre : list libusb_device) (tpre : trace) (d : libusb_device)
  (post : list libusb_device)
  (cpre rest : list (Z * libusb_config_descriptor)) :
  libusb_init w = 0 ->
  libusb_get_device_list w = Some (pre ++ d :: post) ->
  all_passed_over pre tpre ->
  fst (get_device_descriptor d) = 0 ->
  identity_ok d = true ->
  dev_bDescriptorType (snd (get_device_descriptor d)) = LIBUSB_DT_DEVICE ->
  config_descriptors d = cpre ++ rest ->
  forallb clean_config cpre = true ->
  (List.length cpre < Z.to_nat (bNumConfigurations
                                  (snd (get_device_descriptor d))))%nat ->
  fst (libusb_get_config_descriptor d (Z.of_nat (List.length cpre))) <> 0 ->
  usb_open w qdl h =
    (Exit 1,
     h ++ [EvUsbInit; EvGetDeviceList] ++ tpre
       ++ EvGetDeviceDescriptor (dev_ptr d)
          :: config_reads d 0 (S (List.length cpre))
       ++ [EvStderr "libusb_get_config_descriptor error"]).
Proof.
  intros Hinit Hlist Hpre Hret Hid Htype Hcfg Hclean Hn Hfail.
  rewrite (usb_open_exit w (pre ++ d :: post) Hinit Hlist qdl h pre tpre d
             post 1 _ eq_refl Hpre
             (parse_config_failure w d qdl (-1) _ cpre rest Hret Hid Htype
                Hcfg Hclean Hn Hfail)).
  now rewrite <- !app_assoc.
Qed.

Lemma usb_open_config_read_failure_witness :
  usb_open (world_with [hub_device; odd_device; faulty_device;
                        garbled_device; short_device; edl_device]
                       (fun _ => 0))
           sample_qdl [] =
    (Exit 1,
     [EvUsbInit; EvGetDeviceList;
      EvGetDeviceDescriptor 900; EvGetDeviceDescriptor 950;
      EvGetDeviceDescriptor 400; EvGetConfigDescriptor 400 0;
      EvGetDeviceDescriptor 1000; EvGetConfigDescriptor 1000 0;
      EvGetDeviceDescriptor 700;
      EvGetConfigDescriptor 700 0; EvGetConfigDescriptor 700 1;
      EvStderr "libusb_get_config_descriptor error"]).
Proof.
  apply (usb_open_config_read_failure
           (world_with [hub_device; odd_device; faulty_device;
                        garbled_device; short_device; edl_device]
                       (fun _ => 0))
           sample_qdl []
           [hub_device; odd_device; faulty_device; garbled_device] _
           short_device [edl_device]
           [(0, mk_config LIBUSB_DT_CONFIG [serial_interface])] []
           eq_refl eq_refl sample_devices_passed_over);
    try reflexivity.
  - cbn. lia.
  - discriminate.
Defined.

(** X8: when the device that holds the first matching interface cannot
    be opened, the run ends with exit status 1 right after the failed
    [libusb_open]; no later device is tried and nothing is claimed.
    The devices before it were passed over; whether those could be
    opened plays no part, since they are not opened. *)
Theorem usb_open_open_failure (w : world) (qdl : qdl_device)
  (h : trace) (pre : list libusb_device) (tpre : trace) (d : libusb_device)
  (post : list libusb_device) (k : nat) (i : libusb_interface) :
  libusb_init w = 0 ->
  libusb_get_device_list w = Some (pre ++ d :: post) ->
  all_passed_over pre tpre ->
  fst (get_device_descriptor d) = 0 ->
  identity_ok d = true ->
  first_match d k i ->
  fst (libusb_open d) <> 0 ->
  usb_open w qdl h =
    (Exit 1,
     h ++ [EvUsbInit; EvGetDeviceList] ++ tpre
       ++ EvGetDeviceDescriptor (dev_ptr d) :: config_reads d 0 k
       ++ [EvOpen (dev_ptr d); EvStderr "failed to open, errcode: %d"]).
Proof.
  intros Hinit Hlist Hpre Hret Hid Hmatch Hfail.
  rewrite (usb_open_exit w (pre ++ d :: post) Hinit Hlist qdl h pre tpre d
             post 1 _ eq_refl Hpre
             (parse_open_failure w d qdl (-1) _ k i Hret Hid Hmatch Hfail)).
  now rewrite <- !app_assoc.
Qed.

Lemma locked_device_first_match : first_match locked_device 1 edl_interface.
Proof.
  apply (first_match_at locked_device []
           (0, mk_config LIBUSB_DT_CONFIG [serial_interface; edl_interface])
           [] [serial_interface] edl_interface []);
    try reflexivity.
  cbn. lia.
Qed.

Lemma usb_open_open_failure_witness :
  usb_open (world_with [hub_device; odd_device; faulty_device;
                        garbled_device; locked_device; edl_device]
                       (fun _ => 0))
           sample_qdl [] =
    (Exit 1,
     [EvUsbInit; EvGetDeviceList;
      EvGetDeviceDescriptor 900; EvGetDeviceDescriptor 950;
      EvGetDeviceDescriptor 400; EvGetConfigDescriptor 400 0;
      EvGetDeviceDescriptor 1000; EvGetConfigDescriptor 1000 0;
      EvGetDeviceDescriptor 600;
      EvGetConfigDescriptor 600 0; EvOpen 600;
      EvStderr "failed to open, errcode: %d"]).
Proof.
  apply (usb_open_open_failure
           (world_with [hub_device; odd_device; faulty_device;
                        garbled_device; locked_device; edl_device]
                       (fun _ => 0))
           sample_qdl []
           [hub_device; odd_device; faulty_device; garbled_device] _
           locked_device [edl_device] 1%nat edl_interface
           eq_refl eq_refl sample_devices_passed_over);
    try reflexivity.
  - exact locked_device_first_match.
  - discriminate.
Defined.

(** X9: when the interface that was selected cannot be claimed, the run
    ends with exit status 1; by then the device has been opened and the
    device list freed.  The devices before the selected one were passed
    over; whether those could be opened plays no part. *)
Theorem usb_open_claim_failure (w : world) (qdl : qdl_device)
  (h : trace) (pre : list libusb_device) (tpre : trace) (d : libusb_device)
  (post : list libusb_device) (k : nat) (i : libusb_interface) :
  libusb_init w = 0 ->
  libusb_get_device_list w = Some (pre ++ d :: post) ->
  all_passed_over pre tpre ->
  fst (get_device_descriptor d) = 0 ->
  identity_ok d = true ->
  fst (libusb_open d) = 0 ->
  first_match d k i ->
  libusb_claim_interface w (snd (libusb_open d))
                         (bInterfaceNumber (altsetting i)) <> 0 ->
  usb_open w qdl h =
    (Exit 1,
     h ++ [EvUsbInit; EvGetDeviceList] ++ tpre
       ++ EvGetDeviceDescriptor (dev_ptr d) :: config_reads d 0 k
       ++ [EvOpen (dev_ptr d); EvFreeDeviceList;
           EvClaimInterface (snd (libusb_open d))
                            (bInterfaceNumber (altsetting i));
           EvStderr "libusb_claim_interface"]).
Proof.
  intros Hinit Hlist Hpre Hret Hid Hopen Hmatch Hfail.
  destruct (parse_selects w d qdl (-1)
              ((h ++ [EvUsbInit; EvGetDeviceList]) ++ tpre)
              k i Hret Hid Hopen Hmatch) as (l & Hrun).
  rewrite (usb_open_run w qdl h _ Hinit Hlist).
  rewrite (device_loop_passed w pre tpre) by assumption.
  rewrite (device_loop_found w d post qdl (-1) _ _ _ _ Hrun).
  cbn [session_of handle]. apply c_true_iff in Hfail. rewrite Hfail.
  f_equal. rewrite <- !app_assoc. cbn [app].
  do 3 f_equal. rewrite <- app_assoc. reflexivity.
Qed.

Lemma usb_open_claim_failure_witness :
  usb_open (busy_world [hub_device; odd_device; faulty_device;
                        garbled_device; edl_device; locked_device])
           sample_qdl [] =
    (Exit 1,
     [EvUsbInit; EvGetDeviceList;
      EvGetDeviceDescriptor 900; EvGetDeviceDescriptor 950;
      EvGetDeviceDescriptor 400; EvGetConfigDescriptor 400 0;
      EvGetDeviceDescriptor 1000; EvGetConfigDescriptor 1000 0;
      EvGetDeviceDescriptor 100;
      EvGetConfigDescriptor 100 0; EvOpen 100; EvFreeDeviceList;
      EvClaimInterface 7 1; EvStderr "libusb_claim_interface"]).
Proof.
  apply (usb_open_claim_failure
           (busy_world [hub_device; odd_device; faulty_device;
                        garbled_device; edl_device; locked_device])
           sample_qdl []
           [hub_device; odd_device; faulty_device; garbled_device] _
           edl_device [locked_device] 1%nat edl_interface
           eq_refl eq_refl sample_devices_passed_over);
    try reflexivity.
  - exact edl_device_first_match.
  - discriminate.
Defined.

(** ** Further properties of the interface walk *)

(** X10: the descriptor checks and the endpoint scan of an interface
    come before the class filter.  An interface whose alternate setting
    has the wrong descriptor type or length, or one of whose endpoint
    descriptors is not of type ENDPOINT, ends the walk of the device
    with [-EINVAL] when it is reached, whatever its class and whatever
    interfaces follow it; the device is not opened and the session is
    not touched. *)
Theorem malformed_interface_ends_walk (w : world) (d : libusb_device)
  (qdl : qdl_device) (intf : Z) (ipre : list libusb_interface)
  (i : libusb_interface) (ipost : list libusb_interface) (l : locals)
  (h : trace) :
  forallb clean_interface ipre = true ->
  interface_wf i = false ->
  interface_loop w d qdl intf (ipre ++ i :: ipost) l h =
    (Ret (Return (- EINVAL, qdl, intf)), h).
Proof.
  intros Hpre Hbad. rewrite interface_loop_skip by assumption.
  rewrite interface_loop_cons. unfold interface_wf in Hbad.
  destruct (if_bDescriptorType (altsetting i) =? LIBUSB_DT_INTERFACE);
    [| reflexivity].
  cbn [negb andb] in *.
  destruct (if_bLength (altsetting i) <? LIBUSB_DT_INTERFACE_SIZE) eqn:El;
    [reflexivity |].
  apply Z.ltb_ge in El. apply Z.leb_le in El. rewrite El in Hbad.
  cbn [andb] in Hbad. now rewrite endpoint_loop_malformed.
Qed.

Lemma malformed_interface_ends_walk_witness :
  interface_loop (world_with [] (fun _ => 0)) edl_device sample_qdl (-1)
                 [serial_interface; garbled_interface; edl_interface]
                 no_locals [] =
    (Ret (Return (- EINVAL, sample_qdl, -1)), []).
Proof.
  apply (malformed_interface_ends_walk (world_with [] (fun _ => 0))
           edl_device sample_qdl (-1) [serial_interface] garbled_interface
           [edl_interface] no_locals []); reflexivity.
Defined.

Lemma clean_interfaces_wf ifs :
  forallb clean_interface ifs = true -> forallb interface_wf ifs = true.
Proof.
  induction ifs as [|i ifs IH]; [reflexivity |].
  cbn [forallb]. unfold clean_interface at 1.
  rewrite !andb_true_iff. intros [[Hwf _] H]. auto.
Qed.

Lemma scan_interfaces_endpoints ifs :
  forall l,
    forallb interface_wf ifs = true ->
    endpoint_loop (endpoints_of ifs) l = Some (scan_interfaces ifs l).
Proof.
  induction ifs as [|i ifs IH]; intros l H; [reflexivity |].
  cbn [forallb] in H. apply andb_true_iff in H as [Hi H].
  destruct (interface_wf_loop i l Hi) as (_ & _ & l' & Hscan).
  unfold endpoints_of. cbn [flat_map].
  rewrite endpoint_loop_app, Hscan.
  cbn [scan_interfaces fold_left]. rewrite Hscan. now apply IH.
Qed.

(** X11: the variables that collect the endpoints are not reset between
    interfaces.  When an interface is selected, each direction of the
    session carries the last bulk endpoint of that direction among all
    endpoints scanned so far, those of the interfaces passed over
    included: an interface selected without a bulk endpoint of its own
    in some direction gets the one of an earlier interface. *)
Theorem endpoints_persist_across_interfaces (w : world) (d : libusb_device)
  (qdl : qdl_device) (intf : Z) (ipre : list libusb_interface)
  (i : libusb_interface) (ipost : list libusb_interface) (l : locals)
  (h : trace) :
  forallb clean_interface ipre = true ->
  interface_wf i = true ->
  signature_ok i = true ->
  fst (libusb_open d) = 0 ->
  exists session,
    interface_loop w d qdl intf (ipre ++ i :: ipost) l h =
      (Ret (Return (0, session, bInterfaceNumber (altsetting i))),
       h ++ [EvOpen (dev_ptr d)])
    /\ (forall before e after,
          endpoints_of (ipre ++ [i]) = before ++ e :: after ->
          bulk_in e = true ->
          forallb (fun x => negb (bulk_in x)) after = true ->
          in_ep session = bEndpointAddress e
          /\ in_maxpktsize session = wMaxPacketSize e)
    /\ (forall before e after,
          endpoints_of (ipre ++ [i]) = before ++ e :: after ->
          bulk_out e = true ->
          forallb (fun x => negb (bulk_out x)) after = true ->
          out_ep session = bEndpointAddress e
          /\ out_maxpktsize session = wMaxPacketSize e).
Proof.
  intros Hpre Hwf Hsig Hopen.
  destruct (interface_loop_select w d qdl intf ipre i ipost l h
              Hpre Hwf Hsig Hopen) as (l' & Hscan & Hrun).
  assert (endpoint_loop (endpoints_of (ipre ++ [i])) l = Some l') as Hall.
  { unfold endpoints_of. rewrite flat_map_app. cbn [flat_map].
    rewrite app_nil_r, endpoint_loop_app.
    fold (endpoints_of ipre).
    rewrite scan_interfaces_endpoints by now apply clean_interfaces_wf.
    exact Hscan. }
  exists (session_of w d l'). split; [exact Hrun |]. split.
  - intros before e after Heps He Hafter. rewrite Heps in Hall.
    destruct (endpoint_loop_last_in _ _ _ _ _ He Hafter Hall) as [Ha Hs].
    cbn [session_of in_ep in_maxpktsize]. now rewrite Ha, Hs.
  - intros before e after Heps He Hafter. rewrite Heps in Hall.
    destruct (endpoint_loop_last_out _ _ _ _ _ He Hafter Hall) as [Ha Hs].
    cbn [session_of out_ep out_maxpktsize]. now rewrite Ha, Hs.
Qed.

Lemma endpoints_persist_across_interfaces_witness :
  exists session,
    interface_loop (world_with [split_device] (fun _ => 0)) split_device
                   sample_qdl (-1) [serial_interface; bare_interface]
                   no_locals [] =
      (Ret (Return (0, session, 0)), [EvOpen 800])
    /\ (in_ep session = 132 /\ in_maxpktsize session = 64)
    /\ (out_ep session = 4 /\ out_maxpktsize session = 64).
Proof.
  destruct (endpoints_persist_across_interfaces
              (world_with [split_device] (fun _ => 0)) split_device
              sample_qdl (-1) [serial_interface] bare_interface []
              no_locals [] eq_refl eq_refl eq_refl eq_refl)
    as (session & Hrun & Hin & Hout).
  exists session. split; [exact Hrun |]. split.
  - exact (Hin [] (bulk_ep 132 64) [bulk_ep 4 64] eq_refl eq_refl eq_refl).
  - exact (Hout [bulk_ep 132 64] (bulk_ep 4 64) [] eq_refl eq_refl eq_refl).
Defined.

(** ** Further properties of the dispatcher *)

Lemma getopt_loop_unknown pre bad post :
  forall o h,
    forallb option_known pre = true ->
    option_known bad = false ->
    getopt_loop (pre ++ bad :: post) o h = (Ret (Return 1), h ++ [EvUsage]).
Proof.
  induction pre as [|[opt optarg] pre IH]; intros o h Hpre Hbad.
  - destruct bad as [opt optarg]. cbn [app getopt_loop].
    unfold option_known in Hbad. cbn [fst] in Hbad.
    destruct (Ascii.eqb opt "d"); [discriminate |].
    destruct (Ascii.eqb opt "i"); [discriminate |].
    destruct (Ascii.eqb opt "l"); [discriminate |].
    destruct (Ascii.eqb opt "s"); [discriminate |].
    reflexivity.
  - cbn [forallb] in Hpre. apply andb_true_iff in Hpre as [Hk Hpre].
    rewrite <- app_comm_cons. cbn [getopt_loop].
    unfold option_known in Hk. cbn [fst] in Hk.
    destruct (Ascii.eqb opt "d"); [now apply IH |].
    destruct (Ascii.eqb opt "i"); [now apply IH |].
    destruct (Ascii.eqb opt "l"); [now apply IH |].
    destruct (Ascii.eqb opt "s"); [now apply IH | discriminate].
Qed.

(** X12: an option character that [main] does not handle makes it print
    the usage text and return 1 at once: the options after it are not
    looked at, the positional arguments are not counted, no file is
    read and no device is touched. *)
Theorem main_unknown_option (w : world) (argv : list string)
  (pre : list (ascii * string)) (bad : ascii * string)
  (post : list (ascii * string)) (optind : Z) (h : trace) :
  forallb option_known pre = true ->
  option_known bad = false ->
  main w argv (pre ++ bad :: post) optind h = (Ret 1, h ++ [EvUsage]).
Proof.
  intros Hpre Hbad. unfold main. unfold bind at 1.
  now rewrite getopt_loop_unknown.
Qed.

Lemma main_unknown_option_witness :
  main (world_with [edl_device] (fun _ => 0))
       ["qdl"; "-d"; "-x"; "prog.mbn"; "rawprogram0.xml"]%string
       [("d"%char, EmptyString); ("?"%char, EmptyString)] 3 [] =
    (Ret 1, [EvUsage]).
Proof.
  apply (main_unknown_option (world_with [edl_device] (fun _ => 0))
           ["qdl"; "-d"; "-x"; "prog.mbn"; "rawprogram0.xml"]%string
           [("d"%char, EmptyString)] ("?"%char, EmptyString) [] 3 []);
    reflexivity.
Defined.

Lemma last_optarg_from (c : ascii) (opts : list (ascii * string)) :
  forall acc,
    fold_left (fun a o => if Ascii.eqb (fst o) c then Some (snd o) else a)
              opts acc
    = match last_optarg c opts with
      | Some s => Some s
      | None => acc
      end.
Proof.
  unfold last_optarg.
  induction opts as [|o opts IH]; intros acc; [reflexivity |].
  cbn [fold_left]. rewrite IH, (IH (if Ascii.eqb (fst o) c then _ else _)).
  destruct (fold_left _ opts None); [reflexivity |].
  now destruct (Ascii.eqb (fst o) c).
Qed.

Lemma set_options_fold (opts : list (ascii * string)) :
  forall o,
    forallb option_known opts = true ->
    fold_left set_option opts o =
      mk_options (qdl_debug o || has_option "d" opts)
                 (match last_optarg "i" opts with
                  | Some s => Some s
                  | None => incdir o
                  end)
                 (qdl_finalize_provisioning o || has_option "l" opts)
                 (match last_optarg "s" opts with
                  | Some s => s
                  | None => storage o
                  end).
Proof.
  induction opts as [|[opt optarg] opts IH]; intros o Hk.
  - destruct o. cbn. now rewrite !orb_false_r.
  - cbn [forallb] in Hk. apply andb_true_iff in Hk as [Hopt Hk].
    cbn [fold_left]. rewrite IH by assumption.
    unfold last_optarg, has_option. cbn [fold_left existsb fst snd].
    rewrite !last_optarg_from. fold (last_optarg "i" opts).
    fold (last_optarg "s" opts).
    unfold set_option, option_known in *. cbn [fst snd] in *.
    destruct (Ascii.eqb_spec opt "d") as [->|Hd].
    { cbn. rewrite orb_true_r. now destruct o. }
    destruct (Ascii.eqb_spec opt "i") as [->|Hi].
    { cbn. destruct (last_optarg "i" opts); reflexivity. }
    destruct (Ascii.eqb_spec opt "l") as [->|Hl].
    { cbn. rewrite orb_true_r. reflexivity. }
    destruct (Ascii.eqb_spec opt "s") as [->|Hs]; [| discriminate].
    cbn. destruct (last_optarg "s" opts); reflexivity.
Qed.

(** X13: over handled options, the option loop of [main] ends with
    [qdl_debug] set exactly when [d] occurred, the finalize flag set
    exactly when [l] occurred, the include directory that of the last
    [i] (none without one) and the storage type that of the last [s]
    ([ufs] without one); nothing is printed. *)
Theorem getopt_loop_last_wins (opts : list (ascii * string)) (h : trace) :
  forallb option_known opts = true ->
  getopt_loop opts default_options h =
    (Ret (Next (mk_options (has_option "d" opts)
                           (last_optarg "i" opts)
                           (has_option "l" opts)
                           (match last_optarg "s" opts with
                            | Some s => s
                            | None => "ufs"%string
                            end))), h).
Proof.
  intros Hk. rewrite getopt_loop_known by assumption.
  rewrite set_options_fold by assumption.
  cbn [default_options qdl_debug incdir qdl_finalize_provisioning storage
       orb].
  now destruct (last_optarg "i" opts).
Qed.

Lemma getopt_loop_last_wins_witness :
  getopt_loop [("s"%char, "emmc"%string); ("l"%char, EmptyString);
               ("i"%char, "a"%string); ("s"%char, "ufs"%string);
               ("i"%char, "b"%string)] default_options [] =
    (Ret (Next (mk_options false (Some "b"%string) true "ufs")), []).
Proof.
  apply (getopt_loop_last_wins
           [("s"%char, "emmc"%string); ("l"%char, EmptyString);
            ("i"%char, "a"%string); ("s"%char, "ufs"%string);
            ("i"%char, "b"%string)] []).
  reflexivity.
Defined.

(** X14: the classifier knows [contents] documents, the dispatcher has
    no loader for them: staging such a file reads it, calls no loader
    and ends the run with exit status 1. *)
Theorem contents_file_ends_run (w : world) (finalize : bool) (f : string)
  (doc : xmlDoc) (h : trace) :
  xmlReadFile w f = Some doc ->
  node_name (xmlDocGetRootElement doc) = "contents"%string ->
  fst (detect_type w f h) = Ret QDL_FILE_CONTENTS
  /\ stage_file w finalize f h =
       (Exit 1,
        h ++ [EvXmlReadFile f; EvStderr (f ++ " type not yet supported")]).
Proof.
  intros Hdoc Hroot.
  assert (classify doc = Contents) as Hkind
    by (unfold classify; now rewrite Hroot).
  split.
  - now rewrite detect_type_run, Hdoc, Hkind.
  - unfold stage_file. unfold bind at 1.
    rewrite detect_type_run, Hdoc, Hkind. cbn. unfold err.
    now rewrite <- app_assoc.
Qed.

Lemma contents_file_ends_run_witness :
  fst (detect_type (world_with [] (fun _ => 0)) "contents.xml" [])
  = Ret QDL_FILE_CONTENTS
  /\ stage_file (world_with [] (fun _ => 0)) false "contents.xml" [] =
       (Exit 1,
        [EvXmlReadFile "contents.xml";
         EvStderr "contents.xml type not yet supported"]).
Proof.
  apply (contents_file_ends_run (world_with [] (fun _ => 0)) false
           "contents.xml" (mk_xmlDoc (elem "contents" [])) []);
    reflexivity.
Defined.

Lemma children_loop_elements (nodes : list xmlNode) (type : Z) :
  children_loop nodes type = children_loop (filter is_element nodes) type.
Proof.
  induction nodes as [|n nodes IH]; [reflexivity |].
  cbn [filter]. unfold is_element at 1.
  destruct (node_type n) eqn:E; cbn [children_loop]; rewrite E;
    try exact IH.
  now rewrite IH.
Qed.

Lemma children_loop_shapes (ns : list xmlNode) :
  forall ns' type,
    map node_shape ns = map node_shape ns' ->
    children_loop ns type = children_loop ns' type.
Proof.
  induction ns as [|n ns IH]; intros [|n' ns'] type H; try discriminate;
    [reflexivity |].
  cbn [map] in H. unfold node_shape at 1 3 in H.
  injection H as Htype Hname Hrest.
  cbn [children_loop]. rewrite Htype, Hname, (IH ns' type Hrest).
  reflexivity.
Qed.

(** X15: [detect_type] looks at the name of the root element and at the
    names of the root's element children, and at nothing else: two
    documents that agree on these are classified alike, whatever text,
    comments or nested content they hold. *)
Theorem detect_type_sees_names_only (w : world) (f f' : string)
  (doc doc' : xmlDoc) (h h' : trace) :
  xmlReadFile w f = Some doc ->
  xmlReadFile w f' = Some doc' ->
  node_name (xmlDocGetRootElement doc) = node_name (xmlDocGetRootElement doc') ->
  map node_shape (filter is_element
                         (node_children (xmlDocGetRootElement doc)))
  = map node_shape (filter is_element
                           (node_children (xmlDocGetRootElement doc'))) ->
  fst (detect_type w f h) = fst (detect_type w f' h').
Proof.
  intros Hdoc Hdoc' Hroot Hshapes.
  unfold detect_type, bind, emit, ret. rewrite Hdoc, Hdoc'. cbn [fst].
  rewrite Hroot.
  rewrite (children_loop_elements (node_children (xmlDocGetRootElement doc))),
    (children_loop_elements (node_children (xmlDocGetRootElement doc'))).
  now rewrite (children_loop_shapes _ _ _ Hshapes).
Qed.

Lemma detect_type_sees_names_only_witness :
  fst (detect_type
         (mk_world twin_files (fun _ => 0) (fun _ => 0) (fun _ _ => 0) 0
                   (Some []) (fun _ _ => 0) (fun _ _ _ _ _ _ => (0, 0))
                   (fun _ _ => 0) (fun _ _ _ => 0) (fun _ => 0))
         "plain.xml" []) =
  fst (detect_type
         (mk_world twin_files (fun _ => 0) (fun _ => 0) (fun _ _ => 0) 0
                   (Some []) (fun _ _ => 0) (fun _ _ _ _ _ _ => (0, 0))
                   (fun _ _ => 0) (fun _ _ _ => 0) (fun _ => 0))
         "busy.xml" [EvUsage]).
Proof.
  apply (detect_type_sees_names_only
           (mk_world twin_files (fun _ => 0) (fun _ => 0) (fun _ _ => 0) 0
                     (Some []) (fun _ _ => 0) (fun _ _ _ _ _ _ => (0, 0))
                     (fun _ _ => 0) (fun _ _ _ => 0) (fun _ => 0))
           "plain.xml" "busy.xml"
           (mk_xmlDoc (elem "data" [elem "foo" []; elem "program" []]))
           (mk_xmlDoc
              (elem "data"
                    [text_node; elem "foo" [elem "ufs" []];
                     mk_xmlNode XML_COMMENT_NODE "ufs" [];
                     elem "program" [text_node]]))
           [] [EvUsage]);
    reflexivity.
Defined.

Lemma main_after_staging (w : world) (front : list string)
  (prog_mbn : string) (support : list string)
  (opts : list (ascii * string)) (h : trace) :
  forallb option_known opts = true ->
  support <> [] ->
  forallb (staged w (qdl_finalize_provisioning (options_after opts))) support
  = true ->
  main w (front ++ prog_mbn :: support) opts (Z.of_nat (List.length front)) h
  = session_phase w (options_after opts) prog_mbn
      (h ++ flat_map
              (stage_events w (qdl_finalize_provisioning (options_after opts)))
              support).
Proof.
  intros Hopts Hne Hstaged. rewrite main_run by assumption.
  destruct support as [|f files]; [contradiction |].
  replace (front ++ prog_mbn :: f :: files)
    with ((front ++ [prog_mbn]) ++ f :: files) by now rewrite <- app_assoc.
  unfold bind at 1.
  now rewrite stage_loop_staged by (assumption || cbn; lia).
Qed.

(** X16: once the support files are staged, the result of [main] is
    decided by [usb_open] and the two protocol engines, in this order:
    a non-zero [usb_open] gives 1 with no engine run; otherwise the
    handshake engine runs on the session with the programmer image, and
    a negative answer gives 1 with the flashing engine not run;
    otherwise the flashing engine runs on the same session with the
    include directory and storage type of the options, and [main]
    returns 1 on a negative answer and 0 else. *)
Theorem main_session_outcome (w : world) (front : list string)
  (prog_mbn : string) (support : list string)
  (opts : list (ascii * string)) (h : trace) (r : Z) (s : qdl_device)
  (h2 : trace) :
  forallb option_known opts = true ->
  support <> [] ->
  forallb (staged w (qdl_finalize_provisioning (options_after opts))) support
  = true ->
  usb_open w (qdl_uninit w)
           (h ++ flat_map
                   (stage_events w (qdl_finalize_provisioning
                                      (options_after opts)))
                   support) = (Ret (r, s), h2) ->
  main w (front ++ prog_mbn :: support) opts (Z.of_nat (List.length front)) h
  = if c_true r then (Ret 1, h2)
    else if sahara_run w s prog_mbn <? 0
    then (Ret 1, h2 ++ [EvSaharaRun s prog_mbn])
    else
      (Ret (if firehose_run w s (incdir (options_after opts))
                            (storage (options_after opts)) <? 0
            then 1 else 0),
       h2 ++ [EvSaharaRun s prog_mbn;
              EvFirehoseRun s (incdir (options_after opts))
                            (storage (options_after opts))]).
Proof.
  intros Hopts Hne Hstaged Hopen.
  rewrite main_after_staging by assumption.
  unfold session_phase. unfold bind at 1. rewrite Hopen. cbn [fst snd].
  destruct (c_true r); [reflexivity |].
  unfold bind, emit, ret.
  destruct (sahara_run w s prog_mbn <? 0); [reflexivity |].
  rewrite <- app_assoc. cbn [app].
  now destruct (firehose_run w s _ _ <? 0).
Qed.

Lemma main_session_outcome_witness :
  main (world_with [edl_device] (fun _ => 0))
       ["qdl"; "prog.mbn"; "patch0.xml"]%string [] 1 [] =
    (Ret 0,
     [EvXmlReadFile "patch0.xml"; EvPatchLoad "patch0.xml";
      EvUsbInit; EvGetDeviceList; EvGetDeviceDescriptor 100;
      EvGetConfigDescriptor 100 0; EvOpen 100; EvFreeDeviceList;
      EvClaimInterface 7 1;
      EvSaharaRun (mk_qdl 7 130 2 64 1024) "prog.mbn";
      EvFirehoseRun (mk_qdl 7 130 2 64 1024) None "ufs"]).
Proof.
  apply (main_session_outcome (world_with [edl_device] (fun _ => 0))
           ["qdl"%string] "prog.mbn" ["patch0.xml"%string] [] [] 0
           (mk_qdl 7 130 2 64 1024)
           [EvXmlReadFile "patch0.xml"; EvPatchLoad "patch0.xml";
            EvUsbInit; EvGetDeviceList; EvGetDeviceDescriptor 100;
            EvGetConfigDescriptor 100 0; EvOpen 100; EvFreeDeviceList;
            EvClaimInterface 7 1]);
    try reflexivity.
  discriminate.
Defined.

Lemma passed_over_no_open (d : libusb_device) (t : trace) :
  passed_over d t ->
  forallb (fun e => negb (is_open_event e)) t = true.
Proof.
  intros [ | t' _ _ Hfault | | ]; try reflexivity;
    try (cbn [forallb is_open_event negb andb]; apply config_reads_no_open).
  destruct Hfault; try reflexivity;
    cbn [forallb is_open_event negb andb]; apply config_reads_no_open.
Qed.

Lemma all_passed_over_no_open (usb : list libusb_device) (t : trace) :
  all_passed_over usb t ->
  forallb (fun e => negb (is_open_event e)) t = true.
Proof.
  induction 1 as [|d t ds ts Hd _ IH]; [reflexivity |].
  rewrite forallb_app, IH, (passed_over_no_open d t Hd). reflexivity.
Qed.

(** X17: when every attached device is passed over, because it has
    another identity, because the walk meets a descriptor fault on it,
    or because it has the fixed identity and no matching interface
    (whether a device could be opened plays no part, and of a device
    with another identity only the device descriptor is read), a run
    with staged support files reads the descriptors of the devices in
    turn, opens none, runs no protocol engine and returns 1; the device
    list is not freed on this path. *)
Theorem main_no_device (w : world) (front : list string)
  (prog_mbn : string) (support : list string)
  (opts : list (ascii * string)) (usb : list libusb_device) (t : trace)
  (h : trace) :
  forallb option_known opts = true ->
  support <> [] ->
  forallb (staged w (qdl_finalize_provisioning (options_after opts))) support
  = true ->
  libusb_init w = 0 ->
  libusb_get_device_list w = Some usb ->
  all_passed_over usb t ->
  forallb (fun e => negb (is_open_event e)) t = true
  /\ main w (front ++ prog_mbn :: support) opts
          (Z.of_nat (List.length front)) h
     = (Ret 1,
        h ++ flat_map
               (stage_events w
                  (qdl_finalize_provisioning (options_after opts)))
               support
          ++ [EvUsbInit; EvGetDeviceList] ++ t).
Proof.
  intros Hopts Hne Hstaged Hinit Hlist Hover. split.
  - exact (all_passed_over_no_open usb t Hover).
  - rewrite main_after_staging by assumption.
    unfold session_phase. unfold bind at 1.
    rewrite (usb_open_none w usb Hinit Hlist _ _ t Hover).
    cbn [fst c_true ENOENT Z.opp Z.eqb negb]. unfold ret.
    now rewrite <- app_assoc.
Qed.

Lemma main_no_device_witness :
  forallb (fun e => negb (is_open_event e))
          [EvGetDeviceDescriptor 900; EvGetDeviceDescriptor 950;
           EvGetDeviceDescriptor 400; EvGetConfigDescriptor 400 0;
           EvGetDeviceDescriptor 1000; EvGetConfigDescriptor 1000 0] = true
  /\ main (world_with [hub_device; odd_device; faulty_device; garbled_device]
                      (fun _ => 0))
          ["qdl"; "prog.mbn"; "patch0.xml"]%string [] 1 [] =
       (Ret 1,
        [EvXmlReadFile "patch0.xml"; EvPatchLoad "patch0.xml";
         EvUsbInit; EvGetDeviceList;
         EvGetDeviceDescriptor 900; EvGetDeviceDescriptor 950;
         EvGetDeviceDescriptor 400; EvGetConfigDescriptor 400 0;
         EvGetDeviceDescriptor 1000; EvGetConfigDescriptor 1000 0]).
Proof.
  apply (main_no_device
           (world_with [hub_device; odd_device; faulty_device; garbled_device]
                       (fun _ => 0))
           ["qdl"%string] "prog.mbn" ["patch0.xml"%string] []
           [hub_device; odd_device; faulty_device; garbled_device] _ []);
    try reflexivity.
  - discriminate.
  - exact sample_devices_passed_over.
Defined.
